(** * ECLPvtOil: oil PVT property model (opm/utility/ECLPvtOil.cpp)

    A shallow embedding of the translation unit [ECLPvtOil.cpp]: the
    dead-oil and live-oil evaluators behind [PVxOBase], the builders
    [createDeadOil], [extractPrimaryKey], [createLiveOil] and
    [createPVTFunction], the implementation class [Oil::Impl] with its
    region check, and the value-semantic facade [Oil].

    Conventions.
    - [double] is IEEE binary64, Rocq's primitive [float].
    - [size_t] quantities are [N]; where the source computes with them the
      wrap-around modulo 2^64 is written out ([wadd], [wsub], [wmul]).
    - A C++ call has one of four outcomes: it returns, it throws, it
      aborts on a failed [assert], or its behaviour is undefined (an
      access outside a vector, a null or dangling pointer, the deletion
      of a model through a pointer to [PVxOBase], which has no virtual
      destructor).
    - The vectors of a raw table hold at most [max_size] elements, as
      every [std::vector] does; [reserve] throws [std::length_error] for
      a larger count.
    - The classes declared in headers that are not part of this file
      (the interpolation leaves, the unit-system registry) are operations
      of the class [Collaborators]; nothing is assumed about them, except
      that a leaf is a value: its copy constructor yields an equal leaf.
    - [CreateOilPVTInterpolant::fromECLOutput] reads the table from an
      INIT file; the file reader and the item numbers it uses are the
      operations and constants of the class [InitFile]. *)

From Stdlib Require Import ZArith NArith List String Floats Lia.
From Stdlib Require Import DecimalString.
From stdpp Require Import base option list gmap.

#[local] Set Warnings "-inexact-float".
#[local] Open Scope N_scope.

(** ** Machine arithmetic on [size_t] *)

Definition size_t_range : N := 2 ^ 64.

Definition wadd (a b : N) : N := (a + b) mod size_t_range.
Definition wmul (a b : N) : N := (a * b) mod size_t_range.
(** [a - b] on unsigned operands: [0 - 1] is [2^64 - 1]. *)
Definition wsub (a b : N) : N := (a + (size_t_range - b mod size_t_range)) mod size_t_range.

(** [std::vector::size()]. *)
Definition size {A} (v : list A) : N := N.of_nat (length v).

(** [static_cast<size_t>(i)] for a signed [int] argument. *)
Definition size_t_of_int (i : Z) : N := Z.to_N (i mod Z.of_N size_t_range).

(** [std::vector::max_size()] for a vector of 8-byte elements ([double],
    or a pointer where [size_t] has 64 bits).  The value is
    implementation-defined; this is the one of libstdc++,
    [PTRDIFF_MAX / 8].  The proofs use no more of it than that a vector
    never holds more than [max_size] elements. *)
Definition max_size : N := 2 ^ 60 - 1.

(** A [std::vector<double>] that comes from outside (the members of a raw
    table, the TAB keyword of an INIT file): its elements, of which there
    are at most [max_size]. *)
Record vector : Type := {
  elems :> list float;
  fits : (size elems <=? max_size) = true
}.

(** The bound of a vector, as an inequality. *)
Definition vector_fits (v : vector) : size v <= max_size.
Proof. apply N.leb_le, fits. Qed.

(** A part of a vector is no longer than the vector. *)
Definition slice_fits (v : vector) (b n : nat) :
  (size (take n (drop b v)) <=? max_size) = true.
Proof.
  apply N.leb_le. pose proof (vector_fits v) as Hv. unfold size in *.
  rewrite length_take, length_drop. lia.
Qed.

(** A vector from its elements. *)
Definition vector_of (l : list float) (H : (size l <=? max_size) = true)
    : vector :=
  {| elems := l; fits := H |}.

(** The [n] elements of [v] from position [b] on (fewer, where [v] ends
    before), as a vector of their own. *)
Definition slice (v : vector) (b n : nat) : vector :=
  {| elems := take n (drop b v); fits := slice_fits v b n |}.

(** [std::to_string] on an unsigned value: its decimal digits. *)
Definition to_string (n : N) : string := NilZero.string_of_uint (N.to_uint n).

(** ** Outcomes of a call *)

Section Outcome.
(** [E] is the type of the exception objects of the collaborators. *)
Context {E : Type}.

Inductive exn : Type :=
| invalid_argument (what : string)   (* std::invalid_argument thrown by this file *)
| length_error                       (* std::length_error thrown by std::vector::reserve *)
| propagated (e : E).                (* an exception of a collaborator, passing through *)

Inductive result (A : Type) : Type :=
| Ok (a : A)
| Throw (e : exn)
| Abort (msg : string)               (* failed assert *)
| Undefined.                         (* undefined behaviour *)

#[global] Arguments Ok {A} a.
#[global] Arguments Throw {A} e.
#[global] Arguments Abort {A} msg.
#[global] Arguments Undefined {A}.

Definition bind {A B} (m : result A) (k : A -> result B) : result B :=
  match m with
  | Ok a => k a
  | Throw e => Throw e
  | Abort msg => Abort msg
  | Undefined => Undefined
  end.

(** A call into a collaborator: it returns or throws one of its own
    exceptions. *)
Definition call {A} (r : E + A) : result A :=
  match r with
  | inr a => Ok a
  | inl e => Throw (propagated e)
  end.

(** [v[i]] and [*(begin(v) + i)]: undefined outside the vector. *)
Definition at_ {A} (v : list A) (i : N) : result A :=
  match v !! N.to_nat i with
  | Some x => Ok x
  | None => Undefined
  end.

(** The iterator range [begin(v) + b, begin(v) + e) as a new vector. *)
Definition range {A} (v : list A) (b e : N) : result (list A) :=
  if (b <=? e) && (e <=? size v)
  then Ok (take (N.to_nat (e - b)) (drop (N.to_nat b) v))
  else Undefined.

(** [v.reserve(n)] on a vector of 8-byte elements: it throws
    [std::length_error] when [n] is above [max_size()].  (That an
    allocation can fail is not part of the model, here as for [new].) *)
Definition reserve (n : N) : result unit :=
  if max_size <? n then Throw length_error else Ok tt.

(** An outcome that is not a [std::invalid_argument] raised by this file. *)
Definition not_raised {A} (r : result A) : Prop :=
  forall what, r <> Throw (invalid_argument what).
End Outcome.

#[global] Arguments exn E : clear implicits.
#[global] Arguments result E A : clear implicits.
#[global] Arguments not_raised {E A} r.

#[global] Instance result_bind {E} : MBind (result E) := fun _ _ k m => bind m k.
#[global] Instance result_ret {E} : MRet (result E) := fun _ a => Ok a.

(** ** Data *)

(** [ECLPropTableRawData]: the flat table as read from the INIT file,
    with the members this file reads; the four counts are of the vector's
    [size_type]. *)
Record ECLPropTableRawData : Type := {
  data : vector;
  primaryKey : vector;
  numPrimary : N;
  numRows : N;
  numCols : N;
  numTables : N
}.

(** [FlowDiagnostics::Graph] is a pair of columns. *)
Definition Graph : Type := list float * list float.

(** Modelled from the spec: the enumeration [ECLPVT::RawCurve], declared
    in [ECLPvtCommon.hpp].  This file names [SaturatedState]; the
    specification names the formation-volume-factor and viscosity
    curves. *)
Inductive RawCurve : Type := FVF | Viscosity | SaturatedState.

Definition RawCurve_eqb (a b : RawCurve) : bool :=
  match a, b with
  | FVF, FVF | Viscosity, Viscosity | SaturatedState, SaturatedState => true
  | _, _ => false
  end.

(** [ConvertUnits::Converter] is [std::function<double(double)>]. *)
Definition Converter : Type := float -> float.

Record ConvertUnits : Type := {
  indep : Converter;
  column : list Converter
}.

(** What [MakeInterpolants::fromRawData] hands to a factory: the iterators
    [xBegin], [xEnd] and [colIt] delimit one sub-table of [raw.data], here
    the table and the position of the sub-table in it. *)
Record SubTable : Type := {
  sub_raw : ECLPropTableRawData;
  sub_index : N
}.

(** ** Collaborators

    The unit-system registry ([ECLUnitHandling.hpp]), the unit converters
    ([ECLPvtCommon.hpp]: [CreateUnitConverter::ToSI]), the dead-oil leaf
    [ECLPVT::PVDx], the sub-table interpolant
    [Interp1D::PiecewisePolynomial::Linear] and the two-level evaluator
    [ECLPVT::PVTx] over a key and its sub-table interpolants. *)

Class Collaborators : Type := {
  collab_exn : Type;
  (** whether an exception object is a [std::invalid_argument] *)
  is_invalid_argument : collab_exn -> bool;

  UnitSystem : Type;
  createUnitSystem : Z -> collab_exn + UnitSystem;
  ToSI_pressure : UnitSystem -> Converter;
  ToSI_disGas : UnitSystem -> Converter;
  ToSI_recipFvf : UnitSystem -> Converter;
  ToSI_recipFvfVisc : UnitSystem -> Converter;
  ToSI_recipFvfDerivPress : UnitSystem -> Converter;
  ToSI_recipFvfViscDerivPress : UnitSystem -> Converter;

  PVDx : Type;
  PVDx_ctor : SubTable -> ConvertUnits -> collab_exn + PVDx;
  PVDx_formationVolumeFactor : PVDx -> list float -> collab_exn + list float;
  PVDx_viscosity : PVDx -> list float -> collab_exn + list float;
  PVDx_getPvtCurve : PVDx -> RawCurve -> collab_exn + Graph;

  SubtableInterpolant : Type;
  (** [Linear(Extrap, xBegin, xEnd, colIt, indep, column)] *)
  Linear_ctor : SubTable -> Converter -> list Converter ->
                collab_exn + SubtableInterpolant;
  (** [Linear(Extrap)]: the interpolant without nodes *)
  Linear_invalid : SubtableInterpolant;

  PVTx_formationVolumeFactor :
    list float -> list SubtableInterpolant ->
    list float -> list float -> collab_exn + list float;
  PVTx_viscosity :
    list float -> list SubtableInterpolant ->
    list float -> list float -> collab_exn + list float;
  PVTx_getPvtCurve :
    list float -> list SubtableInterpolant -> RawCurve ->
    collab_exn + list Graph
}.

Section Model.
Context {C : Collaborators}.

Abbreviation res := (result collab_exn).

(** *** Unit converters (anonymous namespace, lines 42-82) *)

(** [ Po, 1/B, 1/(B*mu), d(1/B)/dPo, d(1/(B*mu))/dPo ] *)
Definition deadOilUnitConverter_usys (usys : UnitSystem) : ConvertUnits :=
  {| indep := ToSI_pressure usys;
     column := [ ToSI_recipFvf usys;
                 ToSI_recipFvfVisc usys;
                 ToSI_recipFvfDerivPress usys;
                 ToSI_recipFvfViscDerivPress usys ] |}.

Definition deadOilUnitConverter (usys : Z) : res ConvertUnits :=
  u ← call (createUnitSystem usys);
  Ok (deadOilUnitConverter_usys u).

(** Key = Rs, table = dead oil table format. *)
Definition liveOilUnitConverter (usys : Z) : res (Converter * ConvertUnits) :=
  u ← call (createUnitSystem usys);
  Ok (ToSI_disGas u, deadOilUnitConverter_usys u).

(** *** [MakeInterpolants<T>::fromRawData] *)

(** Modelled from the spec: the loop of [fromRawData] below, one call of
    the factory per sub-table, in order. *)
Fixpoint fromRawData_loop {T} (raw : ECLPropTableRawData)
    (construct : SubTable -> res T)
    (i : N) (n : nat) (interp : list T) : res (list T) :=
  match n with
  | O => Ok interp
  | S n' =>
      x ← construct {| sub_raw := raw; sub_index := i |};
      fromRawData_loop raw construct (i + 1) n' (interp ++ [x])
  end.

(** Modelled from the spec: [MakeInterpolants<T>::fromRawData] of
    [opm/utility/ECLPropTable.hpp], which is not part of this file.  It
    calls the factory once per sub-table, [numPrimary * numTables] times
    in table order, and collects what the factory returns.  How it
    releases what it has collected when a later call of the factory
    throws is decided in that header and is not part of the model. *)
Definition fromRawData {T} (raw : ECLPropTableRawData)
    (construct : SubTable -> res T) : res (list T) :=
  fromRawData_loop raw construct 0
    (N.to_nat (wmul (numPrimary raw) (numTables raw))) [].

(** *** The evaluators behind [PVxOBase] *)

(** [ECLPVT::PVTx<SubtableInterpolant>]: the key and one interpolant per
    key node, as handed to its constructor. *)
Record PVTx : Type := {
  key_ : list float;
  propInterp_ : list SubtableInterpolant
}.

Record DeadOil : Type := { interpolant_ : PVDx }.
Record LiveOil : Type := { interp_ : PVTx }.

(** The pure virtual interface: runtime selection of dead or live oil
    functions. *)
Class PVxOBase (T : Type) : Type := {
  formationVolumeFactor : T -> list float -> list float -> res (list float);
  viscosity : T -> list float -> list float -> res (list float);
  getPvtCurve : T -> RawCurve -> res (list Graph);
  clone : T -> T
}.

Definition DeadOil_new (sub : SubTable) (convert : ConvertUnits) : res DeadOil :=
  i ← call (PVDx_ctor sub convert);
  Ok {| interpolant_ := i |}.

(** [clone] makes a new [DeadOil] with the implicit copy constructor,
    which copies the leaf. *)
#[global] Instance DeadOil_PVxOBase : PVxOBase DeadOil := {
  formationVolumeFactor this _ po :=
    call (PVDx_formationVolumeFactor (interpolant_ this) po);
  viscosity this _ po :=
    call (PVDx_viscosity (interpolant_ this) po);
  getPvtCurve this curve :=
    g ← call (PVDx_getPvtCurve (interpolant_ this) curve);
    Ok [g];
  clone this := {| interpolant_ := interpolant_ this |}
}.

Definition LiveOil_new (key : list float)
    (propInterp : list SubtableInterpolant) : LiveOil :=
  {| interp_ := {| key_ := key; propInterp_ := propInterp |} |}.

(** Saturated state curve for live oil.  Columns are (Rs, Po).  Swap first
    and second columns to normalised form: (Po, Rs). *)
Definition repackagePvtCurve (graphs : list Graph) (curve : RawCurve)
    : list Graph :=
  if negb (RawCurve_eqb curve SaturatedState)
  then graphs
  else map (fun graph : Graph => (snd graph, fst graph)) graphs.

(** [getPvtCurve] returns what the interpolant returns; no member function
    calls [repackagePvtCurve]. *)
#[global] Instance LiveOil_PVxOBase : PVxOBase LiveOil := {
  formationVolumeFactor this rs po :=
    let key := rs in
    let x := po in
    call (PVTx_formationVolumeFactor
            (key_ (interp_ this)) (propInterp_ (interp_ this)) key x);
  viscosity this rs po :=
    let key := rs in
    let x := po in
    call (PVTx_viscosity
            (key_ (interp_ this)) (propInterp_ (interp_ this)) key x);
  getPvtCurve this curve :=
    call (PVTx_getPvtCurve
            (key_ (interp_ this)) (propInterp_ (interp_ this)) curve);
  clone this := {| interp_ := interp_ this |}
}.

(** An object behind a [std::unique_ptr<PVxOBase>]: its dynamic type is
    one of the two final classes. *)
Inductive PVxO : Type :=
| dead (d : DeadOil)
| live (l : LiveOil).

#[global] Instance PVxO_PVxOBase : PVxOBase PVxO := {
  formationVolumeFactor p rs po :=
    match p with
    | dead d => formationVolumeFactor d rs po
    | live l => formationVolumeFactor l rs po
    end;
  viscosity p rs po :=
    match p with
    | dead d => viscosity d rs po
    | live l => viscosity l rs po
    end;
  getPvtCurve p curve :=
    match p with
    | dead d => getPvtCurve d curve
    | live l => getPvtCurve l curve
    end;
  clone p :=
    match p with
    | dead d => dead (clone d)
    | live l => live (clone l)
    end
}.


Definition is_live (p : PVxO) : bool :=
  match p with dead _ => false | live _ => true end.

(** *** Builders (anonymous namespace, lines 227-365) *)

Definition createDeadOil (raw : ECLPropTableRawData) (usys : Z)
    : res (list PVxO) :=
  if negb (numPrimary raw =? 1)
  then Abort "Can't Create Dead Oil Function From Live Oil Table"
  else
    cvrt ← deadOilUnitConverter usys;
    fromRawData raw (fun sub => d ← DeadOil_new sub cvrt; Ok (dead d)).

(** The body of the [for] loop of [extractPrimaryKey]: [begin] walks over
    [n] consecutive positions of [raw.primaryKey]. *)
Fixpoint extractPrimaryKey_loop (primaryKey : list float)
    (cvrtKey : Converter) (begin : N) (n : nat) (key : list float)
    : res (list float) :=
  match n with
  | O => Ok key
  | S n' =>
      x ← at_ primaryKey begin;
      extractPrimaryKey_loop primaryKey cvrtKey (begin + 1) n'
        (if PrimFloat.ltb (PrimFloat.abs x) 1.0e20%float
         then key ++ [cvrtKey x]
         else key)
  end.

Definition extractPrimaryKey (raw : ECLPropTableRawData) (t : N)
    (cvrtKey : Converter) : res (list float) :=
  _ ← reserve (numPrimary raw);           (* key.reserve(raw.numPrimary) *)
  extractPrimaryKey_loop (primaryKey raw) cvrtKey
    (wmul (wadd t 0) (numPrimary raw)) (N.to_nat (numPrimary raw)) [].

(** The factory of [createLiveOil]: a [std::invalid_argument] of the
    interpolant's constructor is caught, anything else passes. *)
Definition createLiveOil_factory (cvrt : Converter * ConvertUnits)
    (sub : SubTable) : res SubtableInterpolant :=
  match Linear_ctor sub (indep (snd cvrt)) (column (snd cvrt)) with
  | inr s => Ok s
  | inl e =>
      if is_invalid_argument e
      then Ok Linear_invalid          (* No valid nodes.  Return invalid. *)
      else Throw (propagated e)
  end.

(** The [for] loop over the tables in [createLiveOil]. *)
Fixpoint createLiveOil_loop (raw : ECLPropTableRawData)
    (cvrtKey : Converter) (sti : list SubtableInterpolant)
    (t : N) (n : nat) (ret : list PVxO) : res (list PVxO) :=
  match n with
  | O => Ok ret
  | S n' =>
      key ← extractPrimaryKey raw t cvrtKey;
      let begin := wmul (wadd t 0) (numPrimary raw) in
      let end_ := wadd begin (size key) in
      propInterp ← range sti begin end_;
      createLiveOil_loop raw cvrtKey sti (t + 1) n'
        (ret ++ [live (LiveOil_new key propInterp)])
  end.

Definition createLiveOil (raw : ECLPropTableRawData) (usys : Z)
    : res (list PVxO) :=
  _ ← reserve (numTables raw);            (* ret.reserve(raw.numTables) *)
  cvrt ← liveOilUnitConverter usys;
  sti ← fromRawData raw (createLiveOil_factory cvrt);
  createLiveOil_loop raw (fst cvrt) sti
    (wmul 0 (numTables raw)) (N.to_nat (numTables raw)) [].

Definition createPVTFunction (raw : ECLPropTableRawData) (usys : Z)
    : res (list PVxO) :=
  if numPrimary raw =? 0 then
    (* Malformed Gas PVT table. *)
    Throw (invalid_argument "Oil PVT Table Without Primary Lookup Key")
  else if negb (numCols raw =? 5) then
    Throw (invalid_argument "PVT Table for Oil Must Have Five Columns")
  else if negb (size (primaryKey raw)
                =? wmul (numPrimary raw) (numTables raw)) then
    Throw (invalid_argument "Size Mismatch in RS Nodes of PVT Table for Oil")
  else if negb (size (data raw)
                =? wmul (wmul (wmul (numPrimary raw) (numRows raw))
                              (numCols raw)) (numTables raw)) then
    Throw (invalid_argument
             "Size Mismatch in Condensed Table Data of PVT Table for Oil")
  else if numPrimary raw =? 1 then createDeadOil raw usys
  else createLiveOil raw usys.

(** *** The free store

    [Oil] holds a [std::unique_ptr<Impl>], and [Impl] a vector of
    [std::unique_ptr<PVxOBase>].  Objects live at addresses; a pointer is an
    address, and [None] is the null pointer.  The builders above return
    the evaluators they own by value; they get their addresses when the
    vector is stored in an [Impl]. *)

Record Impl : Type := {
  eval_ : list positive;
  rhoS_ : list float
}.

Record Oil : Type := { pImpl_ : option positive }.

Record Store : Type := {
  models : gmap positive PVxO;
  impls : gmap positive Impl;
  objects : gmap positive Oil
}.

Definition empty_store : Store :=
  {| models := ∅; impls := ∅; objects := ∅ |}.

(** [*p] for a pointer into one of the three maps: undefined when null or
    dangling. *)
Definition deref {A} (m : gmap positive A) (p : positive) : res A :=
  match m !! p with
  | Some a => Ok a
  | None => Undefined
  end.

Definition deref_ptr {A} (m : gmap positive A) (p : option positive) : res A :=
  match p with
  | Some a => deref m a
  | None => Undefined
  end.

(** [new T(v)]: the object is placed at an address not in use. *)
Definition new {A} (m : gmap positive A) (v : A) : positive * gmap positive A :=
  let p := fresh (dom m) in (p, <[p := v]> m).

(** Storing the vector a builder returned. *)
Fixpoint place_models (built : list PVxO) (ms : gmap positive PVxO)
    (ps : list positive) : list positive * gmap positive PVxO :=
  match built with
  | [] => (ps, ms)
  | m :: built' =>
      let '(p, ms') := new ms m in
      place_models built' ms' (ps ++ [p])
  end.

(** [clone] of a vector of owning pointers (lines 353-364): every element
    is duplicated through its virtual [clone].  [dest.reserve(src.size())]
    asks for the size of a vector of the same type, which is never above
    [max_size()]. *)
Fixpoint clone_loop (src : list positive) (ms : gmap positive PVxO)
    (dest : list positive) : res (list positive * gmap positive PVxO) :=
  match src with
  | [] => Ok (dest, ms)
  | p :: src' =>
      m ← deref ms p;
      let '(q, ms') := new ms (clone m) in
      clone_loop src' ms' (dest ++ [q])
  end.

Definition clone_vector (src : list positive) (ms : gmap positive PVxO)
    : res (list positive * gmap positive PVxO) :=
  clone_loop src ms [].

(** [delete p] in [std::default_delete<PVxOBase>], for the pointer [p] of
    a [std::unique_ptr<PVxOBase>].  The static type of the operand is
    [PVxOBase], whose destructor is not virtual (lines 87-102 declare
    none), and the object is a [DeadOil] or a [LiveOil], never a
    [PVxOBase]: the behaviour is undefined. *)
Definition delete_model (m : PVxO) : res unit :=
  match m with
  | dead _ => Undefined
  | live _ => Undefined
  end.

(** Destroying a vector of owning pointers deletes every element. *)
Fixpoint delete_models (ps : list positive) (ms : gmap positive PVxO)
    : res (gmap positive PVxO) :=
  match ps with
  | [] => Ok ms
  | p :: ps' =>
      m ← deref ms p;
      _ ← delete_model m;
      delete_models ps' (delete p ms)
  end.

(** *** Class [ECLPVT::Oil::Impl] *)

(** [Impl(raw, usys, rhoS)]: [eval_(createPVTFunction(raw, usys))],
    [rhoS_(std::move(rhoS))]. *)
Definition Impl_new (raw : ECLPropTableRawData) (usys : Z)
    (rhoS : list float) (ms : gmap positive PVxO)
    : res (Impl * gmap positive PVxO) :=
  built ← createPVTFunction raw usys;
  let '(ps, ms') := place_models built ms [] in
  Ok ({| eval_ := ps; rhoS_ := rhoS |}, ms').

(** [Impl(const Impl& rhs)]: [eval_(clone(rhs.eval_))], [rhoS_(rhs.rhoS_)]. *)
Definition Impl_copy (rhs : Impl) (ms : gmap positive PVxO)
    : res (Impl * gmap positive PVxO) :=
  '(ps, ms') ← clone_vector (eval_ rhs) ms;
  Ok ({| eval_ := ps; rhoS_ := rhoS_ rhs |}, ms').

Definition validateRegIdx (this : Impl) (region : N) : res unit :=
  if size (eval_ this) <=? region then
    Throw (invalid_argument
             ("Region Index " ++ to_string region ++
              " Outside Valid Range (0 .. " ++
              to_string (wsub (size (eval_ this)) 1) ++ ")"))
  else Ok tt.

Definition Impl_formationVolumeFactor (ms : gmap positive PVxO)
    (this : Impl) (region : N) (rs po : list float) : res (list float) :=
  _ ← validateRegIdx this region;
  p ← at_ (eval_ this) region;
  m ← deref ms p;
  formationVolumeFactor m rs po.

Definition Impl_viscosity (ms : gmap positive PVxO)
    (this : Impl) (region : N) (rs po : list float) : res (list float) :=
  _ ← validateRegIdx this region;
  p ← at_ (eval_ this) region;
  m ← deref ms p;
  viscosity m rs po.

Definition Impl_surfaceMassDensity (this : Impl) (region : N) : res float :=
  _ ← validateRegIdx this region;
  at_ (rhoS_ this) region.

Definition Impl_getPvtCurve (ms : gmap positive PVxO)
    (this : Impl) (region : N) (curve : RawCurve) : res (list Graph) :=
  _ ← validateRegIdx this region;
  p ← at_ (eval_ this) region;
  m ← deref ms p;
  getPvtCurve m curve.

(** [delete p] for an [Impl]: its vector and what the vector owns go
    with it. *)
Definition delete_Impl (p : positive) (st : Store) : res Store :=
  i ← deref (impls st) p;
  ms ← delete_models (eval_ i) (models st);
  Ok {| models := ms; impls := delete p (impls st); objects := objects st |}.

(** [std::unique_ptr::reset] on the old value of a pointer. *)
Definition delete_ptr (old : option positive) (st : Store) : res Store :=
  match old with
  | Some p => delete_Impl p st
  | None => Ok st
  end.

(** *** Class [ECLPVT::Oil] *)

Definition with_models (ms : gmap positive PVxO) (st : Store) : Store :=
  {| models := ms; impls := impls st; objects := objects st |}.

Definition with_impls (im : gmap positive Impl) (st : Store) : Store :=
  {| models := models st; impls := im; objects := objects st |}.

Definition with_objects (os : gmap positive Oil) (st : Store) : Store :=
  {| models := models st; impls := impls st; objects := os |}.

(** Assignment to the member [pImpl_] of the object at [this]. *)
Definition set_pImpl (this : positive) (p : option positive) (st : Store)
    : Store :=
  with_objects (<[this := {| pImpl_ := p |}]> (objects st)) st.

(** [Oil(raw, usys, rhoS)]: [pImpl_(new Impl(raw, usys, std::move(rhoS)))].
    The address of the new object is returned with the store. *)
Definition Oil_new (raw : ECLPropTableRawData) (usys : Z)
    (rhoS : list float) (st : Store) : res (positive * Store) :=
  '(i, ms) ← Impl_new raw usys rhoS (models st);
  let '(p, im) := new (impls st) i in
  let '(this, os) := new (objects st) {| pImpl_ := Some p |} in
  Ok (this, {| models := ms; impls := im; objects := os |}).

(** [Oil(const Oil& rhs)]: [pImpl_] owns a new [Impl], copy-constructed
    from the one [rhs.pImpl_] points to. *)
Definition Oil_copy (rhs : positive) (st : Store) : res (positive * Store) :=
  r ← deref (objects st) rhs;
  i ← deref_ptr (impls st) (pImpl_ r);
  '(i', ms) ← Impl_copy i (models st);
  let '(p, im) := new (impls st) i' in
  let '(this, os) := new (objects st) {| pImpl_ := Some p |} in
  Ok (this, {| models := ms; impls := im; objects := os |}).

(** [Oil(Oil&& rhs)]: [pImpl_(std::move(rhs.pImpl_))]. *)
Definition Oil_move (rhs : positive) (st : Store) : res (positive * Store) :=
  r ← deref (objects st) rhs;
  let st1 := set_pImpl rhs None st in
  let '(this, os) := new (objects st1) {| pImpl_ := pImpl_ r |} in
  Ok (this, with_objects os st1).

(** [operator=(const Oil& rhs)]: [this->pImpl_.reset(...)] with a new
    [Impl], copy-constructed from the one [rhs.pImpl_] points to. *)
Definition Oil_copy_assign (this rhs : positive) (st : Store) : res Store :=
  r ← deref (objects st) rhs;
  i ← deref_ptr (impls st) (pImpl_ r);
  '(i', ms) ← Impl_copy i (models st);
  let '(p, im) := new (impls st) i' in
  t ← deref (objects st) this;
  delete_ptr (pImpl_ t)
    (set_pImpl this (Some p)
       {| models := ms; impls := im; objects := objects st |}).

(** [operator=(Oil&& rhs)]: [this->pImpl_ = std::move(rhs.pImpl_)], that
    is [reset(rhs.pImpl_.release())]. *)
Definition Oil_move_assign (this rhs : positive) (st : Store) : res Store :=
  r ← deref (objects st) rhs;
  let st1 := set_pImpl rhs None st in
  t ← deref (objects st1) this;
  delete_ptr (pImpl_ t) (set_pImpl this (pImpl_ r) st1).

(** [~Oil()]: the member [pImpl_] deletes what it owns. *)
Definition Oil_delete (this : positive) (st : Store) : res Store :=
  t ← deref (objects st) this;
  st' ← delete_ptr (pImpl_ t) st;
  Ok (with_objects (delete this (objects st')) st').

Definition Oil_formationVolumeFactor (st : Store) (this : positive)
    (region : Z) (rs po : list float) : res (list float) :=
  o ← deref (objects st) this;
  i ← deref_ptr (impls st) (pImpl_ o);
  Impl_formationVolumeFactor (models st) i (size_t_of_int region) rs po.

Definition Oil_viscosity (st : Store) (this : positive)
    (region : Z) (rs po : list float) : res (list float) :=
  o ← deref (objects st) this;
  i ← deref_ptr (impls st) (pImpl_ o);
  Impl_viscosity (models st) i (size_t_of_int region) rs po.

Definition Oil_surfaceMassDensity (st : Store) (this : positive)
    (region : Z) : res float :=
  o ← deref (objects st) this;
  i ← deref_ptr (impls st) (pImpl_ o);
  Impl_surfaceMassDensity i (size_t_of_int region).

Definition Oil_getPvtCurve (st : Store) (this : positive)
    (curve : RawCurve) (region : Z) : res (list Graph) :=
  o ← deref (objects st) this;
  i ← deref_ptr (impls st) (pImpl_ o);
  Impl_getPvtCurve (models st) i (size_t_of_int region) curve.

(** *** Client programs

    The copy and move operations of [Oil] and the four queries, as data,
    to speak about what a client does with its objects. *)

Inductive operation : Type :=
| CopyConstruct (rhs : positive)
| MoveConstruct (rhs : positive)
| CopyAssign (this rhs : positive)
| MoveAssign (this rhs : positive)
| Destroy (this : positive).

Definition run (op : operation) (st : Store) : res Store :=
  match op with
  | CopyConstruct rhs => '(_, st') ← Oil_copy rhs st; Ok st'
  | MoveConstruct rhs => '(_, st') ← Oil_move rhs st; Ok st'
  | CopyAssign this rhs => Oil_copy_assign this rhs st
  | MoveAssign this rhs => Oil_move_assign this rhs st
  | Destroy this => Oil_delete this st
  end.

Fixpoint run_all (ops : list operation) (st : Store) : res Store :=
  match ops with
  | [] => Ok st
  | op :: ops' => st' ← run op st; run_all ops' st'
  end.

(** The objects an operation may change: the target of an assignment,
    the source of a move, the object destroyed.  The source of a copy is
    a [const Oil&] and is only read. *)
Definition written (op : operation) : list positive :=
  match op with
  | CopyConstruct rhs => []
  | MoveConstruct rhs => [rhs]
  | CopyAssign this rhs => [this]
  | MoveAssign this rhs => [this; rhs]
  | Destroy this => [this]
  end.

Inductive query : Type :=
| AskFormationVolumeFactor (region : Z) (rs po : list float)
| AskViscosity (region : Z) (rs po : list float)
| AskSurfaceMassDensity (region : Z)
| AskPvtCurve (curve : RawCurve) (region : Z).

Inductive answer : Type :=
| Values (v : list float)
| Value (x : float)
| Graphs (g : list Graph).

Definition ask (st : Store) (this : positive) (q : query) : res answer :=
  match q with
  | AskFormationVolumeFactor region rs po =>
      v ← Oil_formationVolumeFactor st this region rs po; Ok (Values v)
  | AskViscosity region rs po =>
      v ← Oil_viscosity st this region rs po; Ok (Values v)
  | AskSurfaceMassDensity region =>
      x ← Oil_surfaceMassDensity st this region; Ok (Value x)
  | AskPvtCurve curve region =>
      g ← Oil_getPvtCurve st this curve region; Ok (Graphs g)
  end.
End Model.

(** ** A test double for the collaborators

    A small executable instance of [Collaborators], to run the model on
    concrete tables: METRIC (1) and FIELD (2) unit systems, leaves that
    keep the nodes below the sentinel bound and interpolate linearly, and
    a two-level evaluator that selects the sub-table of the nearest key
    node below the gas ratio. *)

Module Fixture.

Inductive test_exn : Type :=
| test_invalid_argument (what : string)
| test_runtime_error (what : string).

Definition node : Type := float * list float.

Definition scale (k : float) : Converter := fun x => PrimFloat.mul k x.

(** The nodes of one sub-table: column [c] of sub-table [i] starts at
    [c * numRows * numInterp + i * numRows]. *)
Definition nodes_of (sub : SubTable) (indep : Converter)
    (column : list Converter) : list node :=
  let raw := sub_raw sub in
  let stride := numRows raw * (numPrimary raw * numTables raw) in
  let entry (c r : N) :=
    nth (N.to_nat (c * stride + sub_index sub * numRows raw + r))
        (data raw) 0%float in
  omap (fun r : nat =>
          let x := entry 0 (N.of_nat r) in
          if PrimFloat.ltb (PrimFloat.abs x) 1.0e20%float
          then Some (indep x,
                     imap (fun c f => f (entry (N.of_nat (S c)) (N.of_nat r)))
                          column)
          else None)
       (seq 0 (N.to_nat (numRows raw))).

Definition build (sub : SubTable) (indep : Converter)
    (column : list Converter) : test_exn + list node :=
  match nodes_of sub indep column with
  | [] => inl (test_invalid_argument "No Valid Table Nodes")
  | ns => inr ns
  end.

Definition col (y : list float) (c : nat) : float := nth c y nan.

Fixpoint interpolate (ns : list node) (c : nat) (p : float) : float :=
  match ns with
  | [] => nan
  | (x0, y0) :: rest =>
      match rest with
      | [] => col y0 c
      | (x1, y1) :: tl =>
          if PrimFloat.leb p x1 || match tl with [] => true | _ => false end
          then (col y0 c + (col y1 c - col y0 c) * (p - x0) / (x1 - x0))%float
          else interpolate rest c p
      end
  end.

Definition fvf (ns : list node) (p : float) : float :=
  (1 / interpolate ns 0 p)%float.

Definition visc (ns : list node) (p : float) : float :=
  (interpolate ns 0 p / interpolate ns 1 p)%float.

(** The sub-table of the last key node that is not above [r]. *)
Fixpoint select (key : list float) (leaves : list (list node)) (r : float)
    (best : list node) : list node :=
  match key, leaves with
  | k :: key', l :: leaves' =>
      if PrimFloat.leb k r then select key' leaves' r l else best
  | _, _ => best
  end.

Definition evaluate (f : list node -> float -> float)
    (key : list float) (leaves : list (list node))
    (rs po : list float) : test_exn + list float :=
  if negb (length rs =? length po)%nat then
    inl (test_invalid_argument "Size Mismatch Between Key and Variate")
  else
    match leaves with
    | [] => inl (test_runtime_error "No Sub-Tables")
    | l :: _ =>
        inr (zip_with (fun r p => f (select key leaves r l) p) rs po)
    end.

Definition curve_of (ns : list node) (curve : RawCurve) : Graph :=
  match curve with
  | FVF => (map fst ns, map (fun n => fvf ns (fst n)) ns)
  | Viscosity => (map fst ns, map (fun n => visc ns (fst n)) ns)
  | SaturatedState => ([], [])
  end.

(** Saturated state of a live oil: columns (Rs, Po), the first pressure
    node of each sub-table against its key node. *)
Definition curves_of (key : list float) (leaves : list (list node))
    (curve : RawCurve) : list Graph :=
  match curve with
  | SaturatedState =>
      [ (key, map (fun ns => match ns with n :: _ => fst n | [] => nan end)
                  leaves) ]
  | _ => map (fun ns => curve_of ns curve) leaves
  end.

#[export] Instance test_double : Collaborators := {
  collab_exn := test_exn;
  is_invalid_argument e :=
    match e with test_invalid_argument _ => true | _ => false end;
  UnitSystem := bool;
  createUnitSystem usys :=
    if (usys =? 1)%Z then inr false
    else if (usys =? 2)%Z then inr true
    else inl (test_runtime_error "Unsupported Unit Convention");
  ToSI_pressure field := scale (if field then 6894.757 else 1.0e5)%float;
  ToSI_disGas field := scale (if field then 178.1076 else 1)%float;
  ToSI_recipFvf _ := scale 1%float;
  ToSI_recipFvfVisc _ := scale 1000%float;
  ToSI_recipFvfDerivPress field :=
    scale (if field then 1 / 6894.757 else 1.0e-5)%float;
  ToSI_recipFvfViscDerivPress field :=
    scale (if field then 1000 / 6894.757 else 1.0e-2)%float;
  PVDx := list node;
  PVDx_ctor sub convert := build sub (indep convert) (column convert);
  PVDx_formationVolumeFactor ns po := inr (map (fvf ns) po);
  PVDx_viscosity ns po := inr (map (visc ns) po);
  PVDx_getPvtCurve ns curve := inr (curve_of ns curve);
  SubtableInterpolant := list node;
  Linear_ctor := build;
  Linear_invalid := [];
  PVTx_formationVolumeFactor := evaluate fvf;
  PVTx_viscosity := evaluate visc;
  PVTx_getPvtCurve key leaves curve := inr (curves_of key leaves curve)
}.

Definition metric : @UnitSystem test_double := false.
Definition field : @UnitSystem test_double := true.

(** Scenario A: one dead-oil region with two pressure nodes. *)
Definition scenarioA : ECLPropTableRawData :=
  {| data :=
       vector_of ([ 1.0e2; 3.0e2;  1.0; 0.9;  1.0; 1.1;
                    0; -5e-4;  0; 5e-4 ]%float) eq_refl;
     primaryKey := vector_of [ 0%float ] eq_refl;
     numPrimary := 1; numRows := 2; numCols := 5; numTables := 1 |}.

(** Scenario D: one live-oil table, key capacity three, the last key slot
    unused, two pressure nodes per sub-table. *)
Definition scenarioD : ECLPropTableRawData :=
  {| data :=
       vector_of ([ 1.0e2; 3.0e2;  2.0e2; 4.0e2;  2.0e20; 2.0e20;
         1.0; 0.9;  0.95; 0.85;  2.0e20; 2.0e20;
         1.0; 1.1;  1.2; 1.3;  2.0e20; 2.0e20;
         0; -5e-4;  0; -5e-4;  2.0e20; 2.0e20;
         0; 5e-4;  0; 5e-4;  2.0e20; 2.0e20 ]%float) eq_refl;
     primaryKey := vector_of ([ 0.0; 50.0; 1.0e21 ]%float) eq_refl;
     numPrimary := 3; numRows := 2; numCols := 5; numTables := 1 |}.

(** Scenario C: two dead-oil regions. *)
Definition scenarioC : ECLPropTableRawData :=
  {| data := vector_of ([ 1.0e2; 3.0e2;  1.5e2; 2.5e2;
               1.0; 0.9;  1.0; 0.95;
               1.0; 1.1;  1.0; 1.05;
               0; -5e-4;  0; -5e-4;
               0; 5e-4;  0; 5e-4 ]%float) eq_refl;
     primaryKey := vector_of ([ 0; 0 ]%float) eq_refl;
     numPrimary := 1; numRows := 2; numCols := 5; numTables := 2 |}.

(** A live-oil table whose unused key slot is the middle one. *)
Definition scenarioGap : ECLPropTableRawData :=
  {| data :=
       vector_of ([ 1.0e2; 3.0e2;  2.0e20; 2.0e20;  2.0e2; 4.0e2;
         1.0; 0.9;  2.0e20; 2.0e20;  0.95; 0.85;
         1.0; 1.1;  2.0e20; 2.0e20;  1.2; 1.3;
         0; -5e-4;  2.0e20; 2.0e20;  0; -5e-4;
         0; 5e-4;  2.0e20; 2.0e20;  0; 5e-4 ]%float) eq_refl;
     primaryKey := vector_of ([ 0.0; 1.0e21; 50.0 ]%float) eq_refl;
     numPrimary := 3; numRows := 2; numCols := 5; numTables := 1 |}.

End Fixture.

(** ** The table invariants, as the specification words them *)

Inductive invariant : Type :=
| HasPrimaryKey        (* numPrimary is not 0 *)
| FiveColumns          (* numCols is 5 *)
| KeySize              (* primaryKey.size() is numPrimary * numTables *)
| DataSize.            (* data.size() is numPrimary * numRows * numCols * numTables *)

Definition violated (raw : ECLPropTableRawData) (i : invariant) : Prop :=
  match i with
  | HasPrimaryKey => numPrimary raw = 0
  | FiveColumns => numCols raw ≠ 5
  | KeySize => size (primaryKey raw) ≠ wmul (numPrimary raw) (numTables raw)
  | DataSize =>
      size (data raw) ≠
      wmul (wmul (wmul (numPrimary raw) (numRows raw)) (numCols raw))
           (numTables raw)
  end.

(** The text that names an invariant in an error. *)
Definition names (i : invariant) : string :=
  match i with
  | HasPrimaryKey => "Oil PVT Table Without Primary Lookup Key"
  | FiveColumns => "PVT Table for Oil Must Have Five Columns"
  | KeySize => "Size Mismatch in RS Nodes of PVT Table for Oil"
  | DataSize => "Size Mismatch in Condensed Table Data of PVT Table for Oil"
  end.

(** The invariant the checks meet first, in the order of the list. *)
Definition first_violated (raw : ECLPropTableRawData) : option invariant :=
  if numPrimary raw =? 0 then Some HasPrimaryKey
  else if negb (numCols raw =? 5) then Some FiveColumns
  else if negb (size (primaryKey raw)
                =? wmul (numPrimary raw) (numTables raw)) then Some KeySize
  else if negb (size (data raw)
                =? wmul (wmul (wmul (numPrimary raw) (numRows raw))
                              (numCols raw)) (numTables raw)) then Some DataSize
  else None.

(** A table that passes structural validation. *)
Definition structurally_valid (raw : ECLPropTableRawData) : bool :=
  negb (numPrimary raw =? 0)
  && (numCols raw =? 5)
  && (size (primaryKey raw) =? wmul (numPrimary raw) (numTables raw))
  && (size (data raw)
      =? wmul (wmul (wmul (numPrimary raw) (numRows raw)) (numCols raw))
              (numTables raw)).

(** The sizes of a table are those of the mathematical products: nothing
    wrapped around. *)
Definition sizes_exact (raw : ECLPropTableRawData) : bool :=
  (numPrimary raw * numTables raw <? size_t_range)
  && (size (primaryKey raw) =? numPrimary raw * numTables raw).

(** ** Key slots

    An entry of the primary key is kept when its absolute value is
    strictly below 1.0e20, and is a sentinel when its absolute value is
    1.0e20 or more. *)

Definition kept (x : float) : bool :=
  PrimFloat.ltb (PrimFloat.abs x) 1.0e20%float.

Definition sentinel (x : float) : bool :=
  PrimFloat.leb 1.0e20%float (PrimFloat.abs x).

#[global] Arguments kept x : simpl never.
#[global] Arguments sentinel x : simpl never.

(** The slice of [primaryKey] that belongs to table [t]. *)
Definition table_key (raw : ECLPropTableRawData) (t : N) : list float :=
  take (N.to_nat (numPrimary raw))
       (drop (N.to_nat (t * numPrimary raw)) (primaryKey raw)).

(** The slots of a slice whose entries are kept, in order, counted
    from [s]. *)
Fixpoint kept_slots_from (slice : list float) (s : nat) : list nat :=
  match slice with
  | [] => []
  | x :: rest =>
      if kept x then s :: kept_slots_from rest (S s)
      else kept_slots_from rest (S s)
  end.

Definition kept_slots (slice : list float) : list nat :=
  kept_slots_from slice 0.

(** All entries that are not kept come after all entries that are. *)
Fixpoint sentinels_trailing (slice : list float) : bool :=
  match slice with
  | [] => true
  | x :: rest =>
      if kept x then sentinels_trailing rest
      else forallb (fun y => negb (kept y)) rest
  end.

Section LiveTables.
Context {C : Collaborators}.

(** The interpolant [createLiveOil] keeps for sub-table [i]: the one the
    constructor built, or the placeholder. *)
Definition leaf_or_placeholder (cvrt : Converter * ConvertUnits)
    (raw : ECLPropTableRawData) (i : N) : SubtableInterpolant :=
  match Linear_ctor {| sub_raw := raw; sub_index := i |}
          (indep (snd cvrt)) (column (snd cvrt)) with
  | inr s => s
  | inl _ => Linear_invalid
  end.

(** The live-oil model of table [t] over the interpolants [sti]: the key
    of the table, and as many interpolants as the key has nodes, taken
    from position [t * numPrimary] on. *)
Definition table_model (raw : ECLPropTableRawData) (cvrtKey : Converter)
    (sti : list SubtableInterpolant) (t : N) : PVxO :=
  let key := map cvrtKey (List.filter kept (table_key raw t)) in
  live (LiveOil_new key
          (take (length key) (drop (N.to_nat (t * numPrimary raw)) sti))).
End LiveTables.

(** ** Ownership

    What makes a store one that the operations of [Oil] can have built:
    every non-null [pImpl_] points to an [Impl], no two objects point to
    the same [Impl], every element of an [eval_] points to a model, and
    no model is pointed to twice. *)

Section Ownership.
Context {C : Collaborators}.

Record well_formed (st : Store) : Prop := {
  wf_impl : ∀ x o p,
    objects st !! x = Some o → pImpl_ o = Some p → is_Some (impls st !! p);
  wf_unique : ∀ x y ox oy p,
    objects st !! x = Some ox → objects st !! y = Some oy →
    pImpl_ ox = Some p → pImpl_ oy = Some p → x = y;
  wf_models : ∀ p i q,
    impls st !! p = Some i → q ∈ eval_ i → is_Some (models st !! q);
  wf_disjoint : ∀ p p' i i' q,
    impls st !! p = Some i → impls st !! p' = Some i' →
    q ∈ eval_ i → q ∈ eval_ i' → p = p';
  wf_nodup : ∀ p i, impls st !! p = Some i → NoDup (eval_ i)
}.

(** No object, other than [x], points to the [Impl] at [p]. *)
Definition unowned_but (st : Store) (x : positive) (p : positive) : Prop :=
  ∀ y o, objects st !! y = Some o → pImpl_ o = Some p → y = x.

(** No object points to the [Impl] at [p]. *)
Definition unowned (st : Store) (p : positive) : Prop :=
  ∀ y o, objects st !! y = Some o → pImpl_ o ≠ Some p.

(** What an [Impl] holds: the models behind its pointers and the
    densities. *)
Definition impl_view (st : Store) (p : positive)
    : option (list (option PVxO) * list float) :=
  i ← impls st !! p;
  Some (map (λ q, models st !! q) (eval_ i), rhoS_ i).

(** What the object at [x] holds, through its pointer. *)
Definition contents (st : Store) (x : positive)
    : option (list (option PVxO) * list float) :=
  o ← objects st !! x;
  p ← pImpl_ o;
  impl_view st p.

(** The objects at [a] and [b] are two objects, each with an [Impl] of
    its own, and no model of one is a model of the other. *)
Definition shares_nothing (st : Store) (a b : positive) : Prop :=
  a ≠ b
  ∧ ∃ pa pb ia ib,
      objects st !! a = Some {| pImpl_ := Some pa |}
      ∧ objects st !! b = Some {| pImpl_ := Some pb |}
      ∧ impls st !! pa = Some ia
      ∧ impls st !! pb = Some ib
      ∧ pa ≠ pb
      ∧ ∀ q, q ∈ eval_ ia → q ∉ eval_ ib.

(** [b] in [st'] is a copy of [a] in [st]: the two share nothing, both
    answer every query as [a] did, and whatever a client then does, each
    of them keeps these answers as long as no operation writes to it. *)
Definition independent_copy (st : Store) (a b : positive) (st' : Store)
    : Prop :=
  shares_nothing st' a b
  ∧ (∀ q, ask st' b q = ask st a q)
  ∧ (∀ q, ask st' a q = ask st a q)
  ∧ ∀ ops st'',
      run_all ops st' = Ok st'' →
      (Forall (λ op, a ∉ written op) ops → ∀ q, ask st'' a q = ask st a q)
      ∧ (Forall (λ op, b ∉ written op) ops → ∀ q, ask st'' b q = ask st a q).
End Ownership.

(** ** Range errors *)

(** The text of the error for index [region] into a catalog of [n]
    regions; [n - 1] is the subtraction of [size_t]. *)
Definition range_error (region n : N) : string :=
  "Region Index " ++ to_string region ++
  " Outside Valid Range (0 .. " ++ to_string (wsub n 1) ++ ")".

(** ** Reading the tables from an INIT file

    [CreateOilPVTInterpolant::fromECLOutput] (lines 571-622).  The file
    reader [ECLInitFileData], the density reader [surfaceMassDensity] of
    [ECLPvtCommon.hpp] and the item numbers of [ert/ecl/ecl_kw_magic.h]
    are not part of this file: they are the operations and constants of
    the class [InitFile]. *)

Class InitFile {C : Collaborators} : Type := {
  ECLInitFileData : Type;
  (** [init.keywordData<int>(kw)] and [init.keywordData<double>(kw)] *)
  keywordData_int : ECLInitFileData -> string -> collab_exn + list Z;
  keywordData_double : ECLInitFileData -> string -> collab_exn + vector;
  (** [surfaceMassDensity(init, ECLPhaseIndex::Liquid)] *)
  surfaceMassDensity_Liquid : ECLInitFileData -> collab_exn + list float;
  INTEHEAD_KW : string;
  INTEHEAD_UNIT_INDEX : N;
  INTEHEAD_PHASE_INDEX : N;
  TABDIMS_IBPVTO_OFFSET_ITEM : N;
  TABDIMS_JBPVTO_OFFSET_ITEM : N;
  TABDIMS_NRPVTO_ITEM : N;
  TABDIMS_NPPVTO_ITEM : N;
  TABDIMS_NTPVTO_ITEM : N
}.

Section InitFileModel.
Context {C : Collaborators} {F : InitFile}.

(** [v.assign(&tab[start], &tab[start] + n)] for an [int] offset [start]:
    [tab[start]] must be an element of [tab], and the [n] elements from
    there on must lie in [tab]. *)
Definition assign_from (tab : vector) (start : Z) (n : N)
    : result collab_exn vector :=
  if (0 <=? start)%Z && (Z.to_N start <? size tab)
     && (Z.to_N start + n <=? size tab)
  then Ok (slice tab (Z.to_nat start) (N.to_nat n))
  else Undefined.

(** The result is the address of the new [Oil], or [None] for the null
    pointer. *)
Definition fromECLOutput (init : ECLInitFileData) (st : Store)
    : result collab_exn (option positive * Store) :=
  ih ← call (keywordData_int init INTEHEAD_KW);
  phase ← at_ ih INTEHEAD_PHASE_INDEX;
  let iphs := (phase mod 2 ^ 32)%Z in
  if (Z.land iphs (Z.shiftl 1 0) =? 0)%Z then
    (* Oil is not an active phase (unexpected).
       Return sentinel (null) pointer. *)
    Ok (None, st)
  else
    tabdims ← call (keywordData_int init "TABDIMS");
    tab ← call (keywordData_double init "TAB");
    nrpvto ← at_ tabdims TABDIMS_NRPVTO_ITEM;     (* #Rs nodes/full table *)
    nppvto ← at_ tabdims TABDIMS_NPPVTO_ITEM;     (* #Po nodes/sub-table *)
    ntpvto ← at_ tabdims TABDIMS_NTPVTO_ITEM;     (* # PVTO tables *)
    let numPrimary := size_t_of_int nrpvto in
    let numRows := size_t_of_int nppvto in
    let numCols := 5 in
    let numTables := size_t_of_int ntpvto in
    (* Extract Primary Key (Rs) *)
    jbpvto ← at_ tabdims TABDIMS_JBPVTO_OFFSET_ITEM;
    primaryKey ← assign_from tab (jbpvto - 1) (wmul numPrimary numTables);
    (* Extract Full Table *)
    ibpvto ← at_ tabdims TABDIMS_IBPVTO_OFFSET_ITEM;
    data ← assign_from tab (ibpvto - 1)
             (wmul (wmul (wmul numPrimary numRows) numCols) numTables);
    rhoS ← call (surfaceMassDensity_Liquid init);
    usys ← at_ ih INTEHEAD_UNIT_INDEX;
    '(this, st') ← Oil_new
        {| data := data; primaryKey := primaryKey;
           numPrimary := numPrimary; numRows := numRows;
           numCols := numCols; numTables := numTables |} usys rhoS st;
    Ok (Some this, st').
End InitFileModel.

(** ** Stores a client can reach, and what they hold *)

Section Reachable.
Context {C : Collaborators}.

(** The stores a client obtains from the empty one with the constructor
    from a table and the copy, move and destroy operations, as long as
    each of them returns: a step that throws or whose behaviour is
    undefined leads to no store. *)
Inductive reachable : Store -> Prop :=
| reachable_empty : reachable empty_store
| reachable_new st raw usys rhoS this st' :
    reachable st -> Oil_new raw usys rhoS st = Ok (this, st') ->
    reachable st'
| reachable_run st op st' :
    reachable st -> run op st = Ok st' -> reachable st'.

(** Every [Impl] is held by an object, but for those in [P], and every
    model is held by an [Impl]. *)
Definition no_garbage_but (st : Store) (P : positive -> Prop) : Prop :=
  (∀ p, is_Some (impls st !! p) →
        P p ∨ ∃ x o, objects st !! x = Some o ∧ pImpl_ o = Some p)
  ∧ (∀ q, is_Some (models st !! q) →
          ∃ p i, impls st !! p = Some i ∧ q ∈ eval_ i).

(** Nothing in the store is lost: no [Impl] without an object, no model
    without an [Impl]. *)
Definition no_garbage (st : Store) : Prop := no_garbage_but st (λ _, False).

(** The region a query is about, as the accessor sees it. *)
Definition region_of (q : query) : N :=
  match q with
  | AskFormationVolumeFactor region _ _
  | AskViscosity region _ _
  | AskSurfaceMassDensity region
  | AskPvtCurve _ region => size_t_of_int region
  end.
End Reachable.

(** ** A test double for the INIT file *)

Module InitFixture.
Import Fixture.

Record test_init : Type := {
  intehead : list Z;
  tabdims_kw : list Z;
  tab_kw : vector;
  density : list float
}.

#[export] Instance test_file : @InitFile test_double := {
  ECLInitFileData := test_init;
  keywordData_int init kw :=
    if String.eqb kw "INTEHEAD" then inr (intehead init)
    else if String.eqb kw "TABDIMS" then inr (tabdims_kw init)
    else inl (test_invalid_argument "No Such Keyword");
  keywordData_double init kw :=
    if String.eqb kw "TAB" then inr (tab_kw init)
    else inl (test_invalid_argument "No Such Keyword");
  surfaceMassDensity_Liquid init := inr (density init);
  INTEHEAD_KW := "INTEHEAD";
  INTEHEAD_UNIT_INDEX := 2;
  INTEHEAD_PHASE_INDEX := 14;
  TABDIMS_IBPVTO_OFFSET_ITEM := 6;
  TABDIMS_JBPVTO_OFFSET_ITEM := 7;
  TABDIMS_NRPVTO_ITEM := 8;
  TABDIMS_NPPVTO_ITEM := 9;
  TABDIMS_NTPVTO_ITEM := 10
}.

(** An INIT file with the live-oil table of scenario D: the key at
    offset 1 and the table at offset 4 of TAB, METRIC units, oil and
    water active. *)
Definition initD : test_init :=
  {| intehead := [0; 0; 1; 0; 0; 0; 0; 0; 0; 0; 0; 0; 0; 0; 3]%Z;
     tabdims_kw := [0; 0; 0; 0; 0; 0; 4; 1; 3; 2; 1]%Z;
     tab_kw := vector_of (primaryKey scenarioD ++ data scenarioD) eq_refl;
     density := [850%float] |}.

(** The same file with gas and water active only. *)
Definition initNoOil : test_init :=
  {| intehead := [0; 0; 1; 0; 0; 0; 0; 0; 0; 0; 0; 0; 0; 0; 6]%Z;
     tabdims_kw := tabdims_kw initD;
     tab_kw := tab_kw initD;
     density := density initD |}.

(** The same file with no gas-ratio node in the table dimensions. *)
Definition initNoKey : test_init :=
  {| intehead := intehead initD;
     tabdims_kw := [0; 0; 0; 0; 0; 0; 4; 1; 0; 2; 1]%Z;
     tab_kw := tab_kw initD;
     density := density initD |}.

End InitFixture.

(** ** More tables for the test double *)

Module EdgeTables.

(** The live-oil table of scenario D with a key entry that is not a
    number in place of the sentinel. *)
Definition scenarioNaN : ECLPropTableRawData :=
  {| data := data Fixture.scenarioD;
     primaryKey := vector_of ([ 0.0; 50.0; nan ]%float) eq_refl;
     numPrimary := 3; numRows := 2; numCols := 5; numTables := 1 |}.


(** A live-oil table whose counts wrap around: two key nodes and 2^63
    tables make a product of 0 modulo 2^64, so that empty vectors pass
    the size checks. *)
Definition rawHuge : ECLPropTableRawData :=
  {| data := vector_of [] eq_refl;
     primaryKey := vector_of [] eq_refl;
     numPrimary := 2; numRows := 2; numCols := 5; numTables := 2 ^ 63 |}.


(** A dead-oil table without tables: it passes the checks and gives a
    catalog without regions. *)
Definition scenarioNoTable : ECLPropTableRawData :=
  {| data := vector_of [] eq_refl;
     primaryKey := vector_of [] eq_refl;
     numPrimary := 1; numRows := 2; numCols := 5; numTables := 0 |}.

(** The test double with an interpolant constructor that runs out of
    memory at sub-table 1: an exception that is no
    [std::invalid_argument]. *)
Definition exhausted : Collaborators :=
  let T := Fixture.test_double in
  {| collab_exn := @collab_exn T;
     is_invalid_argument := @is_invalid_argument T;
     UnitSystem := @UnitSystem T;
     createUnitSystem := @createUnitSystem T;
     ToSI_pressure := @ToSI_pressure T;
     ToSI_disGas := @ToSI_disGas T;
     ToSI_recipFvf := @ToSI_recipFvf T;
     ToSI_recipFvfVisc := @ToSI_recipFvfVisc T;
     ToSI_recipFvfDerivPress := @ToSI_recipFvfDerivPress T;
     ToSI_recipFvfViscDerivPress := @ToSI_recipFvfViscDerivPress T;
     PVDx := @PVDx T;
     PVDx_ctor := @PVDx_ctor T;
     PVDx_formationVolumeFactor := @PVDx_formationVolumeFactor T;
     PVDx_viscosity := @PVDx_viscosity T;
     PVDx_getPvtCurve := @PVDx_getPvtCurve T;
     SubtableInterpolant := @SubtableInterpolant T;
     Linear_ctor sub indep column :=
       if sub_index sub =? 1
       then inl (Fixture.test_runtime_error "std::bad_alloc")
       else @Linear_ctor T sub indep column;
     Linear_invalid := @Linear_invalid T;
     PVTx_formationVolumeFactor := @PVTx_formationVolumeFactor T;
     PVTx_viscosity := @PVTx_viscosity T;
     PVTx_getPvtCurve := @PVTx_getPvtCurve T |}.

End EdgeTables.

(** * Properties *)

Section Outcomes.
Context {E : Type}.

Lemma not_raised_Ok {A} (a : A) : not_raised (E:=E) (Ok a).
Proof. intros what; discriminate. Qed.

Lemma not_raised_Undefined {A} : not_raised (@Undefined E A).
Proof. intros what; discriminate. Qed.

Lemma not_raised_Abort {A} msg : not_raised (@Abort E A msg).
Proof. intros what; discriminate. Qed.

Lemma not_raised_propagated {A} e : not_raised (@Throw E A (propagated e)).
Proof. intros what; discriminate. Qed.

Lemma not_raised_call {A} (r : E + A) : not_raised (E:=E) (call r).
Proof. destruct r; intros what; discriminate. Qed.

Lemma not_raised_length_error {A} : not_raised (@Throw E A length_error).
Proof. intros what; discriminate. Qed.

Lemma not_raised_reserve n : not_raised (@reserve E n).
Proof. unfold reserve. destruct (_ <? _); intros what; discriminate. Qed.

Lemma reserve_Ok n : n ≤ max_size → @reserve E n = Ok tt.
Proof.
  intros H. unfold reserve. destruct (N.ltb_spec max_size n); [lia|done].
Qed.

Lemma reserve_length_error n :
  max_size < n → @reserve E n = Throw length_error.
Proof.
  intros H. unfold reserve. destruct (N.ltb_spec max_size n); [done|lia].
Qed.

Lemma not_raised_bind {A B} (m : result E A) (k : A → result E B) :
  not_raised m → (∀ a, m = Ok a → not_raised (k a)) → not_raised (m ≫= k).
Proof.
  intros Hm Hk what. destruct m as [a| e | msg |]; cbn.
  - exact (Hk a eq_refl what).
  - destruct e as [w| |e]; [destruct (Hm w eq_refl) | discriminate..].
  - discriminate.
  - discriminate.
Qed.

Lemma bind_Ok {A B} (m : result E A) (k : A → result E B) (b : B) :
  m ≫= k = Ok b ↔ ∃ a, m = Ok a ∧ k a = Ok b.
Proof.
  split.
  - destruct m as [a| | |]; cbn; try discriminate. eauto.
  - intros (a & -> & Hk). exact Hk.
Qed.

Lemma at_Ok {A} (v : list A) (i : N) (x : A) :
  @at_ E A v i = Ok x ↔ v !! N.to_nat i = Some x.
Proof.
  unfold at_. destruct (v !! N.to_nat i); split; intros H;
    try discriminate; congruence.
Qed.

Lemma not_raised_at {A} (v : list A) i : not_raised (@at_ E A v i).
Proof. unfold at_. destruct (v !! _); intros what; discriminate. Qed.

Lemma not_raised_range {A} (v : list A) b e : not_raised (@range E A v b e).
Proof. unfold range. destruct (_ && _); intros what; discriminate. Qed.
End Outcomes.

Create HintDb raised.
#[local] Hint Resolve not_raised_Ok not_raised_Undefined not_raised_Abort
  not_raised_propagated not_raised_call not_raised_at not_raised_range
  not_raised_length_error not_raised_reserve
  : raised.

Section Validation.
Context {C : Collaborators}.

Abbreviation res := (result collab_exn).

(** *** The evaluators *)

Lemma clone_id (p : PVxO) : clone p = p.
Proof. destruct p as [[i]|[i]]; reflexivity. Qed.

(** C7.  A dead-oil model gives the same formation volume factors and the
    same viscosities for any two gas-ratio vectors: the argument [rs] is
    not used, neither by the class itself, nor through the virtual
    interface, nor by the accessors of [Oil::Impl] on a region whose model
    is a dead-oil one. *)
Theorem DeadOil_ignores_gas_ratio (d : DeadOil) (po rs1 rs2 : list float) :
  formationVolumeFactor d rs1 po = formationVolumeFactor d rs2 po
  ∧ viscosity d rs1 po = viscosity d rs2 po
  ∧ formationVolumeFactor (dead d) rs1 po = formationVolumeFactor (dead d) rs2 po
  ∧ viscosity (dead d) rs1 po = viscosity (dead d) rs2 po
  ∧ ∀ (ms : gmap positive PVxO) (this : Impl) (region : N) (p : positive),
      eval_ this !! N.to_nat region = Some p →
      ms !! p = Some (dead d) →
      Impl_formationVolumeFactor ms this region rs1 po
      = Impl_formationVolumeFactor ms this region rs2 po
      ∧ Impl_viscosity ms this region rs1 po
        = Impl_viscosity ms this region rs2 po.
Proof.
  do 4 (split; [reflexivity|]).
  intros ms this region p Hp Hm.
  unfold Impl_formationVolumeFactor, Impl_viscosity.
  destruct (validateRegIdx this region); try (split; reflexivity).
  cbn [mbind result_bind bind]. rewrite (proj2 (at_Ok _ _ _) Hp).
  cbn [mbind result_bind bind]. unfold deref. rewrite Hm.
  split; reflexivity.
Qed.

(** For every curve kind, [LiveOil::getPvtCurve] hands back the graphs of
    its two-level interpolant as they are. *)
Lemma LiveOil_getPvtCurve_eq (l : LiveOil) (curve : RawCurve) :
  getPvtCurve l curve =
  call (PVTx_getPvtCurve (key_ (interp_ l)) (propInterp_ (interp_ l)) curve).
Proof. reflexivity. Qed.

Lemma repackagePvtCurve_other (graphs : list Graph) (curve : RawCurve) :
  curve ≠ SaturatedState → repackagePvtCurve graphs curve = graphs.
Proof. destruct curve; intros H; [reflexivity | reflexivity | congruence]. Qed.

Lemma repackagePvtCurve_SaturatedState (graphs : list Graph) :
  repackagePvtCurve graphs SaturatedState =
  map (λ g : Graph, (g.2, g.1)) graphs.
Proof. reflexivity. Qed.

(** *** Structural validation *)

Lemma not_raised_fromRawData_loop {T} raw (construct : SubTable → res T) n :
  (∀ sub, not_raised (construct sub)) →
  ∀ i interp, not_raised (fromRawData_loop raw construct i n interp).
Proof.
  intros Hc. induction n as [|n IH]; intros i interp; cbn [fromRawData_loop].
  - auto with raised.
  - apply not_raised_bind; [apply Hc | intros x _; apply IH].
Qed.

Lemma not_raised_fromRawData {T} raw (construct : SubTable → res T) :
  (∀ sub, not_raised (construct sub)) → not_raised (fromRawData raw construct).
Proof. intros Hc. apply not_raised_fromRawData_loop, Hc. Qed.

Lemma not_raised_deadOilUnitConverter usys :
  not_raised (deadOilUnitConverter usys).
Proof.
  unfold deadOilUnitConverter.
  apply not_raised_bind; auto with raised.
Qed.

Lemma not_raised_liveOilUnitConverter usys :
  not_raised (liveOilUnitConverter usys).
Proof.
  unfold liveOilUnitConverter.
  apply not_raised_bind; auto with raised.
Qed.

Lemma not_raised_createDeadOil raw usys : not_raised (createDeadOil raw usys).
Proof.
  unfold createDeadOil. destruct (negb _); [auto with raised|].
  apply not_raised_bind; [apply not_raised_deadOilUnitConverter|].
  intros cvrt _. apply not_raised_fromRawData. intros sub.
  apply not_raised_bind; [|intros d _; auto with raised].
  unfold DeadOil_new.
  apply not_raised_bind; [|intros p _]; auto with raised.
Qed.

Lemma not_raised_extractPrimaryKey_loop pk cvrtKey n :
  ∀ b key, not_raised (extractPrimaryKey_loop pk cvrtKey b n key).
Proof.
  induction n as [|n IH]; intros b key; cbn [extractPrimaryKey_loop].
  - auto with raised.
  - apply not_raised_bind; [auto with raised | intros x _; apply IH].
Qed.

Lemma not_raised_extractPrimaryKey raw t cvrtKey :
  not_raised (extractPrimaryKey raw t cvrtKey).
Proof.
  unfold extractPrimaryKey. apply not_raised_bind; [auto with raised|].
  intros _ _. apply not_raised_extractPrimaryKey_loop.
Qed.

(** Where the key capacity is one a vector can hold, [reserve] returns
    and the loop decides. *)
Lemma extractPrimaryKey_reserved raw t cvrtKey :
  numPrimary raw ≤ max_size →
  extractPrimaryKey raw t cvrtKey =
  extractPrimaryKey_loop (primaryKey raw) cvrtKey
    (wmul (wadd t 0) (numPrimary raw)) (N.to_nat (numPrimary raw)) [].
Proof. intros H. unfold extractPrimaryKey. by rewrite reserve_Ok. Qed.

Lemma createLiveOil_reserved raw usys :
  numTables raw ≤ max_size →
  createLiveOil raw usys =
  (cvrt ← liveOilUnitConverter usys;
   sti ← fromRawData raw (createLiveOil_factory cvrt);
   createLiveOil_loop raw (fst cvrt) sti
     (wmul 0 (numTables raw)) (N.to_nat (numTables raw)) []).
Proof. intros H. unfold createLiveOil. by rewrite reserve_Ok. Qed.

Lemma not_raised_createLiveOil_factory cvrt sub :
  not_raised (createLiveOil_factory cvrt sub).
Proof.
  unfold createLiveOil_factory.
  destruct (Linear_ctor _ _ _) as [e|s]; [|auto with raised].
  destruct (is_invalid_argument e); auto with raised.
Qed.

Lemma not_raised_createLiveOil_loop raw cvrtKey sti n :
  ∀ t ret, not_raised (createLiveOil_loop raw cvrtKey sti t n ret).
Proof.
  induction n as [|n IH]; intros t ret; cbn [createLiveOil_loop].
  - auto with raised.
  - apply not_raised_bind;
      [apply not_raised_extractPrimaryKey | intros key _].
    apply not_raised_bind; [auto with raised | intros leaves _; apply IH].
Qed.

Lemma not_raised_createLiveOil raw usys : not_raised (createLiveOil raw usys).
Proof.
  unfold createLiveOil.
  apply not_raised_bind; [auto with raised|]. intros _ _.
  apply not_raised_bind; [apply not_raised_liveOilUnitConverter|].
  intros cvrt _. apply not_raised_bind.
  - apply not_raised_fromRawData, not_raised_createLiveOil_factory.
  - intros sti _. apply not_raised_createLiveOil_loop.
Qed.

(** What [createPVTFunction] does, check by check. *)
Lemma createPVTFunction_first raw usys :
  createPVTFunction raw usys =
  match first_violated raw with
  | Some i => Throw (invalid_argument (names i))
  | None =>
      if numPrimary raw =? 1 then createDeadOil raw usys
      else createLiveOil raw usys
  end.
Proof.
  unfold createPVTFunction, first_violated.
  repeat match goal with |- context [if ?b then _ else _] =>
    lazymatch b with
    | numPrimary raw =? 1 => fail
    | _ => destruct b; [reflexivity|]
    end
  end.
  reflexivity.
Qed.

Lemma first_violated_Some raw i :
  first_violated raw = Some i → violated raw i.
Proof.
  unfold first_violated, violated.
  destruct (N.eqb_spec (numPrimary raw) 0); [intros [= <-]; done|].
  destruct (N.eqb_spec (numCols raw) 5); cbn [negb]; [|intros [= <-]; done].
  destruct (N.eqb_spec (size (primaryKey raw))
              (wmul (numPrimary raw) (numTables raw)));
    cbn [negb]; [|intros [= <-]; done].
  destruct (N.eqb_spec (size (data raw))
              (wmul (wmul (wmul (numPrimary raw) (numRows raw)) (numCols raw))
                 (numTables raw)));
    cbn [negb]; [discriminate|intros [= <-]; done].
Qed.

Lemma first_violated_None raw :
  first_violated raw = None ↔ ∀ i, ¬ violated raw i.
Proof.
  split.
  - unfold first_violated, violated.
    destruct (N.eqb_spec (numPrimary raw) 0); [discriminate|].
    destruct (N.eqb_spec (numCols raw) 5); cbn [negb]; [|discriminate].
    destruct (N.eqb_spec (size (primaryKey raw))
                (wmul (numPrimary raw) (numTables raw)));
      cbn [negb]; [|discriminate].
    destruct (N.eqb_spec (size (data raw))
                (wmul (wmul (wmul (numPrimary raw) (numRows raw)) (numCols raw))
                   (numTables raw)));
      cbn [negb]; [|discriminate].
    intros _ [| | |]; auto.
  - intros H. destruct (first_violated raw) as [i|] eqn:E; [|done].
    destruct (H i (first_violated_Some raw i E)).
Qed.

Lemma structurally_valid_spec raw :
  structurally_valid raw = true ↔ first_violated raw = None.
Proof.
  unfold structurally_valid, first_violated.
  destruct (numPrimary raw =? 0); [cbn; split; discriminate|].
  destruct (numCols raw =? 5); [|cbn; split; discriminate].
  destruct (size (primaryKey raw) =? _); [|cbn; split; discriminate].
  destruct (size (data raw) =? _); cbn; split; (discriminate || done).
Qed.

Lemma createPVTFunction_valid raw usys :
  structurally_valid raw = true →
  createPVTFunction raw usys =
    if numPrimary raw =? 1 then createDeadOil raw usys
    else createLiveOil raw usys.
Proof.
  rewrite structurally_valid_spec. intros Hv.
  rewrite createPVTFunction_first, Hv. reflexivity.
Qed.
End Validation.

Section Construction.
Context {C : Collaborators}.

Abbreviation res := (result collab_exn).

(** C2.  [createPVTFunction] raises a [std::invalid_argument] of its own
    exactly when one of the four table invariants fails (the products are
    those of [size_t]); the message is the text that names a violated
    invariant; the outcome is then the same whatever the collaborators
    would do, since none of them has been called; and the constructor of
    [Oil] passes the error on, leaving neither object nor store behind. *)
Theorem createPVTFunction_structural_error
    (raw : ECLPropTableRawData) (usys : Z) :
  ((∃ what, createPVTFunction raw usys = Throw (invalid_argument what)) ↔
   (numPrimary raw = 0
    ∨ numCols raw ≠ 5
    ∨ size (primaryKey raw) ≠ wmul (numPrimary raw) (numTables raw)
    ∨ size (data raw) ≠
      wmul (wmul (wmul (numPrimary raw) (numRows raw)) (numCols raw))
           (numTables raw)))
  ∧ (∀ what, createPVTFunction raw usys = Throw (invalid_argument what) →
       ∃ i, violated raw i ∧ what = names i)
  ∧ (∀ (C' : Collaborators) what,
       createPVTFunction (C:=C) raw usys = Throw (invalid_argument what) →
       createPVTFunction (C:=C') raw usys = Throw (invalid_argument what))
  ∧ (∀ what rhoS st,
       createPVTFunction raw usys = Throw (invalid_argument what) →
       Oil_new raw usys rhoS st = Throw (invalid_argument what)).
Proof.
  assert (Hbuild : ∀ C' : Collaborators, not_raised
            (if numPrimary raw =? 1 then createDeadOil (C:=C') raw usys
             else createLiveOil raw usys)).
  { intros C'. destruct (numPrimary raw =? 1);
      [apply not_raised_createDeadOil | apply not_raised_createLiveOil]. }
  assert (Hwhy : ∀ (C' : Collaborators) what,
            createPVTFunction (C:=C') raw usys = Throw (invalid_argument what) →
            ∃ i, first_violated raw = Some i ∧ what = names i).
  { intros C' what. rewrite createPVTFunction_first.
    destruct (first_violated raw) as [i|].
    - intros [= <-]. eauto.
    - intros H. destruct (Hbuild C' what H). }
  repeat split.
  - intros [what H]. destruct (Hwhy C what H) as (i & Hi & _).
    apply first_violated_Some in Hi. destruct i; cbn in Hi; auto.
  - intros H. rewrite createPVTFunction_first.
    destruct (first_violated raw) as [i|] eqn:E; [eauto|].
    exfalso. rewrite first_violated_None in E.
    destruct H as [H|[H|[H|H]]].
    + exact (E HasPrimaryKey H).
    + exact (E FiveColumns H).
    + exact (E KeySize H).
    + exact (E DataSize H).
  - intros what H. destruct (Hwhy C what H) as (i & Hi & Hn).
    exists i. split; [exact (first_violated_Some raw i Hi)|exact Hn].
  - intros C' what H. destruct (Hwhy C what H) as (i & Hi & ->).
    rewrite createPVTFunction_first, Hi. reflexivity.
  - intros what rhoS st H. unfold Oil_new, Impl_new. rewrite H. reflexivity.
Qed.

(** *** Dispatch between the two builders *)

Lemma fromRawData_loop_Forall {T} (P : T → Prop) raw
    (construct : SubTable → res T) n :
  (∀ sub x, construct sub = Ok x → P x) →
  ∀ i interp l,
    Forall P interp →
    fromRawData_loop raw construct i n interp = Ok l →
    Forall P l ∧ length l = (length interp + n)%nat.
Proof.
  intros Hc. induction n as [|n IH]; intros i interp l Hi;
    cbn [fromRawData_loop].
  - intros [= <-]. split; [done|lia].
  - intros H. apply bind_Ok in H as (x & Hx & H).
    apply IH in H as [HP Hlen].
    + split; [done|]. rewrite Hlen, length_app. cbn. lia.
    + apply Forall_app. split; [done|]. constructor; [eauto|constructor].
Qed.

Lemma createLiveOil_loop_Forall raw cvrtKey sti n :
  ∀ t ret l,
    Forall (λ m, is_live m = true) ret →
    createLiveOil_loop raw cvrtKey sti t n ret = Ok l →
    Forall (λ m, is_live m = true) l ∧ length l = (length ret + n)%nat.
Proof.
  induction n as [|n IH]; intros t ret l Hr; cbn [createLiveOil_loop].
  - intros [= <-]. split; [done|lia].
  - intros H. apply bind_Ok in H as (key & _ & H).
    apply bind_Ok in H as (leaves & _ & H).
    apply IH in H as [HP Hlen].
    + split; [done|]. rewrite Hlen, length_app. cbn. lia.
    + apply Forall_app. split; [done|]. repeat constructor.
Qed.


(** *** The primary key of a table *)

Lemma SFcompare_antisym (x y : spec_float) (c : comparison) :
  SFcompare x y = Some c → SFcompare y x = Some (CompOpp c).
Proof.
  destruct x as [s1|s1| |s1 m1 e1], y as [s2|s2| |s2 m2 e2]; cbn;
    try discriminate; intros [= <-];
    try (destruct s1; reflexivity); try (destruct s2; reflexivity);
    try (destruct s1, s2; reflexivity).
  pose proof (Pos.compare_cont_antisym m1 m2 Eq) as Hm. cbn in Hm.
  destruct s1, s2; try reflexivity;
    rewrite (Z.compare_antisym e1 e2); destruct (e1 ?= e2)%Z; cbn;
    try reflexivity; rewrite <- Hm;
    destruct (Pos.compare_cont Eq m1 m2); reflexivity.
Qed.

Lemma leb_not_ltb (a b : float) :
  PrimFloat.leb a b = true → PrimFloat.ltb b a = false.
Proof.
  rewrite leb_spec, ltb_spec. unfold SFleb, SFltb.
  destruct (SFcompare (Prim2SF a) (Prim2SF b)) as [c|] eqn:E; [|discriminate].
  rewrite (SFcompare_antisym _ _ _ E). destruct c; cbn; done.
Qed.

Lemma sentinel_not_kept (x : float) : sentinel x = true → kept x = false.
Proof. apply leb_not_ltb. Qed.

Lemma filter_length_lt {A} (f : A → bool) (l : list A) :
  Exists (λ x, f x = false) l →
  (length (List.filter f l) < length l)%nat.
Proof.
  induction 1 as [x l Hx|x l _ IH]; cbn.
  - rewrite Hx. pose proof (List.filter_length_le f l). lia.
  - destruct (f x); cbn; lia.
Qed.

(** The loop of [extractPrimaryKey] over a range that lies inside the
    vector: it appends, in order, the converted entries that are kept. *)
Lemma extractPrimaryKey_loop_spec (pk : list float) (cvrtKey : Converter) n :
  ∀ b key,
    (N.to_nat b + n ≤ length pk)%nat →
    extractPrimaryKey_loop pk cvrtKey b n key =
    Ok (key ++ map cvrtKey (List.filter kept (take n (drop (N.to_nat b) pk)))).
Proof.
  induction n as [|n IH]; intros b key Hn; cbn [extractPrimaryKey_loop].
  - rewrite take_0. cbn. by rewrite app_nil_r.
  - unfold at_. destruct (pk !! N.to_nat b) as [x|] eqn:Hx.
    2:{ apply lookup_ge_None in Hx. lia. }
    cbn. rewrite IH by lia.
    rewrite (drop_S _ _ _ Hx). cbn [take List.filter].
    replace (N.to_nat (b + 1)) with (S (N.to_nat b)) by lia.
    fold (kept x). destruct (kept x); cbn [map]; [|reflexivity].
    by rewrite <- app_assoc.
Qed.

Lemma sizes_exact_slice raw t :
  sizes_exact raw = true → t < numTables raw →
  wmul (wadd t 0) (numPrimary raw) = t * numPrimary raw
  ∧ (N.to_nat (t * numPrimary raw) + N.to_nat (numPrimary raw)
     ≤ length (primaryKey raw))%nat.
Proof.
  unfold sizes_exact, size, wmul, wadd, size_t_range.
  rewrite andb_true_iff, N.ltb_lt, N.eqb_eq. intros [Hlt Hsz] Ht.
  assert (t * numPrimary raw + numPrimary raw
          ≤ numPrimary raw * numTables raw) as Hle by nia.
  split.
  - rewrite N.add_0_r.
    destruct (N.eq_dec (numPrimary raw) 0) as [->|Hnp].
    { rewrite !N.mul_0_r. reflexivity. }
    rewrite (N.mod_small t) by nia. apply N.mod_small. nia.
  - lia.
Qed.

(** The key vector holds [numPrimary * numTables] entries and is a
    vector: a count that divides its size is one a vector can hold. *)
Lemma sizes_exact_capacity raw :
  sizes_exact raw = true →
  (0 < numTables raw → numPrimary raw ≤ max_size)
  ∧ (0 < numPrimary raw → numTables raw ≤ max_size).
Proof.
  unfold sizes_exact. rewrite andb_true_iff, N.ltb_lt, N.eqb_eq.
  intros [_ Hsz]. pose proof (vector_fits (primaryKey raw)) as Hfit.
  rewrite Hsz in Hfit. split; intros H; nia.
Qed.

Lemma extractPrimaryKey_exact
    (raw : ECLPropTableRawData) (t : N) (cvrtKey : Converter) :
  sizes_exact raw = true →
  t < numTables raw →
  extractPrimaryKey raw t cvrtKey =
    Ok (map cvrtKey (List.filter kept (table_key raw t))).
Proof.
  intros Hs Ht. destruct (sizes_exact_slice raw t Hs Ht) as [Hb Hin].
  rewrite extractPrimaryKey_reserved
    by (apply (sizes_exact_capacity raw Hs); lia).
  rewrite Hb.
  rewrite extractPrimaryKey_loop_spec by exact Hin. reflexivity.
Qed.

(** C4.  For a table index [t] of a table whose key vector has the size
    the dimensions announce, [extractPrimaryKey] returns, in order,
    exactly the converted entries of the slice of table [t] whose
    absolute value is strictly less than 1.0e20; when the slice holds a
    sentinel the key is strictly shorter than [numPrimary]. *)
Theorem extractPrimaryKey_keeps_below_sentinel
    (raw : ECLPropTableRawData) (t : N) (cvrtKey : Converter) :
  sizes_exact raw = true →
  t < numTables raw →
  size (table_key raw t) = numPrimary raw
  ∧ extractPrimaryKey raw t cvrtKey =
      Ok (map cvrtKey (List.filter kept (table_key raw t)))
  ∧ (Exists (λ x, sentinel x = true) (table_key raw t) →
     size (map cvrtKey (List.filter kept (table_key raw t)))
     < numPrimary raw).
Proof.
  intros Hs Ht. destruct (sizes_exact_slice raw t Hs Ht) as [Hb Hin].
  assert (size (table_key raw t) = numPrimary raw) as Hlen.
  { unfold size, table_key. rewrite length_take, length_drop. lia. }
  split; [exact Hlen|]. split.
  - exact (extractPrimaryKey_exact raw t cvrtKey Hs Ht).
  - intros Hex. unfold size in *. rewrite length_map.
    assert (length (List.filter kept (table_key raw t))
            < length (table_key raw t))%nat; [|lia].
    apply filter_length_lt.
    eapply Exists_impl; [exact Hex|]. intros x. apply sentinel_not_kept.
Qed.
End Construction.

Section Catalog.
Context {C : Collaborators}.

Abbreviation res := (result collab_exn).

Lemma validateRegIdx_spec (this : Impl) (region : N) :
  validateRegIdx this region =
  if size (eval_ this) <=? region
  then Throw (invalid_argument (range_error region (size (eval_ this))))
  else Ok tt.
Proof. reflexivity. Qed.

Lemma validateRegIdx_out (this : Impl) (region : N) :
  size (eval_ this) ≤ region →
  validateRegIdx this region =
  Throw (invalid_argument (range_error region (size (eval_ this)))).
Proof.
  intros H. rewrite validateRegIdx_spec.
  destruct (N.leb_spec (size (eval_ this)) region); [reflexivity|lia].
Qed.

Lemma validateRegIdx_in (this : Impl) (region : N) :
  region < size (eval_ this) →
  validateRegIdx this region = Ok tt
  ∧ ∃ p, eval_ this !! N.to_nat region = Some p.
Proof.
  intros H. rewrite validateRegIdx_spec.
  destruct (N.leb_spec (size (eval_ this)) region); [lia|].
  split; [reflexivity|]. apply lookup_lt_is_Some. unfold size in H. lia.
Qed.

Lemma not_raised_PVxO_formationVolumeFactor (m : PVxO) rs po :
  not_raised (formationVolumeFactor m rs po).
Proof. destruct m; cbn; auto with raised. Qed.

Lemma not_raised_PVxO_viscosity (m : PVxO) rs po :
  not_raised (viscosity m rs po).
Proof. destruct m; cbn; auto with raised. Qed.

Lemma not_raised_PVxO_getPvtCurve (m : PVxO) curve :
  not_raised (getPvtCurve m curve).
Proof.
  destruct m; cbn; auto with raised.
  apply not_raised_bind; [|intros g _]; auto with raised.
Qed.

Lemma not_raised_deref {A} (m : gmap positive A) p :
  not_raised (E:=collab_exn) (deref m p).
Proof. unfold deref. destruct (m !! p); auto with raised. Qed.

(** An accessor raises exactly the range error outside the catalog and
    none inside. *)
Lemma accessor_range {A} (this : Impl) (region : N)
    (k : positive → res A) :
  (∀ p, not_raised (k p)) →
  let acc := (_ ← validateRegIdx this region;
              p ← at_ (eval_ this) region; k p) in
  ((∃ what, acc = Throw (invalid_argument what))
   ↔ size (eval_ this) ≤ region)
  ∧ (size (eval_ this) ≤ region →
     acc = Throw (invalid_argument (range_error region (size (eval_ this)))))
  ∧ (region < size (eval_ this) →
     ∃ p, eval_ this !! N.to_nat region = Some p ∧ acc = k p).
Proof.
  intros Hk acc.
  assert (Hout : size (eval_ this) ≤ region →
     acc = Throw (invalid_argument (range_error region (size (eval_ this))))).
  { intros H. unfold acc. rewrite (validateRegIdx_out this region H).
    reflexivity. }
  assert (Hin : region < size (eval_ this) →
     ∃ p, eval_ this !! N.to_nat region = Some p ∧ acc = k p).
  { intros H. destruct (validateRegIdx_in this region H) as [E [p Hp]].
    exists p. split; [exact Hp|]. unfold acc. rewrite E. cbn.
    unfold at_. rewrite Hp. reflexivity. }
  split; [|split; assumption].
  split.
  - intros [what H]. destruct (N.le_gt_cases (size (eval_ this)) region)
      as [Hle|Hgt]; [exact Hle|].
    destruct (Hin Hgt) as (p & _ & E). rewrite E in H.
    destruct (Hk p what H).
  - intros H. eauto.
Qed.

(** C5.  For a catalog of [N] regions and a region index [r], each of the
    four accessors raises a range error exactly when [r >= N]; the error
    then names [r] and the range from 0 to [N - 1]; when [r < N] the
    accessor goes on to the model (or the density) of region [r]. *)
Theorem accessors_validate_region
    (ms : gmap positive PVxO) (this : Impl) (r : N) :
  (∀ rs po,
     ((∃ what, Impl_formationVolumeFactor ms this r rs po
               = Throw (invalid_argument what)) ↔ size (eval_ this) ≤ r)
     ∧ ((∃ what, Impl_viscosity ms this r rs po
                 = Throw (invalid_argument what)) ↔ size (eval_ this) ≤ r))
  ∧ ((∃ what, Impl_surfaceMassDensity this r
              = Throw (invalid_argument what)) ↔ size (eval_ this) ≤ r)
  ∧ (∀ curve,
       (∃ what, Impl_getPvtCurve ms this r curve
                = Throw (invalid_argument what)) ↔ size (eval_ this) ≤ r)
  ∧ (size (eval_ this) ≤ r →
     let e : exn collab_exn :=
       invalid_argument
         ("Region Index " ++ to_string r ++ " Outside Valid Range (0 .. "
          ++ to_string (wsub (size (eval_ this)) 1) ++ ")") in
     (∀ rs po, Impl_formationVolumeFactor ms this r rs po = Throw e)
     ∧ (∀ rs po, Impl_viscosity ms this r rs po = Throw e)
     ∧ Impl_surfaceMassDensity this r = Throw e
     ∧ (∀ curve, Impl_getPvtCurve ms this r curve = Throw e))
  ∧ (r < size (eval_ this) →
     ∃ p, eval_ this !! N.to_nat r = Some p
       ∧ (∀ rs po, Impl_formationVolumeFactor ms this r rs po
                   = (m ← deref ms p; formationVolumeFactor m rs po))
       ∧ (∀ rs po, Impl_viscosity ms this r rs po
                   = (m ← deref ms p; viscosity m rs po))
       ∧ Impl_surfaceMassDensity this r = at_ (rhoS_ this) r
       ∧ (∀ curve, Impl_getPvtCurve ms this r curve
                   = (m ← deref ms p; getPvtCurve m curve)))
  ∧ (0 < size (eval_ this) < size_t_range →
     wsub (size (eval_ this)) 1 = size (eval_ this) - 1).
Proof.
  assert (Impl_surfaceMassDensity this r =
          (_ ← validateRegIdx this r;
           p ← at_ (eval_ this) r; at_ (rhoS_ this) r)) as Ed.
  { unfold Impl_surfaceMassDensity. rewrite validateRegIdx_spec.
    destruct (N.leb_spec (size (eval_ this)) r) as [|Hlt]; [reflexivity|].
    destruct (eval_ this !! N.to_nat r) eqn:E.
    - rewrite (proj2 (at_Ok (eval_ this) r p) E). reflexivity.
    - apply lookup_ge_None in E. unfold size in Hlt. lia. }
  pose proof (λ rs po, accessor_range this r
    (λ p, m ← deref ms p; formationVolumeFactor m rs po)) as Hf.
  pose proof (λ rs po, accessor_range this r
    (λ p, m ← deref ms p; viscosity m rs po)) as Hv.
  pose proof (λ curve, accessor_range this r
    (λ p, m ← deref ms p; getPvtCurve m curve)) as Hc.
  pose proof (accessor_range this r (λ _, at_ (rhoS_ this) r)) as Hd.
  assert (∀ rs po p,
    not_raised (m ← deref ms p; formationVolumeFactor m rs po)) as Nf.
  { intros. apply not_raised_bind; [apply not_raised_deref|intros m _].
    apply not_raised_PVxO_formationVolumeFactor. }
  assert (∀ rs po p,
    not_raised (m ← deref ms p; viscosity m rs po)) as Nv.
  { intros. apply not_raised_bind; [apply not_raised_deref|intros m _].
    apply not_raised_PVxO_viscosity. }
  assert (∀ curve p,
    not_raised (m ← deref ms p; getPvtCurve m curve)) as Nc.
  { intros. apply not_raised_bind; [apply not_raised_deref|intros m _].
    apply not_raised_PVxO_getPvtCurve. }
  cbv zeta in Hf, Hv, Hc, Hd.
  assert (Nd : ∀ p : positive, not_raised (E:=collab_exn) (at_ (rhoS_ this) r))
    by auto with raised.
  split; [|split; [|split; [|split; [|split]]]].
  - intros rs po. split; [apply (Hf rs po), Nf | apply (Hv rs po), Nv].
  - rewrite Ed. apply (Hd Nd).
  - intros curve. apply (Hc curve), Nc.
  - intros Hle. cbv zeta. fold (range_error r (size (eval_ this))).
    repeat split.
    + intros rs po. apply (Hf rs po); [apply Nf|exact Hle].
    + intros rs po. apply (Hv rs po); [apply Nv|exact Hle].
    + rewrite Ed. apply (Hd Nd), Hle.
    + intros curve. apply (Hc curve); [apply Nc|exact Hle].
  - intros Hlt. destruct (validateRegIdx_in this r Hlt) as [_ [p Hp]].
    exists p. split; [exact Hp|]. repeat split.
    + intros rs po.
      destruct (proj2 (proj2 (Hf rs po (Nf rs po))) Hlt) as (p' & Hp' & E).
      rewrite Hp in Hp'. injection Hp' as <-. exact E.
    + intros rs po.
      destruct (proj2 (proj2 (Hv rs po (Nv rs po))) Hlt) as (p' & Hp' & E).
      rewrite Hp in Hp'. injection Hp' as <-. exact E.
    + rewrite Ed.
      destruct (proj2 (proj2 (Hd Nd)) Hlt) as (p' & Hp' & E). exact E.
    + intros curve.
      destruct (proj2 (proj2 (Hc curve (Nc curve))) Hlt) as (p' & Hp' & E).
      rewrite Hp in Hp'. injection Hp' as <-. exact E.
  - unfold wsub, size_t_range. intros [H0 Hlt].
    change (1 mod 2 ^ 64) with 1.
    replace (size (eval_ this) + (2 ^ 64 - 1))
      with ((size (eval_ this) - 1) + 1 * 2 ^ 64) by lia.
    rewrite N.Div0.mod_add. apply N.mod_small. lia.
Qed.

(** *** The surface densities *)

Lemma place_models_length (built : list PVxO) :
  ∀ ms ps ps' ms',
    place_models built ms ps = (ps', ms') →
    length ps' = (length ps + length built)%nat.
Proof.
  induction built as [|m built IH]; intros ms ps ps' ms'; cbn.
  - intros [= <- _]. lia.
  - intros H. apply IH in H. rewrite H, length_app. cbn. lia.
Qed.

Lemma Impl_surfaceMassDensity_in (this : Impl) (region : N) :
  region < size (eval_ this) →
  Impl_surfaceMassDensity this region = at_ (rhoS_ this) region.
Proof.
  intros H. unfold Impl_surfaceMassDensity.
  destruct (validateRegIdx_in this region H) as [-> _]. reflexivity.
Qed.

(** C10.  The constructor of [Oil] succeeds whenever the models can be
    built, whatever the length of the density array, and stores the array
    as it is next to one pointer per model.  [surfaceMassDensity] checks
    the region against the number of models only and then indexes the
    density array; the access stays inside the array for every accepted
    region exactly when the array is at least as long as the model
    vector. *)
Theorem surfaceMassDensity_density_length_unchecked :
  (∀ raw usys rhoS st built,
     createPVTFunction raw usys = Ok built →
     ∃ this p i st',
       Oil_new raw usys rhoS st = Ok (this, st')
       ∧ objects st' !! this = Some {| pImpl_ := Some p |}
       ∧ impls st' !! p = Some i
       ∧ rhoS_ i = rhoS
       ∧ length (eval_ i) = length built)
  ∧ (∀ (this : Impl) region,
       region < size (eval_ this) →
       Impl_surfaceMassDensity this region = at_ (rhoS_ this) region)
  ∧ (∀ this : Impl,
       (∀ region, region < size (eval_ this) →
                  Impl_surfaceMassDensity this region ≠ Undefined)
       ↔ size (eval_ this) ≤ size (rhoS_ this)).
Proof.
  split; [|split].
  - intros raw usys rhoS st built H. unfold Oil_new, Impl_new. rewrite H.
    cbn [mbind result_bind bind].
    destruct (place_models built (models st) []) as [ps ms'] eqn:Hp.
    cbn [mbind result_bind bind new].
    eexists _, _, _, _. split; [reflexivity|]. cbn.
    rewrite !lookup_insert_eq. repeat split.
    apply place_models_length in Hp. exact Hp.
  - exact Impl_surfaceMassDensity_in.
  - intros this. split.
    + intros H. destruct (N.le_gt_cases (size (eval_ this)) (size (rhoS_ this)))
        as [Hle|Hgt]; [exact Hle|exfalso].
      apply (H (size (rhoS_ this)) Hgt).
      rewrite Impl_surfaceMassDensity_in by exact Hgt.
      unfold at_, size. rewrite Nat2N.id.
      rewrite (proj2 (lookup_ge_None (rhoS_ this) _)); [reflexivity|lia].
    + intros Hle region Hlt.
      rewrite Impl_surfaceMassDensity_in by exact Hlt.
      unfold at_. destruct (rhoS_ this !! N.to_nat region) eqn:E;
        [discriminate|].
      apply lookup_ge_None in E. unfold size in *. lia.
Qed.
End Catalog.

Section LiveOilTables.
Context {C : Collaborators}.

Abbreviation res := (result collab_exn).

(** *** The sub-table interpolants *)

Lemma fromRawData_loop_Ok {T} raw (construct : SubTable → res T)
    (f : N → T) n :
  ∀ i interp,
    (∀ j, (j < n)%nat →
          construct {| sub_raw := raw; sub_index := i + N.of_nat j |}
          = Ok (f (i + N.of_nat j))) →
    fromRawData_loop raw construct i n interp =
    Ok (interp ++ map (λ j, f (i + N.of_nat j)) (seq 0 n)).
Proof.
  induction n as [|n IH]; intros i interp Hc; cbn [fromRawData_loop].
  - cbn. by rewrite app_nil_r.
  - pose proof (Hc 0%nat ltac:(lia)) as H0. rewrite N.add_0_r in H0.
    rewrite H0. cbn [mbind result_bind bind].
    rewrite IH.
    + rewrite <- app_assoc. cbn [seq map app]. rewrite N.add_0_r.
      rewrite <- seq_shift, map_map. do 3 f_equal.
      apply map_ext. intros j. f_equal. lia.
    + intros j Hj. specialize (Hc (S j) ltac:(lia)).
      replace (i + 1 + N.of_nat j) with (i + N.of_nat (S j)) by lia.
      exact Hc.
Qed.

Lemma createLiveOil_factory_placeholder cvrt raw i :
  (∀ e, Linear_ctor {| sub_raw := raw; sub_index := i |}
          (indep cvrt.2) (column cvrt.2) = inl e →
        is_invalid_argument e = true) →
  createLiveOil_factory cvrt {| sub_raw := raw; sub_index := i |}
  = Ok (leaf_or_placeholder cvrt raw i).
Proof.
  unfold createLiveOil_factory, leaf_or_placeholder. cbn [snd].
  destruct (Linear_ctor _ _ _) as [e|s]; [|reflexivity].
  intros H. rewrite (H e eq_refl). reflexivity.
Qed.

Lemma fromRawData_placeholders cvrt raw :
  sizes_exact raw = true →
  (∀ j e, Linear_ctor {| sub_raw := raw; sub_index := j |}
            (indep cvrt.2) (column cvrt.2) = inl e →
          is_invalid_argument e = true) →
  fromRawData raw (createLiveOil_factory cvrt) =
  Ok (map (λ j, leaf_or_placeholder cvrt raw (N.of_nat j))
        (seq 0 (N.to_nat (numPrimary raw * numTables raw)))).
Proof.
  intros Hs Hinv. unfold fromRawData.
  assert (wmul (numPrimary raw) (numTables raw)
          = numPrimary raw * numTables raw) as ->.
  { unfold sizes_exact in Hs. apply andb_true_iff in Hs as [Hs _].
    apply N.ltb_lt in Hs. unfold wmul. by apply N.mod_small. }
  rewrite (fromRawData_loop_Ok raw _ (leaf_or_placeholder cvrt raw)).
  - reflexivity.
  - intros j _. apply createLiveOil_factory_placeholder. intros e.
    apply Hinv.
Qed.

Lemma fromRawData_size {T} raw (construct : SubTable → res T) sti :
  sizes_exact raw = true →
  fromRawData raw construct = Ok sti →
  size sti = numPrimary raw * numTables raw.
Proof.
  intros Hs H. unfold fromRawData in H.
  apply (fromRawData_loop_Forall (λ _, True)) in H as [_ H];
    [|done|constructor].
  unfold sizes_exact in Hs. apply andb_true_iff in Hs as [Hs _].
  apply N.ltb_lt in Hs. unfold size. rewrite H. cbn [length].
  unfold wmul. rewrite N.mod_small by done. lia.
Qed.

(** *** The loop over the tables *)

Lemma filter_kept_length_le (slice : list float) :
  (length (List.filter kept slice) ≤ length slice)%nat.
Proof. apply List.filter_length_le. Qed.

Lemma table_key_length raw t :
  sizes_exact raw = true → t < numTables raw →
  length (table_key raw t) = N.to_nat (numPrimary raw).
Proof.
  intros Hs Ht. destruct (sizes_exact_slice raw t Hs Ht) as [_ Hin].
  unfold table_key. rewrite length_take, length_drop. lia.
Qed.

(** One turn of the loop: the model of table [t]. *)
Lemma createLiveOil_loop_step raw cvrtKey (sti : list SubtableInterpolant) t :
  sizes_exact raw = true → t < numTables raw →
  size sti = numPrimary raw * numTables raw →
  let key := map cvrtKey (List.filter kept (table_key raw t)) in
  extractPrimaryKey raw t cvrtKey = Ok key
  ∧ range (E:=collab_exn) sti
      (wmul (wadd t 0) (numPrimary raw))
      (wadd (wmul (wadd t 0) (numPrimary raw)) (size key))
    = Ok (take (length key) (drop (N.to_nat (t * numPrimary raw)) sti)).
Proof.
  intros Hs Ht Hsti key.
  split; [exact (extractPrimaryKey_exact raw t cvrtKey Hs Ht)|].
  destruct (sizes_exact_slice raw t Hs Ht) as [-> Hin].
  assert (size key ≤ numPrimary raw) as Hk.
  { unfold size, key. rewrite length_map.
    pose proof (filter_kept_length_le (table_key raw t)) as Hle.
    rewrite (table_key_length raw t Hs Ht) in Hle. lia. }
  unfold sizes_exact in Hs. apply andb_true_iff in Hs as [Hlt Hpk].
  apply N.ltb_lt in Hlt. unfold size_t_range in Hlt.
  assert (t * numPrimary raw + numPrimary raw
          ≤ numPrimary raw * numTables raw) as Hle by nia.
  assert (wadd (t * numPrimary raw) (size key)
          = t * numPrimary raw + size key) as ->.
  { unfold wadd, size_t_range. apply N.mod_small. lia. }
  unfold range.
  destruct (N.leb_spec (t * numPrimary raw) (t * numPrimary raw + size key));
    [|lia].
  destruct (N.leb_spec (t * numPrimary raw + size key) (size sti)); [|lia].
  cbn [andb]. do 2 f_equal. unfold size. lia.
Qed.

Lemma createLiveOil_loop_spec raw cvrtKey (sti : list SubtableInterpolant) n :
  sizes_exact raw = true →
  size sti = numPrimary raw * numTables raw →
  ∀ t ret,
    t + N.of_nat n ≤ numTables raw →
    createLiveOil_loop raw cvrtKey sti t n ret =
    Ok (ret ++ map (λ j, table_model raw cvrtKey sti (t + N.of_nat j))
                   (seq 0 n)).
Proof.
  intros Hs Hsti. induction n as [|n IH]; intros t ret Ht;
    cbn [createLiveOil_loop].
  - cbn. by rewrite app_nil_r.
  - destruct (createLiveOil_loop_step raw cvrtKey sti t Hs ltac:(lia) Hsti)
      as [Hkey Hrange].
    rewrite Hkey. cbn [mbind result_bind bind].
    rewrite Hrange. cbn [mbind result_bind bind].
    rewrite IH by lia. rewrite <- app_assoc. cbn [seq map app].
    rewrite N.add_0_r. unfold table_model at 2.
    rewrite <- seq_shift, map_map. do 3 f_equal.
    apply map_ext. intros j. f_equal. lia.
Qed.

Lemma createLiveOil_spec raw usys cvrt sti :
  sizes_exact raw = true →
  numTables raw ≤ max_size →
  liveOilUnitConverter usys = Ok cvrt →
  fromRawData raw (createLiveOil_factory cvrt) = Ok sti →
  createLiveOil raw usys =
  Ok (map (λ j, table_model raw cvrt.1 sti (N.of_nat j))
        (seq 0 (N.to_nat (numTables raw)))).
Proof.
  intros Hs Hfit Hc Hsti. rewrite (createLiveOil_reserved raw usys Hfit).
  rewrite Hc.
  cbn [mbind result_bind bind]. rewrite Hsti. cbn [mbind result_bind bind].
  assert (wmul 0 (numTables raw) = 0) as -> by reflexivity.
  rewrite createLiveOil_loop_spec.
  - reflexivity.
  - exact Hs.
  - exact (fromRawData_size raw _ sti Hs Hsti).
  - lia.
Qed.

Lemma createLiveOil_lookup raw usys cvrt sti t :
  sizes_exact raw = true →
  numTables raw ≤ max_size →
  liveOilUnitConverter usys = Ok cvrt →
  fromRawData raw (createLiveOil_factory cvrt) = Ok sti →
  t < numTables raw →
  ∃ ms, createLiveOil raw usys = Ok ms
      ∧ size ms = numTables raw
      ∧ ms !! N.to_nat t = Some (table_model raw cvrt.1 sti t).
Proof.
  intros Hs Hfit Hc Hsti Ht. eexists. split; [|split].
  - exact (createLiveOil_spec raw usys cvrt sti Hs Hfit Hc Hsti).
  - unfold size. rewrite length_map, length_seq. lia.
  - rewrite list_lookup_fmap, lookup_seq_lt by lia. cbn.
    by rewrite N2Nat.id.
Qed.
(** C8.  When the constructor of the interpolant of sub-table [i] fails
    with a [std::invalid_argument] (no valid nodes), and no constructor
    fails in another way, the factory returns the placeholder
    [Linear(Extrap)] for that sub-table, every other sub-table keeps the
    interpolant that was built for it, and [createLiveOil] returns one
    live-oil model per table. *)
Theorem createLiveOil_survives_empty_subtable
    (raw : ECLPropTableRawData) (usys : Z)
    (cvrt : Converter * ConvertUnits) (i : N) (e : collab_exn) :
  sizes_exact raw = true →
  liveOilUnitConverter usys = Ok cvrt →
  i < numPrimary raw * numTables raw →
  Linear_ctor {| sub_raw := raw; sub_index := i |}
    (indep cvrt.2) (column cvrt.2) = inl e →
  is_invalid_argument e = true →
  (∀ j e', Linear_ctor {| sub_raw := raw; sub_index := j |}
             (indep cvrt.2) (column cvrt.2) = inl e' →
           is_invalid_argument e' = true) →
  createLiveOil_factory cvrt {| sub_raw := raw; sub_index := i |}
  = Ok Linear_invalid
  ∧ ∃ sti ms,
      fromRawData raw (createLiveOil_factory cvrt) = Ok sti
      ∧ sti !! N.to_nat i = Some Linear_invalid
      ∧ (∀ j s, j < numPrimary raw * numTables raw →
                Linear_ctor {| sub_raw := raw; sub_index := j |}
                  (indep cvrt.2) (column cvrt.2) = inr s →
                sti !! N.to_nat j = Some s)
      ∧ createLiveOil raw usys = Ok ms
      ∧ size ms = numTables raw
      ∧ ∀ t, t < numTables raw →
             ms !! N.to_nat t = Some (table_model raw cvrt.1 sti t).
Proof.
  intros Hs Hc Hi He Hinv Hall.
  pose proof (fromRawData_placeholders cvrt raw Hs Hall) as Hsti.
  split.
  { unfold createLiveOil_factory. cbn [snd]. rewrite He, Hinv. reflexivity. }
  eexists _, _. split; [exact Hsti|]. split; [|split; [|split; [|split]]].
  - rewrite list_lookup_fmap, lookup_seq_lt by lia. cbn.
    unfold leaf_or_placeholder. rewrite N2Nat.id. cbn [snd].
    rewrite He. reflexivity.
  - intros j s Hj Hb. rewrite list_lookup_fmap, lookup_seq_lt by lia. cbn.
    unfold leaf_or_placeholder. rewrite N2Nat.id. cbn [snd].
    rewrite Hb. reflexivity.
  - refine (createLiveOil_spec raw usys cvrt _ Hs _ Hc Hsti).
    apply (sizes_exact_capacity raw Hs). lia.
  - unfold size. rewrite length_map, length_seq. lia.
  - intros t Ht. rewrite list_lookup_fmap, lookup_seq_lt by lia. cbn.
    by rewrite N2Nat.id.
Qed.

(** *** Key nodes and the sub-tables they are paired with *)

Lemma kept_slots_from_length slice s :
  length (kept_slots_from slice s) = length (List.filter kept slice).
Proof.
  revert s. induction slice as [|x rest IH]; intros s; cbn; [done|].
  destruct (kept x); cbn; by rewrite IH.
Qed.

Lemma kept_slots_from_ge slice s :
  Forall (λ i, s ≤ i)%nat (kept_slots_from slice s).
Proof.
  revert s. induction slice as [|x rest IH]; intros s; cbn; [constructor|].
  assert (Forall (λ i, s ≤ i)%nat (kept_slots_from rest (S s))) as H.
  { eapply Forall_impl; [apply IH|]. cbn. lia. }
  destruct (kept x); [constructor; [lia|]|]; exact H.
Qed.

(** Key node [j] holds the entry of slot [kept_slots !! j]. *)
Lemma kept_slots_from_lookup slice s j i :
  kept_slots_from slice s !! j = Some i →
  List.filter kept slice !! j = slice !! (i - s)%nat.
Proof.
  revert s j. induction slice as [|x rest IH]; intros s j; cbn; [done|].
  pose proof (kept_slots_from_ge rest (S s)) as Hge.
  destruct (kept x).
  - destruct j as [|j]; cbn.
    + intros [= <-]. by rewrite Nat.sub_diag.
    + intros H. transitivity (rest !! (i - S s)%nat); [exact (IH _ _ H)|].
      rewrite Forall_lookup in Hge. specialize (Hge _ _ H). cbn in Hge.
      replace (i - s)%nat with (S (i - S s)) by lia. reflexivity.
  - intros H. transitivity (rest !! (i - S s)%nat); [exact (IH _ _ H)|].
    rewrite Forall_lookup in Hge. specialize (Hge _ _ H). cbn in Hge.
    replace (i - s)%nat with (S (i - S s)) by lia. reflexivity.
Qed.

Lemma filter_kept_nil slice :
  List.filter kept slice = [] ↔ forallb (λ y, negb (kept y)) slice = true.
Proof.
  induction slice as [|x rest IH]; cbn; [done|].
  destruct (kept x); cbn; [split; discriminate|exact IH].
Qed.

Lemma kept_slots_from_trailing slice s :
  kept_slots_from slice s = seq s (length (List.filter kept slice))
  ↔ sentinels_trailing slice = true.
Proof.
  revert s. induction slice as [|x rest IH]; intros s; cbn; [done|].
  destruct (kept x); cbn.
  - rewrite <- (IH (S s)). split; [intros [= H]; exact H|intros ->; done].
  - rewrite <- filter_kept_nil. split.
    + intros H. destruct (List.filter kept rest) as [|y l] eqn:E; [done|].
      cbn in H. pose proof (kept_slots_from_ge rest (S s)) as Hge.
      rewrite H in Hge. apply Forall_cons in Hge as [Hge _]. lia.
    + intros E. pose proof (kept_slots_from_length rest (S s)) as Hl.
      rewrite E in *. cbn in *.
      by destruct (kept_slots_from rest (S s)).
Qed.

(** C9.  The model of table [t] holds the key of the table, filtered of
    its sentinel entries, and, for a key of [k] nodes, the [k]
    interpolants at the positions [t * numPrimary] to
    [t * numPrimary + k - 1] of the array of sub-table interpolants,
    whichever slots the key nodes came from.  Key node [j] comes from
    slot [kept_slots !! j] and is paired with the sub-table of slot [j];
    the two agree for every node exactly when the entries that are not
    kept occupy the trailing slots of the slice.  The table has a key
    ([numPrimary] is not 0), as every table that [createPVTFunction] hands
    to [createLiveOil]. *)
Theorem createLiveOil_pairs_key_with_leading_subtables
    (raw : ECLPropTableRawData) (usys : Z)
    (cvrt : Converter * ConvertUnits)
    (sti : list SubtableInterpolant) (t : N) :
  sizes_exact raw = true →
  0 < numPrimary raw →
  liveOilUnitConverter usys = Ok cvrt →
  fromRawData raw (createLiveOil_factory cvrt) = Ok sti →
  t < numTables raw →
  ∃ ms key propInterp,
    createLiveOil raw usys = Ok ms
    ∧ ms !! N.to_nat t = Some (live (LiveOil_new key propInterp))
    ∧ key = map cvrt.1 (List.filter kept (table_key raw t))
    ∧ length propInterp = length key
    ∧ (∀ j, (j < length key)%nat →
         is_Some (propInterp !! j)
         ∧ propInterp !! j
           = sti !! (N.to_nat (t * numPrimary raw) + j)%nat)
    ∧ length (kept_slots (table_key raw t)) = length key
    ∧ (∀ j s, kept_slots (table_key raw t) !! j = Some s →
         key !! j = cvrt.1 <$> table_key raw t !! s)
    ∧ (kept_slots (table_key raw t) = seq 0 (length key)
       ↔ sentinels_trailing (table_key raw t) = true).
Proof.
  intros Hs Hnp Hc Hsti Ht.
  destruct (createLiveOil_lookup raw usys cvrt sti t Hs
              (proj2 (sizes_exact_capacity raw Hs) Hnp) Hc Hsti Ht)
    as (ms & Hms & _ & Hlook).
  pose proof (fromRawData_size raw _ sti Hs Hsti) as Hsize.
  set (key := map cvrt.1 (List.filter kept (table_key raw t))).
  assert (length key ≤ N.to_nat (numPrimary raw))%nat as Hk.
  { unfold key. rewrite length_map.
    pose proof (filter_kept_length_le (table_key raw t)) as Hle.
    by rewrite (table_key_length raw t Hs Ht) in Hle. }
  assert (N.to_nat (t * numPrimary raw) + length key ≤ length sti)%nat
    as Hin.
  { unfold size in Hsize. nia. }
  exists ms, key, (take (length key) (drop (N.to_nat (t * numPrimary raw)) sti)).
  split; [exact Hms|]. split; [exact Hlook|]. split; [reflexivity|].
  split; [rewrite length_take, length_drop; lia|].
  split; [|split; [|split]].
  - intros j Hj. rewrite lookup_take_lt, lookup_drop by exact Hj.
    split; [|reflexivity]. apply lookup_lt_is_Some. lia.
  - unfold kept_slots, key.
    by rewrite kept_slots_from_length, length_map.
  - intros j s Hjs. unfold key. rewrite list_lookup_fmap.
    rewrite (kept_slots_from_lookup _ 0 j s Hjs).
    by rewrite Nat.sub_0_r.
  - unfold kept_slots, key. rewrite length_map.
    apply kept_slots_from_trailing.
Qed.
End LiveOilTables.

Section Copies.
Context {C : Collaborators}.

Abbreviation res := (result collab_exn).

(** *** Queries see the contents of an object only *)

Lemma accessor_ext {A} (ms1 ms2 : gmap positive PVxO) (i1 i2 : Impl)
    (r : N) (k : PVxO → res A) :
  map (λ q, ms1 !! q) (eval_ i1) = map (λ q, ms2 !! q) (eval_ i2) →
  (_ ← validateRegIdx i1 r; p ← at_ (eval_ i1) r; m ← deref ms1 p; k m)
  = (_ ← validateRegIdx i2 r; p ← at_ (eval_ i2) r; m ← deref ms2 p; k m).
Proof.
  intros Hv.
  assert (length (eval_ i1) = length (eval_ i2)) as Hlen.
  { apply (f_equal length) in Hv. by rewrite !length_map in Hv. }
  rewrite !validateRegIdx_spec. unfold size. rewrite Hlen.
  destruct (N.of_nat (length (eval_ i2)) <=? r); [reflexivity|].
  cbn [mbind result_bind bind]. unfold at_.
  apply (f_equal (λ l, l !! N.to_nat r)) in Hv.
  rewrite !list_lookup_fmap in Hv.
  destruct (eval_ i1 !! N.to_nat r) as [p1|],
           (eval_ i2 !! N.to_nat r) as [p2|]; cbn in Hv; try discriminate;
    [|reflexivity].
  injection Hv as Hv. cbn [mbind result_bind bind]. unfold deref.
  rewrite Hv. reflexivity.
Qed.

Lemma density_ext (i1 i2 : Impl) (r : N) :
  length (eval_ i1) = length (eval_ i2) → rhoS_ i1 = rhoS_ i2 →
  Impl_surfaceMassDensity (C:=C) i1 r = Impl_surfaceMassDensity i2 r.
Proof.
  intros Hlen Hrho. unfold Impl_surfaceMassDensity.
  rewrite !validateRegIdx_spec. unfold size. rewrite Hlen, Hrho.
  reflexivity.
Qed.

Lemma ask_None st x q : contents st x = None → ask st x q = Undefined.
Proof.
  unfold contents, impl_view.
  destruct q; cbn; unfold Oil_formationVolumeFactor, Oil_viscosity,
    Oil_surfaceMassDensity, Oil_getPvtCurve, deref_ptr, deref;
    destruct (objects st !! x) as [[[p|]]|]; cbn; try reflexivity;
    destruct (impls st !! p); cbn; try reflexivity; discriminate.
Qed.

Lemma ask_ext st1 st2 x y :
  contents st1 x = contents st2 y → ∀ q, ask st1 x q = ask st2 y q.
Proof.
  intros Hc q.
  destruct (contents st1 x) as [[v rho]|] eqn:H1.
  2:{ rewrite (ask_None st1 x q H1), (ask_None st2 y q); done. }
  symmetry in Hc. revert H1 Hc. unfold contents, impl_view.
  destruct (objects st1 !! x) as [[[p1|]]|] eqn:Ho1; cbn; try discriminate.
  destruct (impls st1 !! p1) as [i1|] eqn:Hi1; cbn; try discriminate.
  intros [= <- <-].
  destruct (objects st2 !! y) as [[[p2|]]|] eqn:Ho2; cbn; try discriminate.
  destruct (impls st2 !! p2) as [i2|] eqn:Hi2; cbn; try discriminate.
  intros [= Hv Hrho]. symmetry in Hv.
  assert (length (eval_ i1) = length (eval_ i2)) as Hlen.
  { apply (f_equal length) in Hv. by rewrite !length_map in Hv. }
  destruct q; cbn [ask]; unfold Oil_formationVolumeFactor, Oil_viscosity,
    Oil_surfaceMassDensity, Oil_getPvtCurve, deref_ptr, deref;
    rewrite Ho1, Ho2; cbn [mbind result_bind bind pImpl_];
    rewrite Hi1, Hi2; cbn [mbind result_bind bind].
  - unfold Impl_formationVolumeFactor.
    by rewrite (accessor_ext (models st1) (models st2) i1 i2 _ _ Hv).
  - unfold Impl_viscosity.
    by rewrite (accessor_ext (models st1) (models st2) i1 i2 _ _ Hv).
  - by rewrite (density_ext i1 i2 _ Hlen (eq_sym Hrho)).
  - unfold Impl_getPvtCurve.
    by rewrite (accessor_ext (models st1) (models st2) i1 i2 _ _ Hv).
Qed.

(** *** Allocation and deallocation of models *)

Lemma new_fresh {A} (m : gmap positive A) (v : A) :
  m !! (new m v).1 = None ∧ (new m v).2 = <[(new m v).1 := v]> m.
Proof.
  unfold new. cbn. split; [|reflexivity].
  apply not_elem_of_dom, is_fresh.
Qed.

Lemma clone_loop_spec (src : list positive) :
  ∀ (ms : gmap positive PVxO) dest,
    (∀ p, p ∈ src → is_Some (ms !! p)) →
    ∃ fresh_ps ms',
      clone_loop src ms dest = Ok (dest ++ fresh_ps, ms')
      ∧ ms ⊆ ms'
      ∧ (∀ q, q ∈ fresh_ps → ms !! q = None)
      ∧ (∀ q, is_Some (ms' !! q) ↔ is_Some (ms !! q) ∨ q ∈ fresh_ps)
      ∧ NoDup fresh_ps
      ∧ map (λ q, ms' !! q) fresh_ps = map (λ q, ms !! q) src.
Proof.
  induction src as [|p src IH]; intros ms dest Hsrc; cbn [clone_loop].
  - exists [], ms. rewrite app_nil_r.
    split; [done|]. split; [done|]. split; [|split; [|split]].
    + intros q Hq. by apply elem_of_nil in Hq.
    + intros q. rewrite elem_of_nil. tauto.
    + constructor.
    + reflexivity.
  - destruct (Hsrc p ltac:(left)) as [m Hm].
    unfold deref. rewrite Hm. cbn [mbind result_bind bind].
    destruct (new_fresh ms (clone m)) as [Hq Hms1].
    destruct (new ms (clone m)) as [q ms1]. cbn [fst snd] in Hq, Hms1.
    subst ms1.
    assert (ms ⊆ <[q := clone m]> ms) as Hsub by by apply insert_subseteq.
    destruct (IH (<[q := clone m]> ms) (dest ++ [q]))
      as (ps & ms' & Hrun & Hsub' & Hnone & Hdom & Hnd & Hmap).
    { intros p' Hp'. destruct (Hsrc p' ltac:(by right)) as [m' Hm'].
      exists m'. by eapply lookup_weaken. }
    exists (q :: ps), ms'. rewrite Hrun, <- app_assoc. cbn [app].
    split; [reflexivity|]. split; [by etrans|].
    assert (q ∉ ps) as Hqps.
    { intros Hin. specialize (Hnone q Hin).
      by rewrite lookup_insert_eq in Hnone. }
    split; [|split; [|split]].
    + intros q' [->|Hin]%elem_of_cons; [done|].
      specialize (Hnone q' Hin).
      by apply lookup_insert_None in Hnone as [? _].
    + intros q'. rewrite Hdom, lookup_insert_is_Some', elem_of_cons.
      split; [intros [[->|?]|?]; auto | intros [?|[->|?]]; auto].
    + by constructor.
    + cbn [map]. f_equal.
      * rewrite Hm, <- (clone_id m). eapply lookup_weaken; [|exact Hsub'].
        by rewrite lookup_insert_eq.
      * rewrite Hmap. apply map_ext_in. intros p' Hp'.
        apply list_elem_of_In in Hp'.
        destruct (Hsrc p' ltac:(by right)) as [m' Hm'].
        rewrite Hm'. by eapply lookup_weaken.
Qed.

Lemma place_models_spec (built : list PVxO) :
  ∀ (ms : gmap positive PVxO) ps,
    ∃ fresh_ps ms',
      place_models built ms ps = (ps ++ fresh_ps, ms')
      ∧ ms ⊆ ms'
      ∧ (∀ q, q ∈ fresh_ps → ms !! q = None)
      ∧ (∀ q, is_Some (ms' !! q) ↔ is_Some (ms !! q) ∨ q ∈ fresh_ps)
      ∧ NoDup fresh_ps
      ∧ map (λ q, ms' !! q) fresh_ps = map Some built.
Proof.
  induction built as [|m built IH]; intros ms ps; cbn [place_models].
  - exists [], ms. rewrite app_nil_r.
    split; [done|]. split; [done|]. split; [|split; [|split]].
    + intros q Hq. by apply elem_of_nil in Hq.
    + intros q. rewrite elem_of_nil. tauto.
    + constructor.
    + reflexivity.
  - destruct (new_fresh ms m) as [Hq Hms1].
    destruct (new ms m) as [q ms1]. cbn [fst snd] in Hq, Hms1. subst ms1.
    assert (ms ⊆ <[q := m]> ms) as Hsub by by apply insert_subseteq.
    destruct (IH (<[q := m]> ms) (ps ++ [q]))
      as (qs & ms' & Hrun & Hsub' & Hnone & Hdom & Hnd & Hmap).
    exists (q :: qs), ms'. rewrite Hrun, <- app_assoc. cbn [app].
    split; [reflexivity|]. split; [by etrans|].
    assert (q ∉ qs) as Hqps.
    { intros Hin. specialize (Hnone q Hin).
      by rewrite lookup_insert_eq in Hnone. }
    split; [|split; [|split]].
    + intros q' [->|Hin]%elem_of_cons; [done|].
      specialize (Hnone q' Hin).
      by apply lookup_insert_None in Hnone as [? _].
    + intros q'. rewrite Hdom, lookup_insert_is_Some', elem_of_cons.
      split; [intros [[->|?]|?]; auto | intros [?|[->|?]]; auto].
    + by constructor.
    + cbn [map]. f_equal; [|exact Hmap].
      eapply lookup_weaken; [|exact Hsub']. by rewrite lookup_insert_eq.
Qed.

(** A vector with an element cannot be destroyed: its first element is
    deleted through a pointer to [PVxOBase]. *)
Lemma delete_models_cons (p : positive) (ps : list positive)
    (ms : gmap positive PVxO) :
  delete_models (C:=C) (p :: ps) ms = Undefined.
Proof.
  cbn [delete_models]. unfold deref.
  destruct (ms !! p) as [[d|l]|]; reflexivity.
Qed.

Lemma delete_models_nil (ps : list positive) (ms ms' : gmap positive PVxO) :
  delete_models (C:=C) ps ms = Ok ms' ↔ ps = [] ∧ ms' = ms.
Proof.
  destruct ps as [|p ps].
  - cbn. split; [by intros [= <-]|by intros [_ ->]].
  - rewrite delete_models_cons. split; [discriminate|by intros [? _]].
Qed.

Lemma delete_models_Ok (ps : list positive) :
  ∀ (ms ms' : gmap positive PVxO),
    delete_models (C:=C) ps ms = Ok ms' →
    ∀ q, ms' !! q = if decide (q ∈ ps) then None else ms !! q.
Proof.
  intros ms ms' [-> ->]%delete_models_nil q.
  destruct (decide (q ∈ [])) as [H|]; [|done]. by apply elem_of_nil in H.
Qed.

(** *** Steps on a store *)

Lemma well_formed_empty : well_formed empty_store.
Proof. split; cbn; intros *; by rewrite lookup_empty. Qed.

Lemma impl_view_weaken st ms' p i :
  well_formed st → models st ⊆ ms' → impls st !! p = Some i →
  map (λ q, ms' !! q) (eval_ i) = map (λ q, models st !! q) (eval_ i).
Proof.
  intros Hwf Hsub Hi. apply map_ext_in. intros q Hq.
  apply list_elem_of_In in Hq.
  destruct (wf_models st Hwf p i q Hi Hq) as [m Hm].
  rewrite Hm. by eapply lookup_weaken.
Qed.

(** A new [Impl] over models that were just placed. *)
Lemma add_impl_spec st ms' ps rho p :
  well_formed st →
  models st ⊆ ms' →
  (∀ q, q ∈ ps → models st !! q = None) →
  (∀ q, q ∈ ps → is_Some (ms' !! q)) →
  NoDup ps →
  impls st !! p = None →
  let st1 := {| models := ms';
                impls := <[p := {| eval_ := ps; rhoS_ := rho |}]> (impls st);
                objects := objects st |} in
  well_formed st1
  ∧ unowned st1 p
  ∧ (∀ p0, is_Some (impls st !! p0) → impl_view st1 p0 = impl_view st p0)
  ∧ (∀ y, contents st1 y = contents st y)
  ∧ impl_view st1 p = Some (map (λ q, ms' !! q) ps, rho).
Proof.
  intros Hwf Hsub Hnone Hsome Hnd Hp st1.
  assert (Hview : ∀ p0, is_Some (impls st !! p0) →
                        impl_view st1 p0 = impl_view st p0).
  { intros p0 [i Hi]. unfold impl_view, st1. cbn.
    rewrite lookup_insert_ne by (intros <-; congruence). rewrite Hi. cbn.
    by rewrite (impl_view_weaken st ms' p0 i Hwf Hsub Hi). }
  split; [|split; [|split; [|split]]].
  - split; cbn.
    + intros x o p0 Ho Hp0. apply lookup_insert_is_Some'. right.
      exact (wf_impl st Hwf x o p0 Ho Hp0).
    + exact (wf_unique st Hwf).
    + intros p0 i q. rewrite lookup_insert_Some.
      intros [[<- <-]|[Hne Hi]] Hq; cbn in *; [by apply Hsome|].
      eapply lookup_weaken_is_Some; [|exact Hsub].
      exact (wf_models st Hwf p0 i q Hi Hq).
    + intros p0 p' i i' q. rewrite !lookup_insert_Some.
      intros [[<- <-]|[Hne Hi]] [[<- <-]|[Hne' Hi']] Hq Hq'; cbn in *;
        try done.
      * destruct (wf_models st Hwf p' i' q Hi' Hq') as [m Hm].
        rewrite (Hnone q Hq) in Hm. discriminate.
      * destruct (wf_models st Hwf p0 i q Hi Hq) as [m Hm].
        rewrite (Hnone q Hq') in Hm. discriminate.
      * exact (wf_disjoint st Hwf p0 p' i i' q Hi Hi' Hq Hq').
    + intros p0 i. rewrite lookup_insert_Some.
      intros [[<- <-]|[Hne Hi]]; cbn; [done|].
      exact (wf_nodup st Hwf p0 i Hi).
  - intros y o Ho Hpo. cbn in Ho.
    destruct (wf_impl st Hwf y o p Ho Hpo) as [i Hi]. congruence.
  - exact Hview.
  - intros y. unfold contents. cbn.
    destruct (objects st !! y) as [[[p0|]]|] eqn:Ho; cbn; try reflexivity.
    apply Hview. exact (wf_impl st Hwf y _ p0 Ho eq_refl).
  - unfold impl_view, st1. cbn. by rewrite lookup_insert_eq.
Qed.

(** Assignment to a [pImpl_], of null or of a pointer no other object
    holds. *)
Lemma set_pImpl_spec st x v :
  well_formed st →
  (∀ p, v = Some p → is_Some (impls st !! p) ∧ unowned_but st x p) →
  well_formed (set_pImpl x v st)
  ∧ (∀ y, y ≠ x → contents (set_pImpl x v st) y = contents st y)
  ∧ contents (set_pImpl x v st) x = (v ≫= impl_view st)
  ∧ (∀ y, is_Some (objects st !! y) →
          is_Some (objects (set_pImpl x v st) !! y))
  ∧ is_Some (objects (set_pImpl x v st) !! x).
Proof.
  intros Hwf Hv. split; [|split; [|split; [|split]]].
  - split; cbn.
    + intros y o p. rewrite lookup_insert_Some.
      intros [[<- <-]|[Hne Ho]] Hp; cbn in *.
      * by apply Hv.
      * exact (wf_impl st Hwf y o p Ho Hp).
    + intros y z oy oz p. rewrite !lookup_insert_Some.
      intros [[<- <-]|[Hne Ho]] [[<- <-]|[Hne' Ho']] Hp Hp'; cbn in *;
        try done.
      * symmetry. exact (proj2 (Hv p Hp) z oz Ho' Hp').
      * exact (proj2 (Hv p Hp') y oy Ho Hp).
      * exact (wf_unique st Hwf y z oy oz p Ho Ho' Hp Hp').
    + exact (wf_models st Hwf).
    + exact (wf_disjoint st Hwf).
    + exact (wf_nodup st Hwf).
  - intros y Hne. unfold contents. cbn.
    by rewrite lookup_insert_ne.
  - unfold contents. cbn. by rewrite lookup_insert_eq.
  - intros y Hy. cbn. apply lookup_insert_is_Some'. by right.
  - cbn. rewrite lookup_insert_eq. eauto.
Qed.

(** What an object pointed to before an assignment, nobody points to
    after it. *)
Lemma set_pImpl_unowned st x v t old :
  well_formed st →
  objects st !! x = Some t → pImpl_ t = Some old → v ≠ Some old →
  unowned (set_pImpl x v st) old.
Proof.
  intros Hwf Hx Ht Hv y o. cbn. rewrite lookup_insert_Some.
  intros [[<- <-]|[Hne Ho]]; cbn; [done|].
  intros Hp. apply Hne. exact (wf_unique st Hwf x y t o old Hx Ho Ht Hp).
Qed.

(** Deleting an [Impl] nobody points to. *)
Lemma delete_Impl_spec st p st' :
  well_formed st → unowned st p →
  delete_Impl p st = Ok st' →
  well_formed st'
  ∧ objects st' = objects st
  ∧ (∀ y, contents st' y = contents st y).
Proof.
  intros Hwf Hun H. unfold delete_Impl in H.
  apply bind_Ok in H as (i & Hi & H).
  apply bind_Ok in H as (ms' & Hdel & [= <-]).
  unfold deref in Hi. destruct (impls st !! p) as [i0|] eqn:Hp;
    [injection Hi as ->|discriminate].
  pose proof (delete_models_Ok _ _ _ Hdel) as Hms.
  assert (Hkeep : ∀ p0 i0 q, p0 ≠ p → impls st !! p0 = Some i0 →
                             q ∈ eval_ i0 → ms' !! q = models st !! q).
  { intros p0 i0 q Hne Hi0 Hq. rewrite Hms, decide_False; [done|].
    intros Hq'. apply Hne.
    exact (wf_disjoint st Hwf p0 p i0 i q Hi0 Hp Hq Hq'). }
  split; [|split].
  - split; cbn.
    + intros x o p0 Ho Hp0. rewrite lookup_delete_ne.
      * exact (wf_impl st Hwf x o p0 Ho Hp0).
      * intros <-. exact (Hun x o Ho Hp0).
    + exact (wf_unique st Hwf).
    + intros p0 i0 q. rewrite lookup_delete_Some. intros [Hne Hi0] Hq.
      rewrite (Hkeep p0 i0 q) by done.
      exact (wf_models st Hwf p0 i0 q Hi0 Hq).
    + intros p0 p' i0 i' q. rewrite !lookup_delete_Some.
      intros [_ Hi0] [_ Hi']. exact (wf_disjoint st Hwf p0 p' i0 i' q Hi0 Hi').
    + intros p0 i0. rewrite lookup_delete_Some. intros [_ Hi0].
      exact (wf_nodup st Hwf p0 i0 Hi0).
  - reflexivity.
  - intros y. unfold contents, impl_view. cbn.
    destruct (objects st !! y) as [[[p0|]]|] eqn:Ho; cbn; try reflexivity.
    assert (p0 ≠ p) as Hne by (intros ->; exact (Hun y _ Ho eq_refl)).
    rewrite lookup_delete_ne by done.
    destruct (impls st !! p0) as [i0|] eqn:Hi0; cbn; [|reflexivity].
    do 2 f_equal. apply map_ext_in. intros q Hq.
    apply list_elem_of_In in Hq. by apply (Hkeep p0 i0).
Qed.

(** An [Impl] can be deleted exactly when its vector is empty. *)
Lemma delete_Impl_empty st p i :
  impls st !! p = Some i → eval_ i = [] →
  delete_Impl p st = Ok (with_impls (delete p (impls st)) st).
Proof.
  intros Hi He. unfold delete_Impl, deref. rewrite Hi.
  cbn [mbind result_bind bind]. rewrite He. reflexivity.
Qed.

Lemma delete_Impl_Undefined st p i :
  impls st !! p = Some i → eval_ i ≠ [] →
  delete_Impl p st = Undefined.
Proof.
  intros Hi He. unfold delete_Impl, deref. rewrite Hi.
  cbn [mbind result_bind bind].
  destruct (eval_ i) as [|q ps]; [done|].
  by rewrite delete_models_cons.
Qed.

Lemma delete_Impl_total st p i :
  impls st !! p = Some i → eval_ i = [] →
  ∃ st', delete_Impl p st = Ok st'.
Proof. intros Hi He. rewrite (delete_Impl_empty st p i Hi He). eauto. Qed.

Lemma delete_ptr_spec st old st' :
  well_formed st → (∀ p, old = Some p → unowned st p) →
  delete_ptr old st = Ok st' →
  well_formed st'
  ∧ objects st' = objects st
  ∧ (∀ y, contents st' y = contents st y).
Proof.
  intros Hwf Hun. destruct old as [p|]; cbn.
  - apply delete_Impl_spec; [done|]. by apply Hun.
  - intros [= <-]. done.
Qed.

Lemma delete_ptr_total st old :
  (∀ p, old = Some p → ∃ i, impls st !! p = Some i ∧ eval_ i = []) →
  ∃ st', delete_ptr old st = Ok st'.
Proof.
  intros Hin. destruct old as [p|]; cbn; [|eauto].
  destruct (Hin p eq_refl) as (i & Hi & He).
  exact (delete_Impl_total st p i Hi He).
Qed.

Lemma delete_ptr_Undefined st p i :
  impls st !! p = Some i → eval_ i ≠ [] →
  delete_ptr (Some p) st = Undefined.
Proof. exact (delete_Impl_Undefined st p i). Qed.

(** *** The copy and move operations, one by one *)

Lemma deref_Ok {A} (m : gmap positive A) p a :
  deref (C:=C) m p = Ok a ↔ m !! p = Some a.
Proof.
  unfold deref. destruct (m !! p); split; intros H; try discriminate;
    congruence.
Qed.

Lemma deref_ptr_Ok {A} (m : gmap positive A) v a :
  deref_ptr (C:=C) m v = Ok a ↔ ∃ p, v = Some p ∧ m !! p = Some a.
Proof.
  destruct v as [p|]; cbn.
  - rewrite deref_Ok. split; [eauto|]. by intros (? & [= <-] & ?).
  - split; [discriminate|]. by intros (? & ? & ?).
Qed.

Lemma fresh_None {A} (m : gmap positive A) : m !! fresh (dom m) = None.
Proof. apply not_elem_of_dom, is_fresh. Qed.

(** The new [Impl] of a copy: a store with one more [Impl], nobody's yet,
    that holds what the source holds. *)
Lemma Impl_copy_step st pr i :
  well_formed st → impls st !! pr = Some i →
  ∃ i' ms',
    Impl_copy i (models st) = Ok (i', ms')
    ∧ let p := fresh (dom (impls st)) in
      let st1 := {| models := ms'; impls := <[p := i']> (impls st);
                    objects := objects st |} in
      well_formed st1
      ∧ unowned st1 p
      ∧ (∀ y, contents st1 y = contents st y)
      ∧ impl_view st1 p = impl_view st pr.
Proof.
  intros Hwf Hi.
  destruct (clone_loop_spec (eval_ i) (models st) [])
    as (ps & ms' & Hrun & Hsub & Hnone & Hdom & Hnd & Hmap).
  { intros q Hq. exact (wf_models st Hwf pr i q Hi Hq). }
  exists {| eval_ := ps; rhoS_ := rhoS_ i |}, ms'.
  split.
  { unfold Impl_copy, clone_vector. rewrite Hrun. reflexivity. }
  intros p st1.
  destruct (add_impl_spec st ms' ps (rhoS_ i) p Hwf Hsub Hnone)
    as (Hwf1 & Hun & _ & Hc & Hv).
  - intros q Hq. apply Hdom. by right.
  - exact Hnd.
  - apply fresh_None.
  - split; [exact Hwf1|]. split; [exact Hun|]. split; [exact Hc|].
    fold st1 in Hv. rewrite Hv. unfold impl_view. rewrite Hi. cbn.
    by rewrite Hmap.
Qed.

Lemma Oil_copy_spec st rhs this st' :
  well_formed st →
  Oil_copy rhs st = Ok (this, st') →
  well_formed st'
  ∧ contents st' this = contents st rhs
  ∧ is_Some (objects st' !! this)
  ∧ ∀ y, is_Some (objects st !! y) →
         contents st' y = contents st y ∧ is_Some (objects st' !! y).
Proof.
  intros Hwf H. unfold Oil_copy in H.
  apply bind_Ok in H as (r & Hr%deref_Ok & H).
  apply bind_Ok in H as (i & (pr & Hpr & Hi)%deref_ptr_Ok & H).
  apply bind_Ok in H as ([i' ms'] & Hcopy & H).
  destruct (Impl_copy_step st pr i Hwf Hi)
    as (i2 & ms2 & Hcopy2 & Hwf1 & Hun & Hc & Hv).
  rewrite Hcopy in Hcopy2. injection Hcopy2 as <- <-.
  unfold new in H. cbn in H. injection H as <- <-.
  set (p := fresh (dom (impls st))) in *.
  set (x := fresh (dom (objects st))) in *.
  set (st1 := {| models := ms'; impls := <[p := i']> (impls st);
                 objects := objects st |}) in *.
  destruct (set_pImpl_spec st1 x (Some p) Hwf1)
    as (Hwf2 & Hother & Hx & Hkeep & Hnew).
  { intros ? [= <-]. split.
    - cbn. rewrite lookup_insert_eq. eauto.
    - intros y o Ho Hp. destruct (Hun y o Ho Hp). }
  change (well_formed (set_pImpl x (Some p) st1)
    ∧ contents (set_pImpl x (Some p) st1) x = contents st rhs
    ∧ is_Some (objects (set_pImpl x (Some p) st1) !! x)
    ∧ ∀ y, is_Some (objects st !! y) →
           contents (set_pImpl x (Some p) st1) y = contents st y
           ∧ is_Some (objects (set_pImpl x (Some p) st1) !! y)).
  split; [exact Hwf2|]. split; [|split; [exact Hnew|]].
  - rewrite Hx. cbn. rewrite Hv. unfold contents. rewrite Hr. cbn.
    rewrite Hpr. reflexivity.
  - intros y Hy. split; [|by apply Hkeep].
    rewrite Hother, Hc; [done|]. intros ->.
    pose proof (fresh_None (objects st)) as Hf. fold x in Hf.
    rewrite Hf in Hy. by destruct Hy.
Qed.

Lemma Oil_copy_total st rhs :
  well_formed st → is_Some (contents st rhs) →
  ∃ this st', Oil_copy rhs st = Ok (this, st').
Proof.
  intros Hwf [c Hc]. unfold contents, impl_view in Hc.
  destruct (objects st !! rhs) as [[[pr|]]|] eqn:Hr; try discriminate.
  cbn in Hc. destruct (impls st !! pr) as [i|] eqn:Hi; try discriminate.
  destruct (Impl_copy_step st pr i Hwf Hi) as (i' & ms' & Hcopy & _).
  unfold Oil_copy, deref. rewrite Hr. cbn. unfold deref. rewrite Hi. cbn.
  rewrite Hcopy. cbn. eauto.
Qed.

Lemma Oil_copy_assign_spec st this rhs st' :
  well_formed st →
  Oil_copy_assign this rhs st = Ok st' →
  well_formed st'
  ∧ contents st' this = contents st rhs
  ∧ ∀ y, is_Some (objects st !! y) →
         is_Some (objects st' !! y)
         ∧ (y ≠ this → contents st' y = contents st y).
Proof.
  intros Hwf H. unfold Oil_copy_assign in H.
  apply bind_Ok in H as (r & Hr%deref_Ok & H).
  apply bind_Ok in H as (i & (pr & Hpr & Hi)%deref_ptr_Ok & H).
  apply bind_Ok in H as ([i' ms'] & Hcopy & H).
  destruct (Impl_copy_step st pr i Hwf Hi)
    as (i2 & ms2 & Hcopy2 & Hwf1 & Hun & Hc & Hv).
  rewrite Hcopy in Hcopy2. injection Hcopy2 as <- <-.
  unfold new in H. cbn in H.
  apply bind_Ok in H as (t & Ht%deref_Ok & H).
  set (p := fresh (dom (impls st))) in *.
  set (st1 := {| models := ms'; impls := <[p := i']> (impls st);
                 objects := objects st |}) in *.
  change (delete_ptr (pImpl_ t) (set_pImpl this (Some p) st1) = Ok st') in H.
  destruct (set_pImpl_spec st1 this (Some p) Hwf1)
    as (Hwf2 & Hother & Hx & Hkeep & Hnew).
  { intros ? [= <-]. split.
    - cbn. rewrite lookup_insert_eq. eauto.
    - intros y o Ho Hp. destruct (Hun y o Ho Hp). }
  assert (Hfree : ∀ old, pImpl_ t = Some old →
                         unowned (set_pImpl this (Some p) st1) old).
  { intros old Hold.
    apply (set_pImpl_unowned st1 this (Some p) t old Hwf1 Ht Hold).
    intros [= Heq]. destruct (wf_impl st Hwf this t old Ht Hold) as [? Hin].
    pose proof (fresh_None (impls st)) as Hf. fold p in Hf. congruence. }
  destruct (delete_ptr_spec _ (pImpl_ t) st' Hwf2 Hfree H)
    as (Hwf3 & Hobj & Hc3).
  split; [exact Hwf3|]. split.
  - rewrite Hc3, Hx. cbn. rewrite Hv. unfold contents. rewrite Hr. cbn.
    rewrite Hpr. reflexivity.
  - intros y Hy. split.
    + rewrite Hobj. by apply Hkeep.
    + intros Hne. by rewrite Hc3, Hother, Hc.
Qed.

Lemma Oil_copy_assign_total st this rhs t :
  well_formed st → is_Some (contents st rhs) →
  objects st !! this = Some t →
  (∀ p i, pImpl_ t = Some p → impls st !! p = Some i → eval_ i = []) →
  ∃ st', Oil_copy_assign this rhs st = Ok st'.
Proof.
  intros Hwf [c Hc] Ht Hempty. unfold contents, impl_view in Hc.
  destruct (objects st !! rhs) as [[[pr|]]|] eqn:Hr; try discriminate.
  cbn in Hc. destruct (impls st !! pr) as [i|] eqn:Hi; try discriminate.
  destruct (Impl_copy_step st pr i Hwf Hi)
    as (i' & ms' & Hcopy & Hwf1 & Hun & _).
  unfold Oil_copy_assign, deref. rewrite Hr. cbn. unfold deref.
  rewrite Hi. cbn. rewrite Hcopy. cbn. unfold deref. rewrite Ht. cbn.
  set (p := fresh (dom (impls st))) in *.
  set (st1 := {| models := ms'; impls := <[p := i']> (impls st);
                 objects := objects st |}) in *.
  destruct (set_pImpl_spec st1 this (Some p) Hwf1) as (Hwf2 & _).
  { intros ? [= <-]. split.
    - cbn. rewrite lookup_insert_eq. eauto.
    - intros y o Ho Hp. destruct (Hun y o Ho Hp). }
  apply (delete_ptr_total (set_pImpl this (Some p) st1) (pImpl_ t)).
  intros old Hold. cbn.
  destruct (wf_impl st Hwf this t old Ht Hold) as [io Hio].
  exists io. split; [|exact (Hempty old io Hold Hio)].
  rewrite lookup_insert_ne; [exact Hio|]. intros <-.
  pose proof (fresh_None (impls st)) as Hf. fold p in Hf. congruence.
Qed.

(** A pointer is followed, or the behaviour is undefined. *)
Lemma deref_cases {A} (m : gmap positive A) p :
  (∃ a, deref (C:=C) m p = Ok a) ∨ deref (C:=C) m p = Undefined.
Proof. unfold deref. destruct (m !! p); eauto. Qed.

Lemma deref_ptr_cases {A} (m : gmap positive A) v :
  (∃ a, deref_ptr (C:=C) m v = Ok a) ∨ deref_ptr (C:=C) m v = Undefined.
Proof. destruct v as [p|]; cbn; [apply deref_cases|by right]. Qed.

Lemma clone_loop_cases (src : list positive) :
  ∀ ms dest,
    (∃ r, clone_loop (C:=C) src ms dest = Ok r)
    ∨ clone_loop (C:=C) src ms dest = Undefined.
Proof.
  induction src as [|q src IH]; intros ms dest; cbn [clone_loop]; [eauto|].
  destruct (deref_cases ms q) as [[m ->]| ->]; [|by right].
  cbn [mbind result_bind bind new]. apply IH.
Qed.

(** Copy assignment to an object that holds a model ends in the deletion
    of that model. *)
Lemma Oil_copy_assign_Undefined st this rhs t p i :
  objects st !! this = Some t → pImpl_ t = Some p →
  impls st !! p = Some i → eval_ i ≠ [] →
  Oil_copy_assign this rhs st = Undefined.
Proof.
  intros Ht Hp Hi He. unfold Oil_copy_assign.
  destruct (deref_cases (objects st) rhs) as [[r ->]| ->]; [|reflexivity].
  cbn [mbind result_bind bind].
  destruct (deref_ptr_cases (impls st) (pImpl_ r)) as [[ir ->]| ->];
    [|reflexivity].
  cbn [mbind result_bind bind]. unfold Impl_copy, clone_vector.
  destruct (clone_loop_cases (eval_ ir) (models st) [])
    as [[[ps ms'] ->]| ->]; [|reflexivity].
  cbn [mbind result_bind bind new]. unfold deref at 1. rewrite Ht.
  cbn [mbind result_bind bind]. rewrite Hp.
  apply (delete_ptr_Undefined _ p i); [|exact He]. cbn.
  rewrite lookup_insert_ne; [exact Hi|]. intros E.
  pose proof (fresh_None (impls st)) as Hf. rewrite E in Hf. congruence.
Qed.
Lemma Oil_move_eq st rhs r :
  objects st !! rhs = Some r →
  Oil_move rhs st =
  Ok (fresh (dom (objects (set_pImpl rhs None st))),
      set_pImpl (fresh (dom (objects (set_pImpl rhs None st)))) (pImpl_ r)
        (set_pImpl rhs None st)).
Proof. intros Hr. unfold Oil_move, deref. rewrite Hr. reflexivity. Qed.

(** After [rhs] has released its pointer, nobody holds it. *)
Lemma released_unowned st rhs r :
  well_formed st → objects st !! rhs = Some r →
  well_formed (set_pImpl rhs None st)
  ∧ ∀ p, pImpl_ r = Some p →
         is_Some (impls (set_pImpl rhs None st) !! p)
         ∧ unowned (set_pImpl rhs None st) p.
Proof.
  intros Hwf Hr.
  destruct (set_pImpl_spec st rhs None Hwf) as (Hwf1 & _); [done|].
  split; [exact Hwf1|]. intros p Hp. split.
  - cbn. exact (wf_impl st Hwf rhs r p Hr Hp).
  - by apply (set_pImpl_unowned st rhs None r p Hwf Hr Hp).
Qed.

Lemma Oil_move_spec st rhs this st' :
  well_formed st →
  Oil_move rhs st = Ok (this, st') →
  well_formed st'
  ∧ ∀ y, is_Some (objects st !! y) →
         is_Some (objects st' !! y)
         ∧ (y ≠ rhs → contents st' y = contents st y).
Proof.
  intros Hwf H. pose proof H as H'. unfold Oil_move in H'.
  apply bind_Ok in H' as (r & Hr%deref_Ok & _).
  rewrite (Oil_move_eq st rhs r Hr) in H. injection H as <- <-.
  destruct (released_unowned st rhs r Hwf Hr) as [Hwf1 Hfree].
  destruct (set_pImpl_spec st rhs None Hwf) as (_ & Hother1 & _ & Hkeep1 & _);
    [done|].
  set (st1 := set_pImpl rhs None st) in *.
  set (x := fresh (dom (objects st1))) in *.
  destruct (set_pImpl_spec st1 x (pImpl_ r) Hwf1)
    as (Hwf2 & Hother2 & _ & Hkeep2 & _).
  { intros p Hp. destruct (Hfree p Hp) as [Hin Hun]. split; [exact Hin|].
    intros y o Ho Hpo. destruct (Hun y o Ho Hpo). }
  split; [exact Hwf2|]. intros y Hy. split; [by apply Hkeep2, Hkeep1|].
  intros Hne. rewrite Hother2, Hother1; [done..|].
  intros ->. pose proof (fresh_None (objects st1)) as Hf. fold x in Hf.
  destruct (Hkeep1 x Hy) as [? Hin]. congruence.
Qed.

Lemma Oil_move_assign_spec st this rhs st' :
  well_formed st →
  Oil_move_assign this rhs st = Ok st' →
  well_formed st'
  ∧ ∀ y, is_Some (objects st !! y) →
         is_Some (objects st' !! y)
         ∧ (y ≠ this → y ≠ rhs → contents st' y = contents st y).
Proof.
  intros Hwf H. unfold Oil_move_assign in H.
  apply bind_Ok in H as (r & Hr%deref_Ok & H).
  apply bind_Ok in H as (t & Ht%deref_Ok & H).
  destruct (released_unowned st rhs r Hwf Hr) as [Hwf1 Hfree].
  destruct (set_pImpl_spec st rhs None Hwf) as (_ & Hother1 & _ & Hkeep1 & _);
    [done|].
  set (st1 := set_pImpl rhs None st) in *.
  destruct (set_pImpl_spec st1 this (pImpl_ r) Hwf1)
    as (Hwf2 & Hother2 & _ & Hkeep2 & _).
  { intros p Hp. destruct (Hfree p Hp) as [Hin Hun]. split; [exact Hin|].
    intros y o Ho Hpo. destruct (Hun y o Ho Hpo). }
  assert (Hold : ∀ old, pImpl_ t = Some old →
                        unowned (set_pImpl this (pImpl_ r) st1) old).
  { intros old Hold.
    apply (set_pImpl_unowned st1 this (pImpl_ r) t old Hwf1 Ht Hold).
    intros Hp. destruct (Hfree old Hp) as [_ Hun].
    exact (Hun this t Ht Hold). }
  destruct (delete_ptr_spec _ (pImpl_ t) st' Hwf2 Hold H)
    as (Hwf3 & Hobj & Hc3).
  split; [exact Hwf3|]. intros y Hy. split.
  - rewrite Hobj. by apply Hkeep2, Hkeep1.
  - intros Hne1 Hne2. by rewrite Hc3, Hother2, Hother1.
Qed.

Lemma delete_ptr_objects st old st' :
  delete_ptr old st = Ok st' →
  objects st' = objects st
  ∧ ∀ os, delete_ptr old (with_objects os st) = Ok (with_objects os st').
Proof.
  destruct old as [p|]; cbn; [|by intros [= <-]].
  unfold delete_Impl. intros H.
  apply bind_Ok in H as (i & Hi & H).
  apply bind_Ok in H as (ms' & Hdel & [= <-]).
  split; [reflexivity|]. intros os. cbn. rewrite Hi. cbn.
  rewrite Hdel. reflexivity.
Qed.

Lemma remove_object_spec st x :
  well_formed st →
  well_formed (with_objects (delete x (objects st)) st)
  ∧ ∀ y, y ≠ x →
         contents (with_objects (delete x (objects st)) st) y = contents st y.
Proof.
  intros Hwf. split.
  - split; cbn.
    + intros y o p. rewrite lookup_delete_Some. intros [_ Ho].
      exact (wf_impl st Hwf y o p Ho).
    + intros y z oy oz p. rewrite !lookup_delete_Some. intros [_ Ho] [_ Ho'].
      exact (wf_unique st Hwf y z oy oz p Ho Ho').
    + exact (wf_models st Hwf).
    + exact (wf_disjoint st Hwf).
    + exact (wf_nodup st Hwf).
  - intros y Hne. unfold contents. cbn. by rewrite lookup_delete_ne.
Qed.

Lemma Oil_delete_spec st this st' :
  well_formed st →
  Oil_delete this st = Ok st' →
  well_formed st'
  ∧ ∀ y, is_Some (objects st !! y) → y ≠ this →
         is_Some (objects st' !! y) ∧ contents st' y = contents st y.
Proof.
  intros Hwf H. unfold Oil_delete in H.
  apply bind_Ok in H as (t & Ht%deref_Ok & H).
  apply bind_Ok in H as (st1 & Hdel & [= <-]).
  destruct (delete_ptr_objects st (pImpl_ t) st1 Hdel) as [Hobj Hany].
  destruct (set_pImpl_spec st this None Hwf) as (Hwfa & Hothera & _);
    [done|].
  specialize (Hany (objects (set_pImpl this None st))).
  change (with_objects (objects (set_pImpl this None st)) st)
    with (set_pImpl this None st) in Hany.
  assert (Hold : ∀ old, pImpl_ t = Some old →
                        unowned (set_pImpl this None st) old).
  { intros old Hold.
    by apply (set_pImpl_unowned st this None t old Hwf Ht Hold). }
  destruct (delete_ptr_spec _ (pImpl_ t) _ Hwfa Hold Hany)
    as (Hwfb & _ & Hcb).
  destruct (remove_object_spec _ this Hwfb) as [Hwfc Hcc].
  assert (with_objects
            (delete this
               (objects (with_objects (objects (set_pImpl this None st)) st1)))
            (with_objects (objects (set_pImpl this None st)) st1)
          = with_objects (delete this (objects st1)) st1) as Heq.
  { unfold with_objects, set_pImpl. cbn. rewrite Hobj.
    by rewrite delete_insert_eq. }
  rewrite Heq in Hwfc, Hcc.
  split; [exact Hwfc|]. intros y Hy Hne. split.
  - cbn. rewrite Hobj, lookup_delete_ne; done.
  - by rewrite Hcc, Hcb, Hothera.
Qed.

(** *** Programs over the operations *)

Lemma run_spec op st st' :
  well_formed st →
  run op st = Ok st' →
  well_formed st'
  ∧ ∀ y, is_Some (objects st !! y) → y ∉ written op →
         is_Some (objects st' !! y) ∧ contents st' y = contents st y.
Proof.
  intros Hwf H. destruct op as [rhs|rhs|this rhs|this rhs|this];
    cbn [run written] in *.
  - apply bind_Ok in H as ([x st1] & H & [= <-]).
    destruct (Oil_copy_spec st rhs x st1 Hwf H) as (Hwf1 & _ & _ & Hy).
    split; [exact Hwf1|]. intros y Hin _.
    destruct (Hy y Hin). done.
  - apply bind_Ok in H as ([x st1] & H & [= <-]).
    destruct (Oil_move_spec st rhs x st1 Hwf H) as (Hwf1 & Hy).
    split; [exact Hwf1|]. intros y Hin Hout.
    destruct (Hy y Hin) as [? Hc]. split; [done|]. apply Hc.
    intros ->. apply Hout. left.
  - destruct (Oil_copy_assign_spec st this rhs st' Hwf H) as (Hwf1 & _ & Hy).
    split; [exact Hwf1|]. intros y Hin Hout.
    destruct (Hy y Hin) as [? Hc]. split; [done|]. apply Hc.
    intros ->. apply Hout. left.
  - destruct (Oil_move_assign_spec st this rhs st' Hwf H) as (Hwf1 & Hy).
    split; [exact Hwf1|]. intros y Hin Hout.
    destruct (Hy y Hin) as [? Hc]. split; [done|]. apply Hc.
    + intros ->. apply Hout. left.
    + intros ->. apply Hout. right. left.
  - destruct (Oil_delete_spec st this st' Hwf H) as (Hwf1 & Hy).
    split; [exact Hwf1|]. intros y Hin Hout. apply Hy; [done|].
    intros ->. apply Hout. left.
Qed.

Lemma run_all_spec ops :
  ∀ st st' y,
    well_formed st →
    run_all ops st = Ok st' →
    is_Some (objects st !! y) →
    Forall (λ op, y ∉ written op) ops →
    well_formed st' ∧ is_Some (objects st' !! y)
    ∧ contents st' y = contents st y.
Proof.
  induction ops as [|op ops IH]; intros st st' y Hwf H Hy Hout;
    cbn [run_all] in H.
  - injection H as <-. done.
  - apply bind_Ok in H as (st1 & Hop & H).
    apply Forall_cons in Hout as [Hout1 Hout].
    destruct (run_spec op st st1 Hwf Hop) as [Hwf1 Hframe].
    destruct (Hframe y Hy Hout1) as [Hy1 Hc1].
    destruct (IH st1 st' y Hwf1 H Hy1 Hout) as (Hwf' & Hy' & Hc').
    split; [exact Hwf'|]. split; [exact Hy'|]. by rewrite Hc', Hc1.
Qed.
(** Construction from a table keeps the store well formed, and the new
    object holds the models that were built and the densities. *)
Lemma Oil_new_spec raw usys rhoS st this st' :
  well_formed st →
  Oil_new raw usys rhoS st = Ok (this, st') →
  well_formed st'
  ∧ (∃ built, createPVTFunction raw usys = Ok built
              ∧ contents st' this = Some (map Some built, rhoS))
  ∧ ∀ y, is_Some (objects st !! y) →
         is_Some (objects st' !! y) ∧ contents st' y = contents st y.
Proof.
  intros Hwf H. unfold Oil_new in H.
  apply bind_Ok in H as ([i ms'] & Hi & H).
  unfold Impl_new in Hi. apply bind_Ok in Hi as (built & Hbuilt & Hi).
  destruct (place_models_spec built (models st) [])
    as (ps & ms2 & Hrun & Hsub & Hnone & Hdom & Hnd & Hmap).
  rewrite Hrun in Hi. cbn in Hi. injection Hi as <- <-.
  unfold new in H. cbn in H. injection H as <- <-.
  set (p := fresh (dom (impls st))) in *.
  set (x := fresh (dom (objects st))) in *.
  destruct (add_impl_spec st ms2 ps rhoS p Hwf Hsub Hnone)
    as (Hwf1 & Hun & _ & Hc & Hv).
  { intros q Hq. apply Hdom. by right. }
  { exact Hnd. }
  { apply fresh_None. }
  set (st1 := {| models := ms2;
                 impls := <[p := {| eval_ := ps; rhoS_ := rhoS |}]> (impls st);
                 objects := objects st |}) in *.
  destruct (set_pImpl_spec st1 x (Some p) Hwf1)
    as (Hwf2 & Hother & Hx & Hkeep & Hnew).
  { intros ? [= <-]. split.
    - cbn. rewrite lookup_insert_eq. eauto.
    - intros y o Ho Hp. destruct (Hun y o Ho Hp). }
  change (well_formed (set_pImpl x (Some p) st1)
    ∧ (∃ built0, createPVTFunction raw usys = Ok built0
         ∧ contents (set_pImpl x (Some p) st1) x
           = Some (map Some built0, rhoS))
    ∧ ∀ y, is_Some (objects st !! y) →
           is_Some (objects (set_pImpl x (Some p) st1) !! y)
           ∧ contents (set_pImpl x (Some p) st1) y = contents st y).
  split; [exact Hwf2|]. split.
  - exists built. split; [exact Hbuilt|]. rewrite Hx. cbn.
    rewrite Hv, Hmap. reflexivity.
  - intros y Hy. split; [by apply Hkeep|].
    rewrite Hother, Hc; [done|]. intros ->.
    pose proof (fresh_None (objects st)) as Hf. fold x in Hf.
    rewrite Hf in Hy. by destruct Hy.
Qed.

Lemma contents_object st x :
  is_Some (contents st x) → is_Some (objects st !! x).
Proof.
  unfold contents. destruct (objects st !! x); [eauto|].
  cbn. by intros [? ?].
Qed.

Lemma contents_Some st x c :
  contents st x = Some c →
  ∃ p i, objects st !! x = Some {| pImpl_ := Some p |}
         ∧ impls st !! p = Some i.
Proof.
  unfold contents, impl_view.
  destruct (objects st !! x) as [[[p|]]|]; cbn; try discriminate.
  destruct (impls st !! p) as [i|] eqn:Hi; cbn; try discriminate.
  intros _. by exists p, i.
Qed.

(** In a well-formed store two objects with contents share nothing. *)
Lemma shares_nothing_intro st a b :
  well_formed st → a ≠ b →
  is_Some (contents st a) → is_Some (contents st b) →
  shares_nothing st a b.
Proof.
  intros Hwf Hne [ca (pa & ia & Hoa & Hia)%contents_Some]
    [cb (pb & ib & Hob & Hib)%contents_Some].
  split; [exact Hne|]. exists pa, pb, ia, ib.
  assert (pa ≠ pb) as Hp.
  { intros <-. apply Hne.
    exact (wf_unique st Hwf a b _ _ pa Hoa Hob eq_refl eq_refl). }
  repeat (split; [assumption|]).
  intros q Hqa Hqb. apply Hp.
  exact (wf_disjoint st Hwf pa pb ia ib q Hia Hib Hqa Hqb).
Qed.

Lemma independent_copy_intro st a b st' :
  well_formed st' →
  a ≠ b →
  is_Some (contents st a) →
  contents st' a = contents st a →
  contents st' b = contents st a →
  independent_copy st a b st'.
Proof.
  intros Hwf Hne Hlive Hca Hcb.
  assert (is_Some (contents st' a)) as Hla by by rewrite Hca.
  assert (is_Some (contents st' b)) as Hlb by by rewrite Hcb.
  pose proof (contents_object st' a Hla) as Ha.
  pose proof (contents_object st' b Hlb) as Hb.
  split; [by apply shares_nothing_intro|]. split; [|split].
  - exact (ask_ext st' st b a Hcb).
  - exact (ask_ext st' st a a Hca).
  - intros ops st'' Hrun. split; intros Hout.
    + destruct (run_all_spec ops st' st'' a Hwf Hrun Ha Hout) as (_ & _ & Hc).
      apply ask_ext. by rewrite Hc.
    + destruct (run_all_spec ops st' st'' b Hwf Hrun Hb Hout) as (_ & _ & Hc).
      apply ask_ext. by rewrite Hc.
Qed.

Lemma Oil_copy_fresh st rhs this st' :
  Oil_copy rhs st = Ok (this, st') → objects st !! this = None.
Proof.
  intros H. unfold Oil_copy in H.
  apply bind_Ok in H as (r & _ & H).
  apply bind_Ok in H as (i & _ & H).
  apply bind_Ok in H as ([i' ms'] & _ & H).
  unfold new in H. cbn in H. injection H as <- _. apply fresh_None.
Qed.

(** Copy construction from a live object of a well-formed store succeeds
    and gives an independent copy. *)
Lemma Oil_copy_independent st a :
  well_formed st → is_Some (contents st a) →
  ∃ b st', Oil_copy a st = Ok (b, st') ∧ independent_copy st a b st'.
Proof.
  intros Hwf Hlive. pose proof (contents_object st a Hlive) as Ha.
  destruct (Oil_copy_total st a Hwf Hlive) as (b & st' & H).
  exists b, st'. split; [exact H|].
  destruct (Oil_copy_spec st a b st' Hwf H) as (Hwf' & Hcb & Hb & Hframe).
  destruct (Hframe a Ha) as [Hca Ha'].
  apply independent_copy_intro; try done.
  intros ->. rewrite (Oil_copy_fresh st b b st' H) in Ha. by destruct Ha.
Qed.

(** Copy assignment to another object, one that holds no model, succeeds
    and gives an independent copy. *)
Lemma Oil_copy_assign_independent st b a t :
  well_formed st → is_Some (contents st a) → a ≠ b →
  objects st !! b = Some t →
  (∀ p i, pImpl_ t = Some p → impls st !! p = Some i → eval_ i = []) →
  ∃ st', Oil_copy_assign b a st = Ok st' ∧ independent_copy st a b st'.
Proof.
  intros Hwf Hlive Hne Hb Hempty.
  pose proof (contents_object st a Hlive) as Ha.
  destruct (Oil_copy_assign_total st b a t Hwf Hlive Hb Hempty) as (st' & H).
  exists st'. split; [exact H|].
  destruct (Oil_copy_assign_spec st b a st' Hwf H) as (Hwf' & Hcb & Hframe).
  destruct (Hframe a Ha) as [Ha' Hca].
  apply independent_copy_intro; try done. by apply Hca.
Qed.
End Copies.

(** * The model at work on the scenarios *)

Section Scenarios.
Import Fixture.

#[local] Open Scope float_scope.

Lemma float_lists_differ (x y : float) (l l' : list float) :
  PrimFloat.ltb x y = true → x :: l ≠ y :: l'.
Proof.
  intros Hlt [= Heq _]. rewrite Heq in Hlt.
  assert (PrimFloat.leb y y = true) as Hle.
  { rewrite leb_spec. rewrite ltb_spec in Hlt. unfold SFleb, SFltb in *.
    destruct (SFcompare (Prim2SF y) (Prim2SF y)) as [[| |]|]; done. }
  apply leb_not_ltb in Hle. congruence.
Qed.

(** C1.  For a live-oil model [getPvtCurve] returns, for every curve kind
    and so for [SaturatedState] too, the graphs of its two-level
    interpolant in their construction order (gas ratio first): the swap
    of the first two columns, [repackagePvtCurve], is not applied.  On the
    live-oil table of scenario D the saturated-state graph comes back as
    (Rs, Po) = ([0, 50], [1.0e7, 2.0e7]), while the swapped form that the
    specification describes would be (Po, Rs). *)
Theorem LiveOil_getPvtCurve_SaturatedState_not_swapped :
  (∀ (C : Collaborators) (l : LiveOil) (curve : RawCurve),
     getPvtCurve l curve =
     call (PVTx_getPvtCurve (key_ (interp_ l)) (propInterp_ (interp_ l))
             curve))
  ∧ ∃ a st graphs,
      Oil_new scenarioD 1 [850] empty_store = Ok (a, st)
      ∧ Oil_getPvtCurve st a SaturatedState 0 = Ok graphs
      ∧ graphs = [ ([0; 50], [1.0e7; 2.0e7]) ]
      ∧ repackagePvtCurve graphs SaturatedState
        = [ ([1.0e7; 2.0e7], [0; 50]) ]
      ∧ graphs ≠ repackagePvtCurve graphs SaturatedState.
Proof.
  split; [reflexivity|].
  eexists _, _, _. split; [vm_compute; reflexivity|].
  split; [vm_compute; reflexivity|].
  split; [reflexivity|]. split; [reflexivity|].
  intros H. apply (f_equal (λ g : list Graph, (hd ([], []) g).1)) in H.
  cbn in H. revert H. by apply float_lists_differ.
Qed.

(** Scenario D: the key [0.0, 50.0, 1.0e21] of table 0 loses its
    sentinel. *)
Lemma extractPrimaryKey_keeps_below_sentinel_witness :
  size (table_key scenarioD 0) = numPrimary scenarioD
  ∧ extractPrimaryKey scenarioD 0 (ToSI_disGas field) =
      Ok (map (ToSI_disGas field) (List.filter kept (table_key scenarioD 0)))
  ∧ (Exists (λ x, sentinel x = true) (table_key scenarioD 0) →
     (size (map (ToSI_disGas field)
              (List.filter kept (table_key scenarioD 0)))
      < numPrimary scenarioD)%N).
Proof.
  apply (extractPrimaryKey_keeps_below_sentinel scenarioD 0
           (ToSI_disGas field)); reflexivity.
Defined.

Example scenarioD_key :
  extractPrimaryKey scenarioD 0 (ToSI_disGas metric) = Ok [0; 50]
  ∧ Exists (λ x, sentinel x = true) (table_key scenarioD 0).
Proof.
  split; [vm_compute; reflexivity|].
  do 2 apply Exists_cons_tl. apply Exists_cons_hd. reflexivity.
Qed.

(** The live-oil table with the unused slot in the middle: sub-table 1
    has no valid node. *)
Lemma createLiveOil_survives_empty_subtable_witness :
  let cvrt := (ToSI_disGas metric, deadOilUnitConverter_usys metric) in
  createLiveOil_factory cvrt {| sub_raw := scenarioGap; sub_index := 1 |}
  = Ok Linear_invalid
  ∧ ∃ sti ms,
      fromRawData scenarioGap (createLiveOil_factory cvrt) = Ok sti
      ∧ sti !! N.to_nat 1 = Some Linear_invalid
      ∧ (∀ j s, (j < numPrimary scenarioGap * numTables scenarioGap)%N →
                Linear_ctor {| sub_raw := scenarioGap; sub_index := j |}
                  (indep cvrt.2) (column cvrt.2) = inr s →
                sti !! N.to_nat j = Some s)
      ∧ createLiveOil scenarioGap 1 = Ok ms
      ∧ size ms = numTables scenarioGap
      ∧ ∀ t, (t < numTables scenarioGap)%N →
             ms !! N.to_nat t = Some (table_model scenarioGap cvrt.1 sti t).
Proof.
  intros cvrt.
  apply (createLiveOil_survives_empty_subtable (C:=test_double)
           scenarioGap 1 cvrt 1
           (test_invalid_argument "No Valid Table Nodes")).
  - reflexivity.
  - reflexivity.
  - reflexivity.
  - vm_compute. reflexivity.
  - reflexivity.
  - intros j e'. cbn. unfold build.
    destruct (nodes_of _ _ _); [intros [= <-]; reflexivity|discriminate].
Defined.

(** The same table: the key nodes come from slots 0 and 2, and are paired
    with the sub-tables of slots 0 and 1. *)
Lemma createLiveOil_pairs_key_with_leading_subtables_witness :
  let cvrt := (ToSI_disGas metric, deadOilUnitConverter_usys metric) in
  ∃ sti,
    fromRawData scenarioGap (createLiveOil_factory cvrt) = Ok sti
    ∧ ∃ ms key propInterp,
        createLiveOil scenarioGap 1 = Ok ms
        ∧ ms !! N.to_nat 0 = Some (live (LiveOil_new key propInterp))
        ∧ key = map cvrt.1 (List.filter kept (table_key scenarioGap 0))
        ∧ length propInterp = length key
        ∧ (∀ j, (j < length key)%nat →
             is_Some (propInterp !! j)
             ∧ propInterp !! j
               = sti !! (N.to_nat (0 * numPrimary scenarioGap) + j)%nat)
        ∧ length (kept_slots (table_key scenarioGap 0)) = length key
        ∧ (∀ j s, kept_slots (table_key scenarioGap 0) !! j = Some s →
             key !! j = cvrt.1 <$> table_key scenarioGap 0 !! s)
        ∧ (kept_slots (table_key scenarioGap 0) = seq 0 (length key)
           ↔ sentinels_trailing (table_key scenarioGap 0) = true).
Proof.
  intros cvrt. eexists. split; [vm_compute; reflexivity|].
  apply (createLiveOil_pairs_key_with_leading_subtables scenarioGap 1 cvrt).
  - reflexivity.
  - reflexivity.
  - reflexivity.
  - vm_compute. reflexivity.
  - reflexivity.
Defined.

Example scenarioGap_pairing :
  kept_slots (table_key scenarioGap 0) = [0; 2]%nat
  ∧ sentinels_trailing (table_key scenarioGap 0) = false
  ∧ createLiveOil scenarioGap 1 =
      Ok [ live (LiveOil_new [0; 50]
                   [ [ (1.0e7, [1; 1000; 0; 0]);
                       (3.0e7, [0.9; 1100; -5.0e-9; 5.0e-6]) ];
                     Linear_invalid ]) ].
Proof. repeat split; vm_compute; reflexivity. Qed.

(** C6.  Copy construction gives an independent copy: from a live object
    of a well-formed store it succeeds, the copy is another object with
    an [Impl] and models of its own, it answers every query (formation
    volume factor, viscosity, surface density, PVT curve) exactly as the
    source did, the source keeps its answers, and after any further
    sequence of copy, move and destroy operations that returns each of
    the two still has these answers as long as none of the operations
    writes to it.
    Copy assignment does not: [reset] deletes the [Impl] the target
    owned, and with it every model of that [Impl], through a pointer to
    [PVxOBase], whose destructor is not virtual.  So copy assignment to an
    object that holds a model is undefined behaviour; only to an object
    that holds none (one that was moved from, or a catalog without
    regions) does it give an independent copy.  On the catalog of
    scenario A and a copy of it, assignment of either to the other, or
    of one to itself, is undefined. *)
Theorem copy_assignment_deletes_through_base_pointer :
  (∀ (C : Collaborators) (st : Store) (a : positive),
     well_formed st → is_Some (contents st a) →
     ∃ b st', Oil_copy a st = Ok (b, st') ∧ independent_copy st a b st')
  ∧ (∀ (C : Collaborators) (st : Store) (b a : positive)
       (t : Oil) (p : positive) (i : Impl),
       objects st !! b = Some t → pImpl_ t = Some p →
       impls st !! p = Some i → eval_ i ≠ [] →
       Oil_copy_assign b a st = Undefined)
  ∧ (∀ (C : Collaborators) (st : Store) (b a : positive) (t : Oil),
       well_formed st → is_Some (contents st a) → a ≠ b →
       objects st !! b = Some t →
       (∀ p i, pImpl_ t = Some p → impls st !! p = Some i → eval_ i = []) →
       ∃ st', Oil_copy_assign b a st = Ok st' ∧ independent_copy st a b st')
  ∧ ∃ a st b st',
      Oil_new scenarioA 1 [850] empty_store = Ok (a, st)
      ∧ Oil_copy a st = Ok (b, st')
      ∧ a ≠ b
      ∧ (∀ q, ask st' b q = ask st a q)
      ∧ Oil_copy_assign b a st' = Undefined
      ∧ Oil_copy_assign a b st' = Undefined
      ∧ Oil_copy_assign a a st' = Undefined.
Proof.
  split; [|split; [|split]].
  - intros C. apply Oil_copy_independent.
  - intros C. apply Oil_copy_assign_Undefined.
  - intros C. apply Oil_copy_assign_independent.
  - eexists _, _, _, _. split; [vm_compute; reflexivity|].
    split; [vm_compute; reflexivity|]. split; [discriminate|].
    split; [|repeat split; vm_compute; reflexivity].
    intros q. apply ask_ext. vm_compute. reflexivity.
Qed.

(** Scenario A: the formation volume factor at 2.0e7 Pa lies between
    those of the two rows (1/1.0 and 1/0.9). *)
Example scenarioA_formationVolumeFactor :
  ∃ a st,
    Oil_new scenarioA 1 [850] empty_store = Ok (a, st)
    ∧ Oil_formationVolumeFactor st a 0 [] [2.0e7]
      = Ok [1.0526315789473684]
    ∧ Oil_surfaceMassDensity st a 0 = Ok 850.
Proof.
  eexists _, _. split; [vm_compute; reflexivity|].
  split; vm_compute; reflexivity.
Qed.

(** Scenario B: scenario A with four columns. *)
Example scenarioB_four_columns :
  createPVTFunction
    {| data := data scenarioA; primaryKey := primaryKey scenarioA;
       numPrimary := 1; numRows := 2; numCols := 4; numTables := 1 |} 1
  = Throw (invalid_argument "PVT Table for Oil Must Have Five Columns").
Proof. reflexivity. Qed.

(** Scenario C: two regions, density asked for region 5. *)
Example scenarioC_region_out_of_range :
  ∃ a st,
    Oil_new scenarioC 1 [850; 860] empty_store = Ok (a, st)
    ∧ Oil_surfaceMassDensity st a 5
      = Throw (invalid_argument
                 "Region Index 5 Outside Valid Range (0 .. 1)")
    ∧ Oil_surfaceMassDensity st a 1 = Ok 860.
Proof.
  eexists _, _. split; [vm_compute; reflexivity|].
  split; vm_compute; reflexivity.
Qed.

(** An empty density array passes construction; the density of region 0
    is then read outside the array. *)
Example density_array_too_short :
  ∃ a st,
    Oil_new scenarioA 1 [] empty_store = Ok (a, st)
    ∧ Oil_surfaceMassDensity st a 0 = Undefined.
Proof.
  eexists _, _. split; [vm_compute; reflexivity|].
  vm_compute. reflexivity.
Qed.
End Scenarios.

(** * Further properties of the builders *)

Section Curves.

(** X1.  [repackagePvtCurve] keeps the number of graphs, leaves every
    curve kind but [SaturatedState] as it is, swaps the two columns of
    each graph of a saturated-state curve, and undoes itself when applied
    twice. *)
Theorem repackagePvtCurve_involutive (graphs : list Graph) (curve : RawCurve) :
  repackagePvtCurve (repackagePvtCurve graphs curve) curve = graphs
  ∧ length (repackagePvtCurve graphs curve) = length graphs
  ∧ (curve ≠ SaturatedState → repackagePvtCurve graphs curve = graphs)
  ∧ (∀ j g, graphs !! j = Some g →
       repackagePvtCurve graphs SaturatedState !! j = Some (g.2, g.1)).
Proof.
  split; [|split; [|split]].
  - destruct curve; try reflexivity. rewrite !repackagePvtCurve_SaturatedState.
    induction graphs as [|[x y] graphs IH]; cbn [map fst snd]; [done|].
    by rewrite IH.
  - destruct curve; cbn; try reflexivity. apply length_map.
  - apply repackagePvtCurve_other.
  - intros j g. rewrite repackagePvtCurve_SaturatedState. revert j.
    induction graphs as [|g0 graphs IH]; intros [|j]; cbn; try done.
    + by intros [= <-].
    + apply IH.
Qed.
End Curves.

Section Builders.
Context {C : Collaborators}.

Abbreviation res := (result collab_exn).

(** X2.  The live-oil unit converter is the dead-oil one with a
    converter for the gas ratio in front: both exist exactly when the
    unit system does, the table part of the first is the second, with
    the pressure converter and four column converters, and when the unit
    system is refused both pass that exception on. *)
Theorem liveOilUnitConverter_extends_deadOil (usys : Z) :
  (∀ cvrt, deadOilUnitConverter usys = Ok cvrt ↔
           ∃ key, liveOilUnitConverter usys = Ok (key, cvrt))
  ∧ (∀ cvrt, deadOilUnitConverter usys = Ok cvrt → length (column cvrt) = 4%nat)
  ∧ (∀ e, createUnitSystem usys = inl e →
          deadOilUnitConverter usys = Throw (propagated e)
          ∧ liveOilUnitConverter usys = Throw (propagated e))
  ∧ (∀ u, createUnitSystem usys = inr u →
          deadOilUnitConverter usys = Ok (deadOilUnitConverter_usys u)
          ∧ liveOilUnitConverter usys
            = Ok (ToSI_disGas u, deadOilUnitConverter_usys u)).
Proof.
  unfold deadOilUnitConverter, liveOilUnitConverter.
  destruct (createUnitSystem usys) as [e|u]; cbn.
  - split; [|split; [|split]].
    + intros cvrt. split; [discriminate|]. by intros [? ?].
    + discriminate.
    + by intros ? [= <-].
    + discriminate.
  - split; [|split; [|split]].
    + intros cvrt. split.
      * intros [= <-]. eauto.
      * by intros [key [= _ <-]].
    + by intros cvrt [= <-].
    + discriminate.
    + by intros ? [= <-].
Qed.

(** The first sub-table whose factory call does not return decides the
    outcome of the loop. *)
Lemma fromRawData_loop_stops {T} raw (construct : SubTable → res T)
    (e : exn collab_exn) k n :
  (k < n)%nat →
  ∀ i interp,
    (∀ j, (j < k)%nat →
          ∃ x, construct {| sub_raw := raw; sub_index := i + N.of_nat j |}
               = Ok x) →
    construct {| sub_raw := raw; sub_index := i + N.of_nat k |} = Throw e →
    fromRawData_loop raw construct i n interp = Throw e.
Proof.
  intros Hk. revert k Hk.
  induction n as [|n IH]; intros k Hk i interp Hok Hfail; [lia|].
  cbn [fromRawData_loop]. destruct k as [|k].
  - rewrite N.add_0_r in Hfail. rewrite Hfail. reflexivity.
  - destruct (Hok 0%nat ltac:(lia)) as [x H0]. rewrite N.add_0_r in H0.
    rewrite H0. cbn [mbind result_bind bind].
    apply (IH k ltac:(lia)).
    + intros j Hj. destruct (Hok (S j) ltac:(lia)) as [y Hy]. exists y.
      replace (i + 1 + N.of_nat j) with (i + N.of_nat (S j)) by lia.
      exact Hy.
    + replace (i + 1 + N.of_nat k) with (i + N.of_nat (S k)) by lia.
      exact Hfail.
Qed.

(** X3.  When the leaf of every sub-table can be built, [createDeadOil]
    returns one dead-oil model per sub-table, the model at position [j]
    being the one built from sub-table [j]. *)
Theorem createDeadOil_builds_in_order
    (raw : ECLPropTableRawData) (usys : Z) (cvrt : ConvertUnits)
    (leaf : N → PVDx) :
  numPrimary raw = 1 →
  deadOilUnitConverter usys = Ok cvrt →
  (∀ j, j < wmul (numPrimary raw) (numTables raw) →
        PVDx_ctor {| sub_raw := raw; sub_index := j |} cvrt = inr (leaf j)) →
  createDeadOil raw usys =
  Ok (map (λ j, dead {| interpolant_ := leaf (N.of_nat j) |})
        (seq 0 (N.to_nat (wmul (numPrimary raw) (numTables raw))))).
Proof.
  intros H1 Hc Hleaf. unfold createDeadOil. rewrite H1 at 1.
  cbn [N.eqb Pos.eqb negb]. rewrite Hc. cbn [mbind result_bind bind].
  unfold fromRawData.
  rewrite (fromRawData_loop_Ok raw _
             (λ j, dead {| interpolant_ := leaf j |})).
  - reflexivity.
  - intros j Hj. unfold DeadOil_new. rewrite Hleaf by lia. reflexivity.
Qed.


(** X5.  [createLiveOil] catches [std::invalid_argument] only: when the
    interpolant of sub-table [k] is the first whose constructor throws
    an exception of another type, that exception leaves [createLiveOil].
    The key vector has the size the dimensions announce, so that
    [reserve] is asked for no more than that vector holds and the
    constructors are reached. *)
Theorem createLiveOil_passes_other_exception
    (raw : ECLPropTableRawData) (usys : Z)
    (cvrt : Converter * ConvertUnits) (k : N) (e : collab_exn) :
  sizes_exact raw = true →
  liveOilUnitConverter usys = Ok cvrt →
  k < wmul (numPrimary raw) (numTables raw) →
  (∀ j e', j < k →
           Linear_ctor {| sub_raw := raw; sub_index := j |}
             (indep cvrt.2) (column cvrt.2) = inl e' →
           is_invalid_argument e' = true) →
  Linear_ctor {| sub_raw := raw; sub_index := k |}
    (indep cvrt.2) (column cvrt.2) = inl e →
  is_invalid_argument e = false →
  createLiveOil raw usys = Throw (propagated e).
Proof.
  intros Hs Hc Hk Hok Hfail Hother.
  assert (numTables raw ≤ max_size) as Hfit.
  { apply (sizes_exact_capacity raw Hs).
    destruct (N.eq_dec (numPrimary raw) 0) as [E|]; [|lia].
    rewrite E in Hk. unfold wmul in Hk. rewrite N.mul_0_l in Hk.
    rewrite N.Div0.mod_0_l in Hk. lia. }
  rewrite (createLiveOil_reserved raw usys Hfit), Hc.
  cbn [mbind result_bind bind]. unfold fromRawData.
  rewrite (fromRawData_loop_stops raw _ (propagated e) (N.to_nat k)).
  - reflexivity.
  - lia.
  - intros j Hj. rewrite N.add_0_l. eexists.
    apply createLiveOil_factory_placeholder. intros e'.
    apply Hok. lia.
  - rewrite N.add_0_l, N2Nat.id. unfold createLiveOil_factory. cbn [snd].
    rewrite Hfail, Hother. reflexivity.
Qed.

(** X6.  For a table that passes structural validation, a unit system
    the registry refuses makes construction fail with the registry's
    exception, before any leaf is built: for dead oil always, for live
    oil when the key vector has the size the dimensions announce, so
    that [reserve] is asked for no more than that vector holds.  A
    live-oil table with more tables than a vector can hold (its products
    wrap around) fails earlier, in [reserve], with [std::length_error],
    whatever the unit system. *)
Theorem createPVTFunction_passes_unit_system_exception
    (raw : ECLPropTableRawData) (usys : Z) (e : collab_exn) :
  structurally_valid raw = true →
  createUnitSystem usys = inl e →
  (numPrimary raw = 1 ∨ sizes_exact raw = true →
   createPVTFunction raw usys = Throw (propagated e)
   ∧ ∀ rhoS st, Oil_new raw usys rhoS st = Throw (propagated e))
  ∧ (numPrimary raw ≠ 1 → max_size < numTables raw →
     createPVTFunction raw usys = Throw length_error
     ∧ ∀ rhoS st, Oil_new raw usys rhoS st = Throw length_error).
Proof.
  intros Hv He. rewrite (createPVTFunction_valid raw usys Hv).
  assert (Hnew : ∀ x, createPVTFunction raw usys = Throw x →
                      ∀ rhoS st, Oil_new raw usys rhoS st = Throw x).
  { intros x H rhoS st. unfold Oil_new, Impl_new. rewrite H. reflexivity. }
  rewrite (createPVTFunction_valid raw usys Hv) in Hnew.
  split.
  - intros Hcase.
    assert ((if numPrimary raw =? 1 then createDeadOil raw usys
             else createLiveOil raw usys) = Throw (propagated e)) as H.
    { destruct (N.eqb_spec (numPrimary raw) 1) as [H1|H1].
      - unfold createDeadOil. rewrite H1. cbn [N.eqb Pos.eqb negb].
        unfold deadOilUnitConverter. rewrite He. reflexivity.
      - destruct Hcase as [?|Hs]; [done|].
        assert (numTables raw ≤ max_size) as Hfit.
        { apply (sizes_exact_capacity raw Hs).
          apply structurally_valid_spec in Hv.
          rewrite first_violated_None in Hv.
          pose proof (Hv HasPrimaryKey) as H0. cbn in H0. lia. }
        rewrite (createLiveOil_reserved raw usys Hfit).
        unfold liveOilUnitConverter. rewrite He. reflexivity. }
    split; [exact H|]. exact (Hnew _ H).
  - intros H1 Hbig.
    assert ((if numPrimary raw =? 1 then createDeadOil raw usys
             else createLiveOil raw usys) = Throw length_error) as H.
    { destruct (N.eqb_spec (numPrimary raw) 1) as [?|_]; [done|].
      unfold createLiveOil. rewrite (reserve_length_error _ Hbig).
      reflexivity. }
    split; [exact H|]. exact (Hnew _ H).
Qed.

(** *** More on the primary key *)



Lemma filter_all {A} (f : A → bool) (l : list A) :
  (length (List.filter f l) = length l ↔ Forall (λ x, f x = true) l)
  ∧ (Forall (λ x, f x = true) l → List.filter f l = l).
Proof.
  induction l as [|x l [IH1 IH2]]; cbn [List.filter length].
  - repeat split; constructor.
  - destruct (f x) eqn:Hx; cbn [length].
    + split.
      * rewrite Forall_cons. split.
        -- intros [= Hl]. split; [done|]. by apply IH1.
        -- intros [_ Hl]. f_equal. by apply IH1.
      * intros [_ Hl]%Forall_cons. f_equal. by apply IH2.
    + pose proof (List.filter_length_le f l) as Hle. split.
      * split; [lia|]. intros [Hl _]%Forall_cons. congruence.
      * intros [Hl _]%Forall_cons. congruence.
Qed.

(** X8.  The key of a table never has more than [numPrimary] nodes, and
    has exactly [numPrimary] nodes if and only if every entry of the
    table's slice has an absolute value below 1.0e20; the key is then the
    converted slice, entry by entry. *)
Theorem extractPrimaryKey_full_key
    (raw : ECLPropTableRawData) (t : N) (cvrtKey : Converter) :
  sizes_exact raw = true →
  t < numTables raw →
  ∃ key,
    extractPrimaryKey raw t cvrtKey = Ok key
    ∧ size key ≤ numPrimary raw
    ∧ (size key = numPrimary raw
       ↔ Forall (λ x, kept x = true) (table_key raw t))
    ∧ (Forall (λ x, kept x = true) (table_key raw t) →
       key = map cvrtKey (table_key raw t)).
Proof.
  intros Hs Ht. eexists. split;
    [exact (extractPrimaryKey_exact raw t cvrtKey Hs Ht)|].
  pose proof (table_key_length raw t Hs Ht) as Hlen.
  pose proof (filter_kept_length_le (table_key raw t)) as Hle.
  destruct (filter_all kept (table_key raw t)) as [Hiff Heq].
  unfold size. rewrite length_map. split; [lia|]. split.
  - rewrite <- Hiff. lia.
  - intros Hall. by rewrite (Heq Hall).
Qed.

Lemma SFcompare_refl (s : spec_float) :
  s ≠ S754_nan → SFcompare s s = Some Eq.
Proof.
  destruct s as [b|b| |b m e]; try done; intros _.
  - by destruct b.
  - unfold SFcompare.
    destruct b; rewrite Z.compare_refl, Pos.compare_cont_refl; reflexivity.
Qed.

Lemma is_nan_spec (x : float) :
  PrimFloat.is_nan x = true → Prim2SF x = S754_nan.
Proof.
  unfold PrimFloat.is_nan. rewrite FloatAxioms.eqb_spec. unfold SFeqb.
  destruct (Prim2SF x) as [b|b| |b m e] eqn:E; try reflexivity;
    rewrite SFcompare_refl by discriminate; discriminate.
Qed.

Lemma nan_neither_kept_nor_sentinel (x : float) :
  PrimFloat.is_nan x = true → kept x = false ∧ sentinel x = false.
Proof.
  intros Hx. apply is_nan_spec in Hx. unfold kept, sentinel.
  rewrite ltb_spec, leb_spec, abs_spec, Hx. cbn [SFabs].
  unfold SFltb, SFleb. split; [reflexivity|].
  by destruct (Prim2SF 1.0e20%float).
Qed.

(** X9.  An entry that is not a number is left out of the key, although
    it is no sentinel (its absolute value is neither below 1.0e20 nor at
    least 1.0e20): a table with such an entry gets a key that is strictly
    shorter than [numPrimary]. *)
Theorem extractPrimaryKey_drops_nan
    (raw : ECLPropTableRawData) (t : N) (cvrtKey : Converter) :
  sizes_exact raw = true →
  t < numTables raw →
  Exists (λ x, PrimFloat.is_nan x = true) (table_key raw t) →
  Exists (λ x, kept x = false ∧ sentinel x = false) (table_key raw t)
  ∧ ∃ key,
      extractPrimaryKey raw t cvrtKey = Ok key
      ∧ size key < numPrimary raw.
Proof.
  intros Hs Ht Hnan. split.
  - eapply Exists_impl; [exact Hnan|]. apply nan_neither_kept_nor_sentinel.
  - eexists. split; [exact (extractPrimaryKey_exact raw t cvrtKey Hs Ht)|].
    pose proof (table_key_length raw t Hs Ht) as Hlen.
    unfold size. rewrite length_map.
    assert (length (List.filter kept (table_key raw t))
            < length (table_key raw t))%nat; [|lia].
    apply filter_length_lt. eapply Exists_impl; [exact Hnan|].
    intros x Hx. by apply nan_neither_kept_nor_sentinel.
Qed.
End Builders.

(** * Further properties of the store operations *)

Section Moves.
Context {C : Collaborators}.

(** X10.  [clone] of a vector whose pointers all point to models returns
    as many pointers, pairwise different and all new (none of them was in
    use, so none is a pointer of the source), each to a model equal to
    the one at the same position of the source; the models that existed
    stay where they are, and nothing else is added. *)
Theorem clone_vector_makes_fresh_copies
    (src : list positive) (ms : gmap positive PVxO) :
  (∀ p, p ∈ src → is_Some (ms !! p)) →
  ∃ dest ms',
    clone_vector src ms = Ok (dest, ms')
    ∧ length dest = length src
    ∧ NoDup dest
    ∧ (∀ q, q ∈ dest → ms !! q = None ∧ q ∉ src)
    ∧ map (λ q, ms' !! q) dest = map (λ p, ms !! p) src
    ∧ (∀ p m, ms !! p = Some m → ms' !! p = Some m)
    ∧ (∀ q, is_Some (ms' !! q) → is_Some (ms !! q) ∨ q ∈ dest).
Proof.
  intros Hsrc.
  destruct (clone_loop_spec src ms [] Hsrc)
    as (ps & ms' & Hrun & Hsub & Hnone & Hdom & Hnd & Hmap).
  exists ps, ms'. split; [exact Hrun|]. split.
  { apply (f_equal length) in Hmap. by rewrite !length_map in Hmap. }
  split; [exact Hnd|]. split; [|split; [exact Hmap|split]].
  - intros q Hq. split; [by apply Hnone|]. intros Hin.
    destruct (Hsrc q Hin) as [m Hm]. rewrite (Hnone q Hq) in Hm. discriminate.
  - intros p m Hm. by eapply lookup_weaken.
  - intros q Hq. by apply Hdom.
Qed.

Lemma Oil_eta (o : Oil) : {| pImpl_ := pImpl_ o |} = o.
Proof. by destruct o. Qed.

Lemma contents_lookup st x o :
  objects st !! x = Some o → contents st x = pImpl_ o ≫= impl_view st.
Proof. intros Ho. unfold contents. rewrite Ho. reflexivity. Qed.

(** X11.  Move construction from an object of a well-formed store
    succeeds; the new object holds what the source held (also when that
    was nothing); the source is left with a null pointer, so that all
    its queries are undefined; no [Impl] and no model is allocated or
    released. *)
Theorem Oil_move_transfers (st : Store) (rhs : positive) (r : Oil) :
  well_formed st →
  objects st !! rhs = Some r →
  ∃ this st',
    Oil_move rhs st = Ok (this, st')
    ∧ objects st !! this = None
    ∧ contents st' this = contents st rhs
    ∧ objects st' !! rhs = Some {| pImpl_ := None |}
    ∧ (∀ q, ask st' rhs q = Undefined)
    ∧ models st' = models st
    ∧ impls st' = impls st
    ∧ well_formed st'.
Proof.
  intros Hwf Hr. eexists _, _. split; [exact (Oil_move_eq st rhs r Hr)|].
  destruct (released_unowned st rhs r Hwf Hr) as [Hwf1 Hfree].
  set (st1 := set_pImpl rhs None st) in *.
  set (x := fresh (dom (objects st1))) in *.
  pose proof (fresh_None (objects st1)) as Hx. fold x in Hx.
  assert (x ≠ rhs) as Hne.
  { intros ->. unfold st1 in Hx. cbn in Hx.
    by rewrite lookup_insert_eq in Hx. }
  destruct (set_pImpl_spec st1 x (pImpl_ r) Hwf1)
    as (Hwf2 & Hother & Hcx & _).
  { intros p Hp. destruct (Hfree p Hp) as [Hin Hun]. split; [exact Hin|].
    intros y o Ho Hpo. destruct (Hun y o Ho Hpo). }
  assert (objects (set_pImpl x (pImpl_ r) st1) !! rhs
          = Some {| pImpl_ := None |}) as Hnull.
  { cbn. rewrite lookup_insert_ne by done. by rewrite lookup_insert_eq. }
  split; [|split; [|split; [exact Hnull|split; [|split; [|split]]]]].
  - unfold st1 in Hx. cbn in Hx.
    by apply lookup_insert_None in Hx as [? _].
  - rewrite Hcx. by rewrite (contents_lookup st rhs r Hr).
  - intros q. apply ask_None. by rewrite (contents_lookup _ _ _ Hnull).
  - reflexivity.
  - reflexivity.
  - exact Hwf2.
Qed.

Lemma delete_Impl_maps st p st' :
  delete_Impl p st = Ok st' →
  ∃ i, impls st !! p = Some i
     ∧ impls st' = delete p (impls st)
     ∧ objects st' = objects st
     ∧ ∀ q, models st' !! q
            = if decide (q ∈ eval_ i) then None else models st !! q.
Proof.
  unfold delete_Impl. intros H.
  apply bind_Ok in H as (i & Hi%deref_Ok & H).
  apply bind_Ok in H as (ms' & Hdel & [= <-]).
  exists i. split; [exact Hi|]. split; [reflexivity|].
  split; [reflexivity|]. exact (delete_models_Ok _ _ _ Hdel).
Qed.

(** X12.  Move assignment between two different objects of a
    well-formed store deletes the [Impl] the target owned.  When that
    [Impl] holds a model, the model is deleted through a pointer to
    [PVxOBase], whose destructor is not virtual: the behaviour is
    undefined.  When the target holds no model (it was moved from, or
    its catalog has no region), the assignment succeeds: the target then
    holds what the source held, the source is left with a null pointer,
    the [Impl] the target owned is gone and no model is touched. *)
Theorem Oil_move_assign_transfers
    (st : Store) (this rhs : positive) (t r : Oil) :
  well_formed st →
  this ≠ rhs →
  objects st !! this = Some t →
  objects st !! rhs = Some r →
  (∀ p i, pImpl_ t = Some p → impls st !! p = Some i → eval_ i ≠ [] →
          Oil_move_assign this rhs st = Undefined)
  ∧ ((∀ p i, pImpl_ t = Some p → impls st !! p = Some i → eval_ i = []) →
     ∃ st',
       Oil_move_assign this rhs st = Ok st'
       ∧ contents st' this = contents st rhs
       ∧ objects st' !! rhs = Some {| pImpl_ := None |}
       ∧ (∀ old, pImpl_ t = Some old → impls st' !! old = None)
       ∧ models st' = models st
       ∧ well_formed st').
Proof.
  intros Hwf Hne Ht Hr.
  destruct (released_unowned st rhs r Hwf Hr) as [Hwf1 Hfree].
  set (st1 := set_pImpl rhs None st) in *.
  assert (objects st1 !! this = Some t) as Ht1.
  { cbn. by rewrite lookup_insert_ne. }
  assert (Oil_move_assign this rhs st
          = delete_ptr (pImpl_ t) (set_pImpl this (pImpl_ r) st1)) as Hrun.
  { unfold Oil_move_assign, deref. rewrite Hr. cbn [mbind result_bind bind].
    fold st1. rewrite Ht1. reflexivity. }
  split.
  - intros p i Hp Hi He. rewrite Hrun, Hp.
    apply (delete_ptr_Undefined _ p i); [exact Hi|exact He].
  - intros Hempty.
    destruct (set_pImpl_spec st1 this (pImpl_ r) Hwf1)
      as (Hwf2 & Hother & Hcx & _).
    { intros p Hp. destruct (Hfree p Hp) as [Hin Hun]. split; [exact Hin|].
      intros y o Ho Hpo. destruct (Hun y o Ho Hpo). }
    set (st2 := set_pImpl this (pImpl_ r) st1) in *.
    assert (Hold : ∀ old, pImpl_ t = Some old → unowned st2 old).
    { intros old Hold.
      apply (set_pImpl_unowned st1 this (pImpl_ r) t old Hwf1 Ht1 Hold).
      intros Hp. destruct (Hfree old Hp) as [_ Hun].
      exact (Hun this t Ht1 Hold). }
    destruct (delete_ptr_total st2 (pImpl_ t)) as [st' Hdel].
    { intros old Hpt. cbn.
      destruct (wf_impl st Hwf this t old Ht Hpt) as [io Hio].
      exists io. split; [exact Hio|exact (Hempty old io Hpt Hio)]. }
    exists st'. rewrite Hrun.
    destruct (delete_ptr_spec st2 (pImpl_ t) st' Hwf2 Hold Hdel)
      as (Hwf3 & Hobj & Hc3).
    split; [exact Hdel|]. split; [|split; [|split; [|split; [|exact Hwf3]]]].
    + rewrite Hc3, Hcx. by rewrite (contents_lookup st rhs r Hr).
    + rewrite Hobj. cbn. rewrite lookup_insert_ne by done.
      by rewrite lookup_insert_eq.
    + intros old Hpt. rewrite Hpt in Hdel. cbn in Hdel.
      destruct (delete_Impl_maps st2 old st' Hdel) as (i' & _ & -> & _).
      apply lookup_delete_eq.
    + destruct (pImpl_ t) as [old|]; cbn in Hdel.
      * unfold delete_Impl in Hdel.
        apply bind_Ok in Hdel as (i' & _ & Hdel).
        apply bind_Ok in Hdel as (ms' & [_ ->]%delete_models_nil & [= <-]).
        reflexivity.
      * by injection Hdel as <-.
Qed.

(** X13.  Move assignment of an object to itself leaves the whole store
    as it was. *)
Theorem Oil_move_assign_self (st : Store) (x : positive) (o : Oil) :
  objects st !! x = Some o →
  Oil_move_assign x x st = Ok st.
Proof.
  intros Ho. unfold Oil_move_assign, deref. rewrite Ho.
  cbn [mbind result_bind bind].
  assert (objects (set_pImpl x None st) !! x = Some {| pImpl_ := None |})
    as -> by (cbn; by rewrite lookup_insert_eq).
  cbn [mbind result_bind bind delete_ptr pImpl_]. f_equal.
  destruct st as [ms im os]. unfold set_pImpl, with_objects. cbn in *.
  f_equal. rewrite insert_insert_eq, Oil_eta. by apply insert_id.
Qed.

(** X14.  The destructor of an object deletes the [Impl] the object
    owns.  When that [Impl] holds a model, the model is deleted through a
    pointer to [PVxOBase], whose destructor is not virtual: the behaviour
    is undefined.  When the object holds no model (it was moved from, or
    its catalog has no region), the destructor returns: the object and
    its [Impl] are gone, no model is touched, and every other object
    holds what it held. *)
Theorem Oil_delete_releases (st : Store) (this : positive) (t : Oil) :
  well_formed st →
  objects st !! this = Some t →
  (∀ p i, pImpl_ t = Some p → impls st !! p = Some i → eval_ i ≠ [] →
          Oil_delete this st = Undefined)
  ∧ ((∀ p i, pImpl_ t = Some p → impls st !! p = Some i → eval_ i = []) →
     ∃ st',
       Oil_delete this st = Ok st'
       ∧ objects st' !! this = None
       ∧ (∀ p, pImpl_ t = Some p → impls st' !! p = None)
       ∧ models st' = models st
       ∧ (∀ y, y ≠ this →
               objects st' !! y = objects st !! y
               ∧ contents st' y = contents st y)
       ∧ well_formed st').
Proof.
  intros Hwf Ht. split.
  - intros p i Hp Hi He. unfold Oil_delete, deref. rewrite Ht.
    cbn [mbind result_bind bind]. rewrite Hp.
    by rewrite (delete_ptr_Undefined st p i Hi He).
  - intros Hempty.
    destruct (delete_ptr_total st (pImpl_ t)) as [st1 Hdel].
    { intros p Hp. destruct (wf_impl st Hwf this t p Ht Hp) as [i Hi].
      exists i. split; [exact Hi|exact (Hempty p i Hp Hi)]. }
    assert (Oil_delete this st
            = Ok (with_objects (delete this (objects st1)) st1)) as Hrun.
    { unfold Oil_delete, deref. rewrite Ht. cbn [mbind result_bind bind].
      rewrite Hdel. reflexivity. }
    eexists. split; [exact Hrun|].
    destruct (Oil_delete_spec st this _ Hwf Hrun) as [Hwf' Hframe].
    destruct (delete_ptr_objects st (pImpl_ t) st1 Hdel) as [Hobj _].
    split; [cbn; apply lookup_delete_eq|].
    split; [|split; [|split; [|exact Hwf']]].
    + intros p Hp. rewrite Hp in Hdel. cbn in Hdel.
      destruct (delete_Impl_maps st p st1 Hdel) as (i' & _ & Himpls & _).
      cbn. rewrite Himpls. apply lookup_delete_eq.
    + cbn. destruct (pImpl_ t) as [old|]; cbn in Hdel.
      * unfold delete_Impl in Hdel.
        apply bind_Ok in Hdel as (i' & _ & Hdel).
        apply bind_Ok in Hdel as (ms' & [_ ->]%delete_models_nil & [= <-]).
        reflexivity.
      * by injection Hdel as <-.
    + intros y Hne. split.
      * cbn. rewrite Hobj. by apply lookup_delete_ne.
      * unfold contents at 1 2. cbn. rewrite Hobj, lookup_delete_ne by done.
        destruct (objects st !! y) as [oy|] eqn:Hy; [|reflexivity].
        assert (is_Some (objects st !! y)) as Hsome by (rewrite Hy; eauto).
        destruct (Hframe y Hsome Hne) as [_ Hc].
        unfold contents in Hc. cbn in Hc.
        rewrite Hobj, lookup_delete_ne, Hy in Hc by done. exact Hc.
Qed.
End Moves.

Section Invariants.
Context {C : Collaborators}.

Lemma reachable_wf (st : Store) : reachable st → well_formed st.
Proof.
  induction 1 as [|st raw usys rhoS this st' _ IH Hnew|st op st' _ IH Hrun].
  - apply well_formed_empty.
  - exact (proj1 (Oil_new_spec raw usys rhoS st this st' IH Hnew)).
  - exact (proj1 (run_spec op st st' IH Hrun)).
Qed.

(** X15.  Every store a client reaches from the empty one with the
    constructor and the copy, move and destroy operations, each of them
    returning, is well formed: a non-null [pImpl_] points to an [Impl],
    no two objects share an [Impl], every pointer of an [Impl] points to
    a model and no model is pointed to twice.  So no object of such a
    store has a dangling pointer: its contents are missing only when its
    [pImpl_] is null, that is, when it has been moved from. *)
Theorem reachable_well_formed (st : Store) :
  reachable st →
  well_formed st
  ∧ ∀ x o, objects st !! x = Some o →
      (pImpl_ o = None ↔ contents st x = None)
      ∧ ∀ v rho, contents st x = Some (v, rho) →
                 Forall (λ m, is_Some m) v.
Proof.
  intros Hr. pose proof (reachable_wf st Hr) as Hwf.
  split; [exact Hwf|]. intros x o Ho. split.
  - rewrite (contents_lookup st x o Ho). destruct (pImpl_ o) as [p|] eqn:Hp.
    + destruct (wf_impl st Hwf x o p Ho Hp) as [i Hi].
      cbn. unfold impl_view. rewrite Hi. cbn. split; discriminate.
    + done.
  - intros v rho. rewrite (contents_lookup st x o Ho).
    destruct (pImpl_ o) as [p|] eqn:Hp; [|done]. cbn. unfold impl_view.
    destruct (impls st !! p) as [i|] eqn:Hi; [|done]. cbn.
    intros [= <- <-]. apply Forall_forall. intros m Hm.
    apply list_elem_of_In, in_map_iff in Hm as (q & <- & Hq).
    apply list_elem_of_In in Hq. exact (wf_models st Hwf p i q Hi Hq).
Qed.

Lemma reachable_run_all ops :
  ∀ st st', reachable st → run_all ops st = Ok st' → reachable st'.
Proof.
  induction ops as [|op ops IH]; intros st st' Hr H; cbn [run_all] in H.
  - by injection H as <-.
  - apply bind_Ok in H as (st1 & Hop & H).
    exact (IH st1 st' (reachable_run st op st1 Hr Hop) H).
Qed.

(** *** Nothing is lost *)

Lemma no_garbage_but_weaken st (P Q : positive → Prop) :
  no_garbage_but st P →
  (∀ p, is_Some (impls st !! p) → P p → Q p) →
  no_garbage_but st Q.
Proof.
  intros [Hi Hm] HPQ. split; [|exact Hm].
  intros p Hp. destruct (Hi p Hp) as [HP|Hown]; [left; by apply HPQ|by right].
Qed.

Lemma add_impl_garbage st ms' ps rho p P :
  no_garbage_but st P →
  (∀ q, is_Some (ms' !! q) → is_Some (models st !! q) ∨ q ∈ ps) →
  impls st !! p = None →
  no_garbage_but
    {| models := ms';
       impls := <[p := {| eval_ := ps; rhoS_ := rho |}]> (impls st);
       objects := objects st |}
    (λ p', p' = p ∨ P p').
Proof.
  intros [Hi Hm] Hdom Hp. split; cbn.
  - intros p0 [<-|[Hne H0]]%lookup_insert_is_Some; [by left; left|].
    destruct (Hi p0 H0) as [HP|Hown]; [left; by right|by right].
  - intros q Hq. destruct (Hdom q Hq) as [Hold|Hnew].
    + destruct (Hm q Hold) as (p1 & i1 & H1 & Hin). exists p1, i1.
      split; [|exact Hin]. rewrite lookup_insert_ne; [done|].
      intros <-. congruence.
    + eexists p, _. split; [apply lookup_insert_eq|exact Hnew].
Qed.

Lemma set_pImpl_garbage st x v P :
  no_garbage_but st P →
  no_garbage_but (set_pImpl x v st)
    (λ p', v ≠ Some p'
           ∧ (P p' ∨ ∃ t, objects st !! x = Some t ∧ pImpl_ t = Some p')).
Proof.
  intros [Hi Hm]. split; cbn; [|exact Hm].
  intros p0 H0. destruct (decide (v = Some p0)) as [->|Hv].
  { right. exists x, {| pImpl_ := Some p0 |}.
    split; [apply lookup_insert_eq|reflexivity]. }
  destruct (Hi p0 H0) as [HP|(y & o & Ho & Hpo)]; [left; by auto|].
  destruct (decide (y = x)) as [->|Hne]; [left; by eauto|].
  right. exists y, o. split; [by rewrite lookup_insert_ne|exact Hpo].
Qed.

Lemma delete_ptr_garbage st old st' P :
  no_garbage_but st P →
  delete_ptr old st = Ok st' →
  no_garbage_but st' (λ p', P p' ∧ old ≠ Some p').
Proof.
  intros [Hi Hm] H. destruct old as [p|]; cbn in H.
  - destruct (delete_Impl_maps st p st' H) as (i & Hp & Himpls & Hobj & Hms).
    split.
    + intros p0. rewrite Himpls, lookup_delete_is_Some. intros [Hne H0].
      destruct (Hi p0 H0) as [HP|Hown].
      * left. split; [done|congruence].
      * right. by rewrite Hobj.
    + intros q Hq. rewrite Hms in Hq.
      destruct (decide (q ∈ eval_ i)) as [|Hout];
        [by destruct Hq|].
      destruct (Hm q Hq) as (p1 & i1 & H1 & Hin). exists p1, i1.
      split; [|exact Hin]. rewrite Himpls, lookup_delete_ne; [done|].
      intros <-. congruence.
  - injection H as <-. split; [|exact Hm].
    intros p0 H0. destruct (Hi p0 H0); [left|right]; done.
Qed.

Lemma remove_object_garbage st x :
  no_garbage st →
  (∀ t p, objects st !! x = Some t → pImpl_ t = Some p →
          impls st !! p = None) →
  no_garbage (with_objects (delete x (objects st)) st).
Proof.
  intros [Hi Hm] Hx. split; cbn; [|exact Hm].
  intros p0 H0. destruct (Hi p0 H0) as [[]|(y & o & Ho & Hpo)].
  right. exists y, o. split; [|exact Hpo].
  rewrite lookup_delete_ne; [done|]. intros <-.
  rewrite (Hx o p0 Ho Hpo) in H0. by destruct H0.
Qed.

Lemma Oil_new_no_garbage raw usys rhoS st this st' :
  no_garbage st →
  Oil_new raw usys rhoS st = Ok (this, st') →
  no_garbage st'.
Proof.
  intros Hg H. unfold Oil_new in H.
  apply bind_Ok in H as ([i ms'] & Hi & H).
  unfold Impl_new in Hi. apply bind_Ok in Hi as (built & Hbuilt & Hi).
  destruct (place_models_spec built (models st) [])
    as (ps & ms2 & Hrun & Hsub & Hnone & Hdom & Hnd & Hmap).
  rewrite Hrun in Hi. cbn in Hi. injection Hi as <- <-.
  unfold new in H. cbn in H. injection H as <- <-.
  set (p := fresh (dom (impls st))) in *.
  set (x := fresh (dom (objects st))) in *.
  pose proof (add_impl_garbage st ms2 ps rhoS p _ Hg
                (λ q, proj1 (Hdom q)) (fresh_None (impls st))) as H1.
  apply (set_pImpl_garbage _ x (Some p)) in H1.
  eapply no_garbage_but_weaken; [exact H1|]. cbn.
  intros p' _ [Hne [[->|[]]|(t & Ht & _)]]; [done|].
  pose proof (fresh_None (objects st)) as Hf. fold x in Hf. congruence.
Qed.

Lemma Oil_copy_no_garbage st rhs this st' :
  well_formed st → no_garbage st →
  Oil_copy rhs st = Ok (this, st') →
  no_garbage st'.
Proof.
  intros Hwf Hg H. unfold Oil_copy in H.
  apply bind_Ok in H as (r & Hr%deref_Ok & H).
  apply bind_Ok in H as (i & (pr & Hpr & Hi)%deref_ptr_Ok & H).
  apply bind_Ok in H as ([i' ms'] & Hcopy & H).
  destruct (clone_loop_spec (eval_ i) (models st) [])
    as (ps & ms2 & Hrun & Hsub & Hnone & Hdom & Hnd & Hmap).
  { intros q Hq. exact (wf_models st Hwf pr i q Hi Hq). }
  unfold Impl_copy, clone_vector in Hcopy. rewrite Hrun in Hcopy.
  cbn in Hcopy. injection Hcopy as <- <-.
  unfold new in H. cbn in H. injection H as <- <-.
  set (p := fresh (dom (impls st))) in *.
  set (x := fresh (dom (objects st))) in *.
  pose proof (add_impl_garbage st ms2 ps (rhoS_ i) p _ Hg
                (λ q, proj1 (Hdom q)) (fresh_None (impls st))) as H1.
  apply (set_pImpl_garbage _ x (Some p)) in H1.
  eapply no_garbage_but_weaken; [exact H1|]. cbn.
  intros p' _ [Hne [[->|[]]|(t & Ht & _)]]; [done|].
  pose proof (fresh_None (objects st)) as Hf. fold x in Hf. congruence.
Qed.

Lemma Oil_move_no_garbage st rhs this st' :
  no_garbage st →
  Oil_move rhs st = Ok (this, st') →
  no_garbage st'.
Proof.
  intros Hg H. pose proof H as H'. unfold Oil_move in H'.
  apply bind_Ok in H' as (r & Hr%deref_Ok & _).
  rewrite (Oil_move_eq st rhs r Hr) in H. injection H as <- <-.
  pose proof (set_pImpl_garbage st rhs None _ Hg) as H1.
  set (st1 := set_pImpl rhs None st) in *.
  set (x := fresh (dom (objects st1))) in *.
  apply (set_pImpl_garbage _ x (pImpl_ r)) in H1.
  eapply no_garbage_but_weaken; [exact H1|]. cbn.
  intros p' _ [Hne [[_ [[]|(t & Ht & Hp)]]|(t & Ht & _)]].
  - rewrite Hr in Ht. injection Ht as <-. congruence.
  - pose proof (fresh_None (objects st1)) as Hf. fold x in Hf.
    cbn in Hf. congruence.
Qed.

Lemma Oil_copy_assign_no_garbage st this rhs st' :
  well_formed st → no_garbage st →
  Oil_copy_assign this rhs st = Ok st' →
  no_garbage st'.
Proof.
  intros Hwf Hg H. unfold Oil_copy_assign in H.
  apply bind_Ok in H as (r & Hr%deref_Ok & H).
  apply bind_Ok in H as (i & (pr & Hpr & Hi)%deref_ptr_Ok & H).
  apply bind_Ok in H as ([i' ms'] & Hcopy & H).
  destruct (clone_loop_spec (eval_ i) (models st) [])
    as (ps & ms2 & Hrun & Hsub & Hnone & Hdom & Hnd & Hmap).
  { intros q Hq. exact (wf_models st Hwf pr i q Hi Hq). }
  unfold Impl_copy, clone_vector in Hcopy. rewrite Hrun in Hcopy.
  cbn in Hcopy. injection Hcopy as <- <-.
  unfold new in H. cbn in H.
  apply bind_Ok in H as (t & Ht%deref_Ok & H).
  set (p := fresh (dom (impls st))) in *.
  pose proof (add_impl_garbage st ms2 ps (rhoS_ i) p _ Hg
                (λ q, proj1 (Hdom q)) (fresh_None (impls st))) as H1.
  apply (set_pImpl_garbage _ this (Some p)) in H1.
  apply (delete_ptr_garbage _ (pImpl_ t) st') in H1; [|exact H].
  eapply no_garbage_but_weaken; [exact H1|]. cbn.
  intros p' _ [[Hne [[->|[]]|(t' & Ht' & Hp')]] Hold]; [done|].
  rewrite Ht in Ht'. injection Ht' as <-. congruence.
Qed.

Lemma Oil_move_assign_no_garbage st this rhs st' :
  no_garbage st →
  Oil_move_assign this rhs st = Ok st' →
  no_garbage st'.
Proof.
  intros Hg H. unfold Oil_move_assign in H.
  apply bind_Ok in H as (r & Hr%deref_Ok & H).
  apply bind_Ok in H as (t & Ht%deref_Ok & H).
  pose proof (set_pImpl_garbage st rhs None _ Hg) as H1.
  apply (set_pImpl_garbage _ this (pImpl_ r)) in H1.
  apply (delete_ptr_garbage _ (pImpl_ t) st') in H1; [|exact H].
  eapply no_garbage_but_weaken; [exact H1|]. cbn.
  intros p' _ [[Hne [[_ [[]|(r' & Hr' & Hp)]]|(t' & Ht' & Hp')]] Hold].
  - rewrite Hr in Hr'. injection Hr' as <-. congruence.
  - cbn in Ht, Ht'. rewrite Ht in Ht'. injection Ht' as <-. congruence.
Qed.

Lemma Oil_delete_no_garbage st this st' :
  no_garbage st →
  Oil_delete this st = Ok st' →
  no_garbage st'.
Proof.
  intros Hg H. unfold Oil_delete in H.
  apply bind_Ok in H as (t & Ht%deref_Ok & H).
  apply bind_Ok in H as (st1 & Hdel & [= <-]).
  pose proof (delete_ptr_garbage st (pImpl_ t) st1 _ Hg Hdel) as H1.
  destruct (delete_ptr_objects st (pImpl_ t) st1 Hdel) as [Hobj _].
  apply remove_object_garbage.
  - eapply no_garbage_but_weaken; [exact H1|]. by intros p' _ [[] _].
  - intros t' p. rewrite Hobj, Ht. intros [= <-] Hp.
    rewrite Hp in Hdel. cbn in Hdel.
    destruct (delete_Impl_maps st p st1 Hdel) as (i & _ & -> & _).
    apply lookup_delete_eq.
Qed.

(** X16.  As long as every operation returns, nothing is orphaned in
    the store a client reaches from the empty one: every [Impl] is owned
    by an object and every model by an [Impl].  An assignment or a
    destructor that returns has deleted the [Impl] its object owned (one
    without models, or the deletion would not have returned), and a move
    hands the [Impl] on. *)
Theorem reachable_no_garbage (st : Store) :
  reachable st →
  (∀ p, is_Some (impls st !! p) →
        ∃ x o, objects st !! x = Some o ∧ pImpl_ o = Some p)
  ∧ (∀ q, is_Some (models st !! q) →
          ∃ p i, impls st !! p = Some i ∧ q ∈ eval_ i).
Proof.
  intros Hr. assert (no_garbage st) as [Hi Hm].
  { induction Hr as [|st raw usys rhoS this st' Hr IH Hnew
                     |st op st' Hr IH Hrun].
    - split; cbn; intros ? [? H]; by rewrite lookup_empty in H.
    - exact (Oil_new_no_garbage raw usys rhoS st this st' IH Hnew).
    - pose proof (reachable_wf st Hr) as Hwf.
      destruct op as [rhs|rhs|this rhs|this rhs|this]; cbn [run] in Hrun.
      + apply bind_Ok in Hrun as ([x st1] & H & [= <-]).
        exact (Oil_copy_no_garbage st rhs x st1 Hwf IH H).
      + apply bind_Ok in Hrun as ([x st1] & H & [= <-]).
        exact (Oil_move_no_garbage st rhs x st1 IH H).
      + exact (Oil_copy_assign_no_garbage st this rhs st' Hwf IH Hrun).
      + exact (Oil_move_assign_no_garbage st this rhs st' IH Hrun).
      + exact (Oil_delete_no_garbage st this st' IH Hrun). }
  split.
  - intros p Hp. destruct (Hi p Hp) as [[]|Hown]. exact Hown.
  - exact Hm.
Qed.
End Invariants.

(** * Further properties of the catalog *)

Section Regions.
Context {C : Collaborators}.

Lemma ask_impl st a o p i q :
  objects st !! a = Some o → pImpl_ o = Some p → impls st !! p = Some i →
  ask st a q =
  match q with
  | AskFormationVolumeFactor region rs po =>
      v ← Impl_formationVolumeFactor (models st) i (size_t_of_int region) rs po;
      Ok (Values v)
  | AskViscosity region rs po =>
      v ← Impl_viscosity (models st) i (size_t_of_int region) rs po;
      Ok (Values v)
  | AskSurfaceMassDensity region =>
      x ← Impl_surfaceMassDensity i (size_t_of_int region); Ok (Value x)
  | AskPvtCurve curve region =>
      g ← Impl_getPvtCurve (models st) i (size_t_of_int region) curve;
      Ok (Graphs g)
  end.
Proof.
  intros Ho Hp Hi.
  destruct q; cbn [ask];
    unfold Oil_formationVolumeFactor, Oil_viscosity, Oil_surfaceMassDensity,
      Oil_getPvtCurve, deref; rewrite Ho; cbn [mbind result_bind bind];
    rewrite Hp; cbn [deref_ptr]; unfold deref; rewrite Hi; reflexivity.
Qed.

Lemma ask_range st a o p i q :
  objects st !! a = Some o → pImpl_ o = Some p → impls st !! p = Some i →
  (size (eval_ i) ≤ region_of q →
   ask st a q
   = Throw (invalid_argument (range_error (region_of q) (size (eval_ i)))))
  ∧ (region_of q < size (eval_ i) → not_raised (ask st a q)).
Proof.
  intros Ho Hp Hi. rewrite (ask_impl st a o p i q Ho Hp Hi). split.
  - intros Hle.
    destruct q; cbn [region_of] in Hle |- *;
      unfold Impl_formationVolumeFactor, Impl_viscosity,
        Impl_surfaceMassDensity, Impl_getPvtCurve;
      rewrite (validateRegIdx_out i _ Hle); reflexivity.
  - intros Hlt.
    destruct q; cbn [region_of] in Hlt |- *;
      unfold Impl_formationVolumeFactor, Impl_viscosity,
        Impl_surfaceMassDensity, Impl_getPvtCurve;
      destruct (validateRegIdx_in i _ Hlt) as [-> _];
      cbn [mbind result_bind bind];
      repeat (apply not_raised_bind; [|intros ? _]);
      auto using not_raised_deref, not_raised_PVxO_formationVolumeFactor,
        not_raised_PVxO_viscosity, not_raised_PVxO_getPvtCurve with raised.
Qed.

Lemma createPVTFunction_size raw usys built :
  createPVTFunction raw usys = Ok built →
  size built = numTables raw mod size_t_range
  ∨ size built = numTables raw.
Proof.
  rewrite createPVTFunction_first.
  destruct (first_violated raw) as [v|] eqn:Hv; [discriminate|].
  destruct (N.eqb_spec (numPrimary raw) 1) as [H1|H1].
  - unfold createDeadOil. rewrite H1. cbn [N.eqb Pos.eqb negb].
    intros H. apply bind_Ok in H as (cvrt & _ & H). unfold fromRawData in H.
    apply (fromRawData_loop_Forall (λ _, True)) in H as [_ Hlen];
      [|done|constructor].
    left. unfold size. rewrite Hlen, H1. cbn [length]. unfold wmul.
    rewrite N.mul_1_l. lia.
  - unfold createLiveOil. intros H.
    apply bind_Ok in H as ([] & _ & H).
    apply bind_Ok in H as (cvrt & _ & H).
    apply bind_Ok in H as (sti & _ & H).
    apply createLiveOil_loop_Forall in H as [_ Hlen]; [|constructor].
    right. unfold size. rewrite Hlen. cbn [length]. lia.
Qed.

Lemma Oil_new_shape raw usys rhoS st a st' :
  Oil_new raw usys rhoS st = Ok (a, st') →
  ∃ built p i,
    createPVTFunction raw usys = Ok built
    ∧ objects st !! a = None
    ∧ objects st' !! a = Some {| pImpl_ := Some p |}
    ∧ impls st' !! p = Some i
    ∧ rhoS_ i = rhoS
    ∧ length (eval_ i) = length built.
Proof.
  intros H. unfold Oil_new in H.
  apply bind_Ok in H as ([i ms'] & Hi & H).
  unfold Impl_new in Hi. apply bind_Ok in Hi as (built & Hbuilt & Hi).
  destruct (place_models built (models st) []) as [ps ms2] eqn:Hp.
  cbn in Hi. injection Hi as <- <-.
  unfold new in H. cbn in H. injection H as <- <-.
  exists built, (fresh (dom (impls st))), {| eval_ := ps; rhoS_ := rhoS |}.
  split; [exact Hbuilt|]. split; [apply fresh_None|]. cbn.
  rewrite !lookup_insert_eq. repeat split.
  apply place_models_length in Hp. exact Hp.
Qed.

(** X17.  An [Oil] built from a table has as many regions as the table
    has tables: every query for a region index at or above [numTables]
    raises the range error that names the index and the range from 0 to
    [numTables - 1], no query for a region below [numTables] raises a
    range error, and the surface density of such a region is the entry
    of the density array the constructor was given. *)
Theorem Oil_new_has_numTables_regions
    (raw : ECLPropTableRawData) (usys : Z) (rhoS : list float)
    (st : Store) (a : positive) (st' : Store) :
  numTables raw < size_t_range →
  Oil_new raw usys rhoS st = Ok (a, st') →
  ∀ q,
    (numTables raw ≤ region_of q →
     ask st' a q
     = Throw (invalid_argument (range_error (region_of q) (numTables raw))))
    ∧ (region_of q < numTables raw → not_raised (ask st' a q))
    ∧ (∀ region, q = AskSurfaceMassDensity region →
         region_of q < numTables raw →
         ask st' a q = (x ← at_ rhoS (region_of q); Ok (Value x))).
Proof.
  intros Hfit Hnew q.
  destruct (Oil_new_shape raw usys rhoS st a st' Hnew)
    as (built & p & i & Hbuilt & _ & Ho & Hi & Hrho & Hlen).
  assert (size (eval_ i) = numTables raw) as Hsize.
  { unfold size. rewrite Hlen. fold (size built).
    destruct (createPVTFunction_size raw usys built Hbuilt) as [->| ->];
      [by apply N.mod_small|reflexivity]. }
  destruct (ask_range st' a _ p i q Ho eq_refl Hi) as [Hout Hin].
  rewrite Hsize in Hout, Hin. split; [exact Hout|]. split; [exact Hin|].
  intros region -> Hlt. rewrite (ask_impl st' a _ p i _ Ho eq_refl Hi).
  cbn [region_of] in Hlt. rewrite <- Hsize in Hlt.
  rewrite (Impl_surfaceMassDensity_in i _ Hlt), Hrho. reflexivity.
Qed.

Lemma size_t_of_int_negative (region : Z) :
  (- 2 ^ 63 ≤ region < 0)%Z →
  size_t_of_int region = Z.to_N (2 ^ 64 + region).
Proof.
  intros H. unfold size_t_of_int, size_t_range. f_equal.
  change (Z.of_N (2 ^ 64)) with (2 ^ 64)%Z.
  symmetry. apply (Z.mod_unique_pos _ _ (-1)); lia.
Qed.

(** X18.  The facade takes the region as an [int] and hands it to a
    parameter of the vector's size type: a negative index arrives as
    2^64 plus the index, and every accessor then throws the range error,
    which names that large number. *)
Theorem negative_region_out_of_range
    (st : Store) (this : positive) (o : Oil) (p : positive) (i : Impl)
    (region : Z) :
  objects st !! this = Some o →
  pImpl_ o = Some p →
  impls st !! p = Some i →
  (- 2 ^ 31 ≤ region < 0)%Z →
  size (eval_ i) ≤ 2 ^ 64 - 2 ^ 31 →
  let e : exn collab_exn :=
    invalid_argument
      (range_error (Z.to_N (2 ^ 64 + region)) (size (eval_ i))) in
  (∀ rs po, Oil_formationVolumeFactor st this region rs po = Throw e)
  ∧ (∀ rs po, Oil_viscosity st this region rs po = Throw e)
  ∧ Oil_surfaceMassDensity st this region = Throw e
  ∧ (∀ curve, Oil_getPvtCurve st this curve region = Throw e).
Proof.
  intros Ho Hp Hi Hneg Hsize e.
  assert (size_t_of_int region = Z.to_N (2 ^ 64 + region)) as Er
    by (apply size_t_of_int_negative; lia).
  assert (size (eval_ i) ≤ size_t_of_int region) as Hle by (rewrite Er; lia).
  unfold e. rewrite <- Er.
  unfold Oil_formationVolumeFactor, Oil_viscosity, Oil_surfaceMassDensity,
    Oil_getPvtCurve, deref. rewrite Ho. cbn [mbind result_bind bind].
  rewrite Hp. cbn [deref_ptr]. unfold deref. rewrite Hi.
  cbn [mbind result_bind bind].
  unfold Impl_formationVolumeFactor, Impl_viscosity,
    Impl_surfaceMassDensity, Impl_getPvtCurve.
  rewrite (validateRegIdx_out i _ Hle). repeat split.
Qed.

(** X19.  An object that has been moved from holds a null pointer:
    copy construction and copy assignment from it dereference that
    pointer, which is undefined; its destructor is safe and releases
    nothing but the object itself. *)
Theorem moved_from_object_use
    (st : Store) (rhs : positive) (this : positive) (st' : Store) :
  Oil_move rhs st = Ok (this, st') →
  Oil_copy rhs st' = Undefined
  ∧ (∀ y, Oil_copy_assign y rhs st' = Undefined)
  ∧ ∃ st'', Oil_delete rhs st' = Ok st''
            ∧ objects st'' = delete rhs (objects st')
            ∧ impls st'' = impls st'
            ∧ models st'' = models st'.
Proof.
  intros H. pose proof H as H'. unfold Oil_move in H'.
  apply bind_Ok in H' as (r & Hr%deref_Ok & _).
  rewrite (Oil_move_eq st rhs r Hr) in H.
  set (st1 := set_pImpl rhs None st) in *.
  set (x := fresh (dom (objects st1))) in *.
  injection H as <- <-.
  assert (x ≠ rhs) as Hne.
  { pose proof (fresh_None (objects st1)) as Hx. fold x in Hx.
    intros E. rewrite E in Hx. cbn in Hx.
    by rewrite lookup_insert_eq in Hx. }
  assert (objects (set_pImpl x (pImpl_ r) st1) !! rhs
          = Some {| pImpl_ := None |}) as Hnull.
  { cbn. rewrite lookup_insert_ne by done. by rewrite lookup_insert_eq. }
  split; [|split].
  - unfold Oil_copy, deref. rewrite Hnull. reflexivity.
  - intros y. unfold Oil_copy_assign, deref. rewrite Hnull. reflexivity.
  - eexists. split; [|split; [|split]].
    + unfold Oil_delete, deref. rewrite Hnull. reflexivity.
    + reflexivity.
    + reflexivity.
    + reflexivity.
Qed.
End Regions.

(** * Reading from an INIT file *)

Section InitFiles.
Context {C : Collaborators} {F : InitFile}.

Lemma phase_bit0 (phase : Z) :
  (Z.land (phase mod 2 ^ 32) (Z.shiftl 1 0) =? 0)%Z = negb (Z.odd phase).
Proof.
  change (Z.shiftl 1 0) with (Z.ones 1). rewrite Z.land_ones by lia.
  change (2 ^ 1)%Z with 2%Z.
  rewrite Z.mod_mod_divide by (exists (2 ^ 31)%Z; reflexivity).
  rewrite Zmod_odd. by destruct (Z.odd phase).
Qed.

Lemma assign_from_Ok (tab : vector) (start : Z) (n : N) (v : vector) :
  assign_from tab start n = Ok v →
  size v = n ∧ elems v = take (N.to_nat n) (drop (Z.to_nat start) tab).
Proof.
  unfold assign_from.
  destruct (Z.leb_spec 0 start) as [H0|]; [|discriminate].
  destruct (N.ltb_spec (Z.to_N start) (size tab)) as [H1|]; [|discriminate].
  destruct (N.leb_spec (Z.to_N start + n) (size tab)) as [H2|];
    [|discriminate].
  cbn [andb]. intros [= <-]. split; [|reflexivity].
  unfold size in *. cbn [slice elems].
  rewrite length_take, length_drop. lia.
Qed.

Lemma not_raised_assign_from tab start n :
  not_raised (assign_from tab start n).
Proof. unfold assign_from. destruct (_ && _); auto with raised. Qed.

Lemma bind_raised {A B} (m : result collab_exn A)
    (k : A → result collab_exn B) what :
  not_raised m →
  m ≫= k = Throw (invalid_argument what) →
  ∃ a, m = Ok a ∧ k a = Throw (invalid_argument what).
Proof.
  intros Hm. destruct m as [a|e| |]; cbn; try discriminate.
  - eauto.
  - intros [= ->]. destruct (Hm what eq_refl).
Qed.

(** X20.  [fromECLOutput] looks at bit 0 of the phase item of INTEHEAD
    and at nothing else when the bit is clear: for an even phase item it
    returns the null pointer and leaves the store alone, whatever TABDIMS
    and TAB hold; for an odd one every result it returns is a new [Oil]
    object, never the null pointer. *)
Theorem fromECLOutput_null_iff_oil_inactive
    (init : ECLInitFileData) (st : Store) (ih : list Z) (phase : Z) :
  keywordData_int init INTEHEAD_KW = inr ih →
  ih !! N.to_nat INTEHEAD_PHASE_INDEX = Some phase →
  (Z.odd phase = false → fromECLOutput init st = Ok (None, st))
  ∧ (Z.odd phase = true →
     ∀ r st', fromECLOutput init st = Ok (r, st') →
       ∃ a p, r = Some a
            ∧ objects st !! a = None
            ∧ objects st' !! a = Some {| pImpl_ := Some p |}
            ∧ is_Some (impls st' !! p)).
Proof.
  intros Hih Hphase. unfold fromECLOutput. rewrite Hih.
  cbn [call mbind result_bind bind].
  rewrite (proj2 (at_Ok ih INTEHEAD_PHASE_INDEX phase) Hphase).
  cbn [mbind result_bind bind]. rewrite phase_bit0. split.
  - intros ->. reflexivity.
  - intros -> r st'. cbn [negb]. intros H.
    do 11 (apply bind_Ok in H as (? & _ & H)).
    apply bind_Ok in H as ([a st1] & Hnew & [= <- <-]).
    destruct (Oil_new_shape _ _ _ _ _ _ Hnew)
      as (built & p & i & _ & Hfresh & Ho & Hi & _).
    exists a, p. rewrite Hi. eauto.
Qed.

(** X21.  The table [fromECLOutput] hands to the constructor has five
    columns and vectors of exactly the sizes the counts demand, so of the
    four structural errors only the first can leave [fromECLOutput]: a
    [std::invalid_argument] raised in this file on the way is the one
    for a table without primary key, and the item of TABDIMS for the
    number of gas-ratio nodes is then zero. *)
Theorem fromECLOutput_structural_error
    (init : ECLInitFileData) (st : Store) (what : string) :
  fromECLOutput init st = Throw (invalid_argument what) →
  what = names HasPrimaryKey
  ∧ ∃ tabdims nrpvto,
      keywordData_int init "TABDIMS" = inr tabdims
      ∧ tabdims !! N.to_nat TABDIMS_NRPVTO_ITEM = Some nrpvto
      ∧ size_t_of_int nrpvto = 0.
Proof.
  unfold fromECLOutput. intros H.
  apply bind_raised in H as (ih & _ & H); [|auto with raised].
  apply bind_raised in H as (phase & _ & H); [|auto with raised].
  destruct (_ =? _)%Z; [discriminate|].
  apply bind_raised in H as (tabdims & Htabdims & H); [|auto with raised].
  apply bind_raised in H as (tab & _ & H); [|auto with raised].
  apply bind_raised in H as (nrpvto & Hnr%at_Ok & H); [|auto with raised].
  apply bind_raised in H as (nppvto & _ & H); [|auto with raised].
  apply bind_raised in H as (ntpvto & _ & H); [|auto with raised].
  apply bind_raised in H as (jbpvto & _ & H); [|auto with raised].
  apply bind_raised in H as (pk & [Hpk _]%assign_from_Ok & H);
    [|apply not_raised_assign_from].
  apply bind_raised in H as (ibpvto & _ & H); [|auto with raised].
  apply bind_raised in H as (dt & [Hdt _]%assign_from_Ok & H);
    [|apply not_raised_assign_from].
  apply bind_raised in H as (rhoS & _ & H); [|auto with raised].
  apply bind_raised in H as (usys & _ & H); [|auto with raised].
  destruct (Oil_new _ usys rhoS st) as [[a st']|e| |] eqn:Hnew;
    cbn in H; try discriminate.
  injection H as ->.
  unfold Oil_new, Impl_new in Hnew.
  rewrite createPVTFunction_first in Hnew.
  unfold first_violated in Hnew.
  cbn [numPrimary numCols numRows numTables primaryKey data] in Hnew.
  destruct (N.eqb_spec (size_t_of_int nrpvto) 0) as [H0|H0].
  - cbn in Hnew. injection Hnew as <-. split; [reflexivity|].
    exists tabdims, nrpvto. repeat split; try assumption.
    destruct (keywordData_int init "TABDIMS"); [discriminate|].
    cbn in Htabdims. congruence.
  - exfalso. rewrite Hpk, Hdt, !N.eqb_refl in Hnew. cbn [negb] in Hnew.
    set (raw := {| data := dt |}) in Hnew.
    assert (not_raised (if size_t_of_int nrpvto =? 1
                        then createDeadOil raw usys
                        else createLiveOil raw usys)) as Hn.
    { destruct (_ =? 1);
        [apply not_raised_createDeadOil|apply not_raised_createLiveOil]. }
    destruct (if size_t_of_int nrpvto =? 1 then _ else _)
      as [built|e'| |]; cbn in Hnew; try discriminate.
    + destruct (place_models built (models st) []). discriminate.
    + injection Hnew as ->. destruct (Hn what eq_refl).
Qed.
End InitFiles.
(** * The further properties on the scenarios *)

Section FurtherScenarios.
Import Fixture InitFixture EdgeTables.

#[local] Open Scope float_scope.

(** Scenario C: the two dead-oil models, in table order. *)
Lemma createDeadOil_builds_in_order_witness :
  let cvrt := deadOilUnitConverter_usys metric in
  let leaf j :=
    match PVDx_ctor {| sub_raw := scenarioC; sub_index := j |} cvrt with
    | inr l => l
    | inl _ => []
    end in
  createDeadOil scenarioC 1 =
  Ok (map (λ j, dead {| interpolant_ := leaf (N.of_nat j) |})
        (seq 0 (N.to_nat (wmul (numPrimary scenarioC) (numTables scenarioC))))).
Proof.
  intros cvrt leaf.
  apply (createDeadOil_builds_in_order (C:=test_double) scenarioC 1 cvrt leaf).
  - reflexivity.
  - reflexivity.
  - intros j Hj. change (j < 2)%N in Hj.
    assert (j = 0 ∨ j = 1)%N as [-> | ->] by lia; vm_compute; reflexivity.
Defined.


(** Scenario D with a constructor that runs out of memory at
    sub-table 1. *)
Lemma createLiveOil_passes_other_exception_witness :
  createLiveOil (C:=exhausted) scenarioD 1
  = Throw (propagated (test_runtime_error "std::bad_alloc")).
Proof.
  eapply (createLiveOil_passes_other_exception (C:=exhausted)
            scenarioD 1 _ 1).
  - reflexivity.
  - reflexivity.
  - reflexivity.
  - intros j e' Hj. assert (j = 0)%N as -> by lia.
    vm_compute. discriminate.
  - reflexivity.
  - reflexivity.
Defined.

(** Unit system 3, which the registry does not know: the dead-oil table
    of scenario A, the live-oil table of scenario D, and a live-oil table
    with 2^63 tables. *)
Lemma createPVTFunction_passes_unit_system_exception_witness :
  (createPVTFunction scenarioA 3
   = Throw (propagated (test_runtime_error "Unsupported Unit Convention"))
   ∧ ∀ rhoS st,
       Oil_new scenarioA 3 rhoS st
       = Throw (propagated
                  (test_runtime_error "Unsupported Unit Convention")))
  ∧ (createPVTFunction scenarioD 3
     = Throw (propagated (test_runtime_error "Unsupported Unit Convention"))
     ∧ ∀ rhoS st,
         Oil_new scenarioD 3 rhoS st
         = Throw (propagated
                    (test_runtime_error "Unsupported Unit Convention")))
  ∧ (createPVTFunction rawHuge 3 = Throw length_error
     ∧ ∀ rhoS st, Oil_new rawHuge 3 rhoS st = Throw length_error).
Proof.
  split; [|split].
  - apply (createPVTFunction_passes_unit_system_exception (C:=test_double)
             scenarioA 3 _ eq_refl eq_refl).
    left. reflexivity.
  - apply (createPVTFunction_passes_unit_system_exception (C:=test_double)
             scenarioD 3 _ eq_refl eq_refl).
    right. reflexivity.
  - apply (createPVTFunction_passes_unit_system_exception (C:=test_double)
             rawHuge 3 _ eq_refl eq_refl).
    + discriminate.
    + reflexivity.
Defined.


(** Scenario D: the key of table 0 has a sentinel, so it is not full. *)
Lemma extractPrimaryKey_full_key_witness :
  ∃ key,
    extractPrimaryKey scenarioD 0 (ToSI_disGas metric) = Ok key
    ∧ (size key ≤ numPrimary scenarioD)%N
    ∧ (size key = numPrimary scenarioD
       ↔ Forall (λ x, kept x = true) (table_key scenarioD 0))
    ∧ (Forall (λ x, kept x = true) (table_key scenarioD 0) →
       key = map (ToSI_disGas metric) (table_key scenarioD 0)).
Proof.
  apply (extractPrimaryKey_full_key (C:=test_double) scenarioD 0
           (ToSI_disGas metric)); reflexivity.
Defined.

(** The key [0.0, 50.0, nan]. *)
Lemma extractPrimaryKey_drops_nan_witness :
  Exists (λ x, kept x = false ∧ sentinel x = false) (table_key scenarioNaN 0)
  ∧ ∃ key,
      extractPrimaryKey scenarioNaN 0 (ToSI_disGas metric) = Ok key
      ∧ (size key < numPrimary scenarioNaN)%N.
Proof.
  apply (extractPrimaryKey_drops_nan (C:=test_double) scenarioNaN 0
           (ToSI_disGas metric)).
  - reflexivity.
  - reflexivity.
  - do 2 apply Exists_cons_tl. apply Exists_cons_hd. reflexivity.
Defined.

(** A vector with one pointer, to a live-oil model without nodes. *)
Lemma clone_vector_makes_fresh_copies_witness :
  let src := [1%positive] in
  let ms : gmap positive PVxO := {[ 1%positive := live (LiveOil_new [] []) ]} in
  ∃ dest ms',
    clone_vector src ms = Ok (dest, ms')
    ∧ length dest = length src
    ∧ NoDup dest
    ∧ (∀ q, q ∈ dest → ms !! q = None ∧ q ∉ src)
    ∧ map (λ q, ms' !! q) dest = map (λ p, ms !! p) src
    ∧ (∀ p m, ms !! p = Some m → ms' !! p = Some m)
    ∧ (∀ q, is_Some (ms' !! q) → is_Some (ms !! q) ∨ q ∈ dest).
Proof.
  intros src ms.
  apply (clone_vector_makes_fresh_copies (C:=test_double) src ms).
  intros p Hp. apply list_elem_of_singleton in Hp as ->.
  vm_compute. eauto.
Defined.

(** Moving the catalog of scenario A to a new object. *)
Lemma Oil_move_transfers_witness :
  ∃ a st,
    Oil_new scenarioA 1 [850] empty_store = Ok (a, st)
    ∧ ∃ this st',
        Oil_move a st = Ok (this, st')
        ∧ objects st !! this = None
        ∧ contents st' this = contents st a
        ∧ objects st' !! a = Some {| pImpl_ := None |}
        ∧ (∀ q, ask st' a q = Undefined)
        ∧ models st' = models st
        ∧ impls st' = impls st
        ∧ well_formed st'.
Proof.
  eexists _, _. split; [vm_compute; reflexivity|].
  eapply (Oil_move_transfers (C:=test_double)).
  - refine (proj1 (Oil_new_spec (C:=test_double) scenarioA 1 [850]
                     empty_store _ _ well_formed_empty _)).
    vm_compute. reflexivity.
  - vm_compute. reflexivity.
Defined.

(** The catalog of scenario A is moved to a new object: assigning it
    back to the object it came from succeeds, assigning the moved-from
    object to the one that now holds the model is undefined. *)
Lemma Oil_move_assign_transfers_witness :
  ∃ a st0 c st,
    Oil_new scenarioA 1 [850] empty_store = Ok (a, st0)
    ∧ Oil_move a st0 = Ok (c, st)
    ∧ (∃ st',
         Oil_move_assign a c st = Ok st'
         ∧ contents st' a = contents st c
         ∧ objects st' !! c = Some {| pImpl_ := None |}
         ∧ (∀ old, pImpl_ {| pImpl_ := None |} = Some old →
                   impls st' !! old = None)
         ∧ models st' = models st
         ∧ well_formed st')
    ∧ Oil_move_assign c a st = Undefined.
Proof.
  eexists _, _, _, _. split; [vm_compute; reflexivity|].
  split; [vm_compute; reflexivity|].
  lazymatch goal with
  | |- (∃ st', Oil_move_assign _ _ ?st = _ ∧ _) ∧ _ =>
      assert (well_formed st) as Hwf
  end.
  { refine (proj1 (Oil_move_spec (C:=test_double) _ 1%positive 2%positive _
                     _ _)).
    - refine (proj1 (Oil_new_spec (C:=test_double) scenarioA 1 [850]
                       empty_store 1%positive _ well_formed_empty _)).
      vm_compute. reflexivity.
    - vm_compute. reflexivity. }
  split.
  - refine (proj2 (Oil_move_assign_transfers (C:=test_double) _ 1%positive
                     2%positive {| pImpl_ := None |}
                     {| pImpl_ := Some 1%positive |} Hwf _ _ _) _).
    + discriminate.
    + vm_compute. reflexivity.
    + vm_compute. reflexivity.
    + intros p i. discriminate.
  - refine (proj1 (Oil_move_assign_transfers (C:=test_double) _ 2%positive
                     1%positive {| pImpl_ := Some 1%positive |}
                     {| pImpl_ := None |} Hwf _ _ _)
              1%positive {| eval_ := [1%positive]; rhoS_ := [850] |} _ _ _).
    + discriminate.
    + vm_compute. reflexivity.
    + vm_compute. reflexivity.
    + reflexivity.
    + vm_compute. reflexivity.
    + discriminate.
Defined.

(** The catalog of scenario A, move-assigned to itself. *)
Lemma Oil_move_assign_self_witness :
  ∃ a st,
    Oil_new scenarioA 1 [850] empty_store = Ok (a, st)
    ∧ Oil_move_assign a a st = Ok st.
Proof.
  eexists _, _. split; [vm_compute; reflexivity|].
  apply (Oil_move_assign_self (C:=test_double) _ 1%positive
           {| pImpl_ := Some 1%positive |}).
  vm_compute. reflexivity.
Defined.

(** A catalog without regions can be destroyed; the catalog of
    scenario A cannot. *)
Lemma Oil_delete_releases_witness :
  (∃ a st,
     Oil_new scenarioNoTable 1 [] empty_store = Ok (a, st)
     ∧ ∃ st',
         Oil_delete a st = Ok st'
         ∧ objects st' !! a = None
         ∧ (∀ p, pImpl_ {| pImpl_ := Some 1%positive |} = Some p →
                 impls st' !! p = None)
         ∧ models st' = models st
         ∧ (∀ y, y ≠ a →
                 objects st' !! y = objects st !! y
                 ∧ contents st' y = contents st y)
         ∧ well_formed st')
  ∧ ∃ a st,
      Oil_new scenarioA 1 [850] empty_store = Ok (a, st)
      ∧ Oil_delete a st = Undefined.
Proof.
  split.
  - eexists _, _. split; [vm_compute; reflexivity|].
    refine (proj2 (Oil_delete_releases (C:=test_double) _ 1%positive
                     {| pImpl_ := Some 1%positive |} _ _) _).
    + refine (proj1 (Oil_new_spec (C:=test_double) scenarioNoTable 1 []
                       empty_store 1%positive _ well_formed_empty _)).
      vm_compute. reflexivity.
    + vm_compute. reflexivity.
    + intros p i [= <-]. vm_compute. by intros [= <-].
  - eexists _, _. split; [vm_compute; reflexivity|].
    refine (proj1 (Oil_delete_releases (C:=test_double) _ 1%positive
                     {| pImpl_ := Some 1%positive |} _ _)
              1%positive {| eval_ := [1%positive]; rhoS_ := [850] |} _ _ _).
    + refine (proj1 (Oil_new_spec (C:=test_double) scenarioA 1 [850]
                       empty_store 1%positive _ well_formed_empty _)).
      vm_compute. reflexivity.
    + vm_compute. reflexivity.
    + reflexivity.
    + vm_compute. reflexivity.
    + discriminate.
Defined.

(** The catalog of scenario A after a client has copied it, moved it,
    assigned to the objects that were moved from, and destroyed a
    moved-from object. *)
Lemma reachable_well_formed_witness :
  ∃ a st0 st,
    Oil_new scenarioA 1 [850] empty_store = Ok (a, st0)
    ∧ run_all [CopyConstruct 1; MoveConstruct 1; MoveAssign 1 2;
               CopyAssign 2 1; MoveConstruct 2; Destroy 2]%positive st0
      = Ok st
    ∧ well_formed st
    ∧ ∀ x o, objects st !! x = Some o →
        (pImpl_ o = None ↔ contents st x = None)
        ∧ ∀ v rho, contents st x = Some (v, rho) →
                   Forall (λ m, is_Some m) v.
Proof.
  eexists _, _, _. split; [vm_compute; reflexivity|].
  split; [vm_compute; reflexivity|].
  apply (reachable_well_formed (C:=test_double)).
  eapply (reachable_run_all
            [CopyConstruct 1; MoveConstruct 1; MoveAssign 1 2;
             CopyAssign 2 1; MoveConstruct 2; Destroy 2]%positive);
    [apply (reachable_new empty_store scenarioA 1 [850] 1%positive _
              reachable_empty)|];
    vm_compute; reflexivity.
Defined.

(** The same client: three objects and three [Impl]s are left. *)
Lemma reachable_no_garbage_witness :
  ∃ a st0 st,
    Oil_new scenarioA 1 [850] empty_store = Ok (a, st0)
    ∧ run_all [CopyConstruct 1; MoveConstruct 1; MoveAssign 1 2;
               CopyAssign 2 1; MoveConstruct 2; Destroy 2]%positive st0
      = Ok st
    ∧ (∀ p, is_Some (impls st !! p) →
            ∃ x o, objects st !! x = Some o ∧ pImpl_ o = Some p)
    ∧ (∀ q, is_Some (models st !! q) →
            ∃ p i, impls st !! p = Some i ∧ q ∈ eval_ i).
Proof.
  eexists _, _, _. split; [vm_compute; reflexivity|].
  split; [vm_compute; reflexivity|].
  apply (reachable_no_garbage (C:=test_double)).
  eapply (reachable_run_all
            [CopyConstruct 1; MoveConstruct 1; MoveAssign 1 2;
             CopyAssign 2 1; MoveConstruct 2; Destroy 2]%positive);
    [apply (reachable_new empty_store scenarioA 1 [850] 1%positive _
              reachable_empty)|];
    vm_compute; reflexivity.
Defined.

(** Scenario C: two tables, two regions. *)
Lemma Oil_new_has_numTables_regions_witness :
  ∃ a st,
    Oil_new scenarioC 1 [850; 860] empty_store = Ok (a, st)
    ∧ ∀ q,
        ((numTables scenarioC ≤ region_of q)%N →
         ask st a q
         = Throw (invalid_argument
                    (range_error (region_of q) (numTables scenarioC))))
        ∧ ((region_of q < numTables scenarioC)%N → not_raised (ask st a q))
        ∧ (∀ region, q = AskSurfaceMassDensity region →
             (region_of q < numTables scenarioC)%N →
             ask st a q = (x ← at_ [850; 860] (region_of q); Ok (Value x))).
Proof.
  eexists _, _. split; [vm_compute; reflexivity|].
  apply (Oil_new_has_numTables_regions (C:=test_double) scenarioC 1
           [850; 860] empty_store).
  - reflexivity.
  - vm_compute. reflexivity.
Defined.

(** Region -1 of the catalog of scenario A. *)
Lemma negative_region_out_of_range_witness :
  ∃ a st,
    Oil_new scenarioA 1 [850] empty_store = Ok (a, st)
    ∧ let e : exn collab_exn :=
        invalid_argument
          (range_error (Z.to_N (2 ^ 64 + -1))
             (size (eval_ {| eval_ := [1%positive]; rhoS_ := [850] |}))) in
      (∀ rs po, Oil_formationVolumeFactor st a (-1) rs po = Throw e)
      ∧ (∀ rs po, Oil_viscosity st a (-1) rs po = Throw e)
      ∧ Oil_surfaceMassDensity st a (-1) = Throw e
      ∧ (∀ curve, Oil_getPvtCurve st a curve (-1) = Throw e).
Proof.
  eexists _, _. split; [vm_compute; reflexivity|].
  apply (negative_region_out_of_range (C:=test_double) _ 1%positive
           {| pImpl_ := Some 1%positive |} 1%positive
           {| eval_ := [1%positive]; rhoS_ := [850] |} (-1)).
  - vm_compute. reflexivity.
  - reflexivity.
  - vm_compute. reflexivity.
  - lia.
  - vm_compute. discriminate.
Defined.

Example negative_region_message :
  range_error (Z.to_N (2 ^ 64 + -1)) 1
  = "Region Index 18446744073709551615 Outside Valid Range (0 .. 0)"%string.
Proof. vm_compute. reflexivity. Qed.

(** The catalog of scenario A after it has been moved from. *)
Lemma moved_from_object_use_witness :
  ∃ a st b st',
    Oil_new scenarioA 1 [850] empty_store = Ok (a, st)
    ∧ Oil_move a st = Ok (b, st')
    ∧ Oil_copy a st' = Undefined
    ∧ (∀ y, Oil_copy_assign y a st' = Undefined)
    ∧ ∃ st'', Oil_delete a st' = Ok st''
              ∧ objects st'' = delete a (objects st')
              ∧ impls st'' = impls st'
              ∧ models st'' = models st'.
Proof.
  eexists _, _, _, _. split; [vm_compute; reflexivity|].
  lazymatch goal with
  | |- Oil_move ?a ?st = _ ∧ _ =>
      split; [vm_compute; reflexivity|];
      apply (moved_from_object_use (C:=test_double) st a 2%positive);
      vm_compute; reflexivity
  end.
Defined.

(** An INIT file with gas and water only, and the file of scenario D. *)
Lemma fromECLOutput_null_iff_oil_inactive_witness :
  ((Z.odd 6 = false →
    fromECLOutput initNoOil empty_store = Ok (None, empty_store))
   ∧ (Z.odd 6 = true →
      ∀ r st', fromECLOutput initNoOil empty_store = Ok (r, st') →
        ∃ a p, r = Some a
             ∧ objects empty_store !! a = None
             ∧ objects st' !! a = Some {| pImpl_ := Some p |}
             ∧ is_Some (impls st' !! p)))
  ∧ ((Z.odd 3 = false →
      fromECLOutput initD empty_store = Ok (None, empty_store))
     ∧ (Z.odd 3 = true →
        ∀ r st', fromECLOutput initD empty_store = Ok (r, st') →
          ∃ a p, r = Some a
               ∧ objects empty_store !! a = None
               ∧ objects st' !! a = Some {| pImpl_ := Some p |}
               ∧ is_Some (impls st' !! p))).
Proof.
  split.
  - apply (fromECLOutput_null_iff_oil_inactive (C:=test_double) (F:=test_file)
             initNoOil empty_store (intehead initNoOil) 6); reflexivity.
  - apply (fromECLOutput_null_iff_oil_inactive (C:=test_double) (F:=test_file)
             initD empty_store (intehead initD) 3); reflexivity.
Defined.

Example fromECLOutput_initD :
  ∃ st, fromECLOutput initD empty_store = Ok (Some 1%positive, st)
        ∧ Oil_getPvtCurve st 1 SaturatedState 0
          = Ok [ ([0; 50], [1.0e7; 2.0e7]) ].
Proof. eexists. split; vm_compute; reflexivity. Qed.

(** The INIT file of scenario D with no gas-ratio node in TABDIMS. *)
Lemma fromECLOutput_structural_error_witness :
  ("Oil PVT Table Without Primary Lookup Key"%string = names HasPrimaryKey)
  ∧ ∃ tabdims nrpvto,
      keywordData_int initNoKey "TABDIMS" = inr tabdims
      ∧ tabdims !! N.to_nat TABDIMS_NRPVTO_ITEM = Some nrpvto
      ∧ size_t_of_int nrpvto = 0%N.
Proof.
  apply (fromECLOutput_structural_error (C:=test_double) (F:=test_file)
           initNoKey empty_store).
  vm_compute. reflexivity.
Defined.
End FurtherScenarios.
